(** * Graph configuration pipeline of the agent service

    A shallow embedding of the graph-configuration code of the service
    ([app/schemas/graph_config.py], [app/agents/graph/canonicalizer.py],
    [app/agents/graph/validator.py], [app/agents/graph/upgrader.py],
    [app/agents/factory.py], [app/agents/components/__init__.py]) and the
    properties its specification states about it.

    Conventions of the embedding.
    - A Python [str] is a [string]; each [ascii] stands for one code point
      below 256.  Python orders strings by code point, which is
      [String.compare].
    - A Python [int] is a [Z]; list indices are [nat].
    - A [set] of strings is a [gset string], a [dict] keyed by strings whose
      order is never observed is a [gmap string _]; a [dict] whose insertion
      order is observed is an association list.
    - A function that can raise returns an [option] or a [result]. *)

From Stdlib Require Import ZArith String Ascii List Lia DecimalString.
From Stdlib Require Import Sorting.Sorted Floats.SpecFloat.
From stdpp Require Import base option list gmap sets strings relations.

Set Warnings "-register-all,-clear-no-such-hyp".
Open Scope string_scope.
Open Scope Z_scope.

(** ** Python built-ins on strings, integers and sequences *)

Module Py.

(** Three-way comparisons and their lexicographic composition: Python
    compares tuples component by component, the first component that
    differs deciding. *)

Definition lex (c1 c2 : comparison) : comparison :=
  match c1 with
  | Eq => c2
  | _ => c1
  end.

Definition is_lt (c : comparison) : bool :=
  match c with
  | Lt => true
  | _ => false
  end.

(** A three-way comparison is an order when it is reflexive, antisymmetric
    in the sense of [CompOpp], and transitive on [Lt]; [Eq] need not be
    Leibniz equality (keys may be shared by different elements). *)

Class CompareOrder {K : Type} (cmp : K → K → comparison) : Prop := {
  cmp_refl : ∀ x, cmp x x = Eq;
  cmp_opp : ∀ x y, cmp y x = CompOpp (cmp x y);
  cmp_lt_trans : ∀ x y z, cmp x y = Lt → cmp y z = Lt → cmp x z = Lt;
  cmp_eq_lt : ∀ x y z, cmp x y = Eq → cmp y z = Lt → cmp x z = Lt;
  cmp_lt_eq : ∀ x y z, cmp x y = Lt → cmp y z = Eq → cmp x z = Lt;
  cmp_eq_trans : ∀ x y z, cmp x y = Eq → cmp y z = Eq → cmp x z = Eq
}.

(** [x <= y] for a three-way comparison. *)
Definition cmp_le {K : Type} (cmp : K → K → comparison) (x y : K) : Prop :=
  cmp x y ≠ Gt.

(** [str(n)] for an integer. *)
Definition str_of_Z (n : Z) : string :=
  NilZero.string_of_int (Z.to_int n).

Definition str_of_nat (n : nat) : string :=
  NilZero.string_of_uint (Nat.to_uint n).

(** [s.startswith(p)]. *)
Fixpoint startswith (p s : string) : bool :=
  match p, s with
  | EmptyString, _ => true
  | String a p', String b s' => if Ascii.eqb a b then startswith p' s' else false
  | String _ _, EmptyString => false
  end.

(** [p in s] for strings. *)
Fixpoint contains (p s : string) : bool :=
  if startswith p s then true
  else match s with
       | EmptyString => false
       | String _ s' => contains p s'
       end.

(** [s.strip()]: the characters for which [str.isspace] holds are removed
    from both ends. *)
Definition isspace (a : ascii) : bool :=
  let n := nat_of_ascii a in
  ((9 <=? n) && (n <=? 13) || (28 <=? n) && (n <=? 32)
   || (n =? 133) || (n =? 160))%nat.

Fixpoint lstrip (s : string) : string :=
  match s with
  | EmptyString => ""
  | String a s' => if isspace a then lstrip s' else s
  end.

Fixpoint rstrip (s : string) : string :=
  match s with
  | EmptyString => ""
  | String a s' =>
      match rstrip s' with
      | EmptyString => if isspace a then "" else String a ""
      | r => String a r
      end
  end.

Definition strip (s : string) : string := rstrip (lstrip s).

(** [sep.join(l)]. *)
Fixpoint join (sep : string) (l : list string) : string :=
  match l with
  | [] => ""
  | [x] => x
  | x :: l' => x ++ sep ++ join sep l'
  end.

(** [repr(s)] of a string and [str(l)] of a list of strings, as f-strings
    render them.  Python uses single quotes unless the string has a single
    quote and no double quote; it escapes the quote, the backslash, tab, line
    feed and carriage return, and writes the other non-printable code points
    in hexadecimal. *)
Definition hex_digit (n : nat) : ascii :=
  ascii_of_nat (if (n <? 10)%nat then 48 + n else 87 + n).

Definition has_char (n : nat) (s : string) : bool :=
  existsb (λ a, (nat_of_ascii a =? n)%nat) (list_ascii_of_string s).

Definition printable (n : nat) : bool :=
  ((32 <=? n) && (n <? 127) || (161 <=? n) && negb (n =? 173))%nat.

Definition repr_char (quote : nat) (a : ascii) : string :=
  let n := nat_of_ascii a in
  if ((n =? quote) || (n =? 92))%nat then String "\" (String a "")
  else if (n =? 9)%nat then "\t"
  else if (n =? 10)%nat then "\n"
  else if (n =? 13)%nat then "\r"
  else if printable n then String a ""
  else "\x" ++ String (hex_digit (n / 16)) (String (hex_digit (n mod 16)) "").

Definition repr_str (s : string) : string :=
  let quote := if has_char 39 s && negb (has_char 34 s) then 34%nat else 39%nat in
  let q := String (ascii_of_nat quote) "" in
  q ++ String.concat "" (map (repr_char quote) (list_ascii_of_string s)) ++ q.

Definition str_of_list (l : list string) : string :=
  "[" ++ join ", " (map repr_str l) ++ "]".

(** [sorted(l, key=key)]: the stable sort of [l] by [key], whose keys are
    compared with [<].  The first element of the input goes before every
    element of the sorted rest that is not strictly smaller. *)

Section Sorted.
Context {A K : Type} (cmp : K → K → comparison) (key : A → K).

Fixpoint insert_sorted (x : A) (l : list A) : list A :=
  match l with
  | [] => [x]
  | y :: l' =>
      if is_lt (cmp (key y) (key x)) then y :: insert_sorted x l'
      else x :: y :: l'
  end.

Fixpoint sorted (l : list A) : list A :=
  match l with
  | [] => []
  | x :: l' => insert_sorted x (sorted l')
  end.

(** The order of the elements by their keys. *)
Definition key_le (x y : A) : Prop := cmp_le cmp (key x) (key y).

Lemma insert_sorted_perm x l : insert_sorted x l ≡ₚ x :: l.
Proof.
  induction l as [|y l IH]; simpl; [done|].
  destruct (is_lt _); [|done].
  rewrite IH. apply Permutation_swap.
Qed.

Lemma sorted_perm l : sorted l ≡ₚ l.
Proof.
  induction l as [|x l IH]; simpl; [done|].
  by rewrite insert_sorted_perm, IH.
Qed.

Lemma sorted_length l : length (sorted l) = length l.
Proof. apply Permutation_length, sorted_perm. Qed.

Lemma elem_of_sorted x l : x ∈ sorted l ↔ x ∈ l.
Proof. by rewrite sorted_perm. Qed.

Context `{!CompareOrder cmp}.

Lemma not_lt_le x y : is_lt (cmp (key y) (key x)) = false → key_le x y.
Proof.
  unfold key_le, cmp_le. rewrite (cmp_opp (key x) (key y)).
  destruct (cmp (key x) (key y)); simpl; congruence.
Qed.

Lemma lt_le x y : is_lt (cmp (key y) (key x)) = true → key_le y x.
Proof.
  unfold key_le, cmp_le. destruct (cmp (key y) (key x)); simpl; congruence.
Qed.

Lemma le_not_lt x y : key_le x y → is_lt (cmp (key y) (key x)) = false.
Proof.
  unfold key_le, cmp_le. rewrite (cmp_opp (key x) (key y)).
  destruct (cmp (key x) (key y)); simpl; congruence.
Qed.

Lemma key_le_trans x y z : key_le x y → key_le y z → key_le x z.
Proof.
  unfold key_le, cmp_le. intros Hxy Hyz Hxz.
  assert (Hzx : cmp (key z) (key x) = Lt).
  { rewrite (cmp_opp (key x) (key z)), Hxz. done. }
  destruct (cmp (key x) (key y)) eqn:E1; [| |done].
  - pose proof (cmp_lt_eq _ _ _ Hzx E1) as Hzy.
    rewrite (cmp_opp (key y) (key z)) in Hzy.
    destruct (cmp (key y) (key z)); simpl in *; congruence.
  - pose proof (cmp_lt_trans _ _ _ Hzx E1) as Hzy.
    rewrite (cmp_opp (key y) (key z)) in Hzy.
    destruct (cmp (key y) (key z)); simpl in *; congruence.
Qed.

Lemma insert_sorted_Sorted x l :
  Sorted key_le l → Sorted key_le (insert_sorted x l).
Proof.
  induction 1 as [|y l Hl IH Hhd]; simpl.
  - repeat constructor.
  - destruct (is_lt _) eqn:E.
    + constructor; [done|].
      destruct l as [|z l]; simpl in *.
      * constructor. by apply lt_le.
      * destruct (is_lt (cmp (key z) (key x))).
        -- constructor. by inversion Hhd.
        -- constructor. by apply lt_le.
    + constructor; [by constructor|]. constructor. by apply not_lt_le.
Qed.

Lemma sorted_Sorted l : Sorted key_le (sorted l).
Proof.
  induction l as [|x l IH]; simpl; [constructor|].
  by apply insert_sorted_Sorted.
Qed.

Lemma sorted_StronglySorted l : StronglySorted key_le (sorted l).
Proof.
  apply Sorted_StronglySorted; [|apply sorted_Sorted].
  intros x y z. apply key_le_trans.
Qed.

(** A list already in order is left as it is. *)
Lemma sorted_id l : Sorted key_le l → sorted l = l.
Proof.
  induction 1 as [|x l Hl IH Hhd]; simpl; [done|].
  rewrite IH. destruct Hhd as [|y l Hxy]; simpl; [done|].
  by rewrite (le_not_lt x y).
Qed.

Lemma sorted_idempotent l : sorted (sorted l) = sorted l.
Proof. apply sorted_id, sorted_Sorted. Qed.

(** Stability: the elements that share a key keep the order of the input. *)
Lemma insert_sorted_filter (P : A → Prop) `{!∀ a, Decision (P a)} x l :
  (∀ y, P x → P y → cmp (key y) (key x) = Eq) →
  filter P (insert_sorted x l) = filter P (x :: l).
Proof.
  intros HP. induction l as [|y l IH]; simpl; [done|].
  destruct (is_lt _) eqn:E; [|done].
  rewrite !filter_cons in *.
  destruct (decide (P y)) as [Hy|Hy]; destruct (decide (P x)) as [Hx|Hx];
    try (by rewrite IH).
  rewrite (HP y Hx Hy) in E. done.
Qed.

Lemma sorted_stable k l :
  filter (λ a, cmp (key a) k = Eq) (sorted l)
  = filter (λ a, cmp (key a) k = Eq) l.
Proof.
  induction l as [|x l IH]; simpl; [done|].
  rewrite insert_sorted_filter.
  - by rewrite !filter_cons, IH.
  - intros y Hx Hy. simpl in *.
    apply (cmp_eq_trans _ _ _ Hy).
    rewrite (cmp_opp (key x) k), Hx. done.
Qed.

End Sorted.

(** Orders on the key components: integers, strings (by code point), and
    tuples (lexicographic). *)

#[global] Instance Z_compare_order : CompareOrder Z.compare.
Proof.
  split.
  - apply Z.compare_refl.
  - intros x y. apply Z.compare_antisym.
  - intros x y z. rewrite !Z.compare_lt_iff. lia.
  - intros x y z. rewrite Z.compare_eq_iff, !Z.compare_lt_iff. lia.
  - intros x y z. rewrite Z.compare_eq_iff, !Z.compare_lt_iff. lia.
  - intros x y z. rewrite !Z.compare_eq_iff. lia.
Qed.

Lemma ascii_compare_N a b :
  Ascii.compare a b = N.compare (N_of_ascii a) (N_of_ascii b).
Proof. reflexivity. Qed.

Lemma string_compare_refl s : String.compare s s = Eq.
Proof.
  induction s as [|a s IH]; simpl; [done|].
  by rewrite ascii_compare_N, N.compare_refl.
Qed.

Lemma string_compare_eq s1 s2 : String.compare s1 s2 = Eq ↔ s1 = s2.
Proof.
  split; [apply String.compare_eq_iff|].
  intros ->. apply string_compare_refl.
Qed.

Lemma string_compare_lt_trans s1 s2 s3 :
  String.compare s1 s2 = Lt → String.compare s2 s3 = Lt →
  String.compare s1 s3 = Lt.
Proof.
  revert s2 s3. induction s1 as [|a s1 IH]; intros [|b s2] [|c s3]; simpl;
    try done.
  rewrite !ascii_compare_N.
  destruct (N.compare_spec (N_of_ascii a) (N_of_ascii b)) as [Hab|Hab|Hab];
    destruct (N.compare_spec (N_of_ascii b) (N_of_ascii c)) as [Hbc|Hbc|Hbc];
    try done.
  - rewrite Hab, Hbc, N.compare_refl. apply IH.
  - intros _ _. rewrite Hab.
    by destruct (N.compare_spec (N_of_ascii b) (N_of_ascii c)); try lia.
  - intros _ _. rewrite <- Hbc.
    by destruct (N.compare_spec (N_of_ascii a) (N_of_ascii b)); try lia.
  - intros _ _.
    by destruct (N.compare_spec (N_of_ascii a) (N_of_ascii c)); try lia.
Qed.

#[global] Instance string_compare_order : CompareOrder String.compare.
Proof.
  split.
  - apply string_compare_refl.
  - intros x y. apply String.compare_antisym.
  - apply string_compare_lt_trans.
  - intros x y z. rewrite string_compare_eq. by intros ->.
  - intros x y z H. rewrite string_compare_eq. by intros <-.
  - intros x y z. rewrite !string_compare_eq. congruence.
Qed.

Definition compare_pair {A B : Type} (cmpA : A → A → comparison)
    (cmpB : B → B → comparison) (p q : A * B) : comparison :=
  lex (cmpA p.1 q.1) (cmpB p.2 q.2).

#[global] Instance compare_pair_order {A B : Type} (cmpA : A → A → comparison)
    (cmpB : B → B → comparison) `{!CompareOrder cmpA, !CompareOrder cmpB} :
  CompareOrder (compare_pair cmpA cmpB).
Proof.
  split; unfold compare_pair, lex.
  - intros [a b]; simpl. by rewrite !cmp_refl.
  - intros [a1 b1] [a2 b2]; simpl.
    rewrite (cmp_opp (cmp:=cmpA) a1 a2), (cmp_opp (cmp:=cmpB) b1 b2).
    by destruct (cmpA a1 a2).
  - intros [a1 b1] [a2 b2] [a3 b3]; simpl.
    destruct (cmpA a1 a2) eqn:E1; destruct (cmpA a2 a3) eqn:E2; try done.
    + rewrite (cmp_eq_trans _ _ _ E1 E2). apply cmp_lt_trans.
    + by rewrite (cmp_eq_lt _ _ _ E1 E2).
    + by rewrite (cmp_lt_eq _ _ _ E1 E2).
    + by rewrite (cmp_lt_trans _ _ _ E1 E2).
  - intros [a1 b1] [a2 b2] [a3 b3]; simpl.
    destruct (cmpA a1 a2) eqn:E1; destruct (cmpA a2 a3) eqn:E2; try done.
    + rewrite (cmp_eq_trans _ _ _ E1 E2). apply cmp_eq_lt.
    + by rewrite (cmp_eq_lt _ _ _ E1 E2).
  - intros [a1 b1] [a2 b2] [a3 b3]; simpl.
    destruct (cmpA a1 a2) eqn:E1; destruct (cmpA a2 a3) eqn:E2; try done.
    + rewrite (cmp_eq_trans _ _ _ E1 E2). apply cmp_lt_eq.
    + by rewrite (cmp_lt_eq _ _ _ E1 E2).
  - intros [a1 b1] [a2 b2] [a3 b3]; simpl.
    destruct (cmpA a1 a2) eqn:E1; destruct (cmpA a2 a3) eqn:E2; try done.
    rewrite (cmp_eq_trans _ _ _ E1 E2). apply cmp_eq_trans.
Qed.

End Py.

(** ** JSON-shaped values

    The values of the fields typed [Any] and the raw payloads handed to the
    parser: what [json.loads] builds.  A [dict] is the list of its items in
    insertion order; its keys are strings. *)

Module Json.

(** An IEEE-754 double. *)
Abbreviation float := spec_float.

Inductive json : Type :=
  | JNull
  | JBool (b : bool)
  | JInt (n : Z)
  | JFloat (f : float)
  | JStr (s : string)
  | JList (l : list json)
  | JDict (items : list (string * json)).

(** [d.get(k)]: the first item stored under [k]. *)
Fixpoint dict_get {V : Type} (k : string) (items : list (string * V)) : option V :=
  match items with
  | [] => None
  | (k', v) :: items' => if String.eqb k k' then Some v else dict_get k items'
  end.

(** [d[k] = v]: replaces the value in place, or appends a new item. *)
Fixpoint dict_set {V : Type} (k : string) (v : V) (items : list (string * V))
    : list (string * V) :=
  match items with
  | [] => [(k, v)]
  | (k', v') :: items' =>
      if String.eqb k k' then (k, v) :: items' else (k', v') :: dict_set k v items'
  end.

Definition dict_keys {V : Type} (items : list (string * V)) : list string :=
  map fst items.

(** *** [json.dumps(value, sort_keys=True, default=str)]

    With the default [ensure_ascii=True] and separators [", "] and [": "].
    The text of a float is Python's [float.__repr__], which the embedding
    takes as a parameter. *)

Definition hex_digit (n : nat) : ascii :=
  ascii_of_nat (if (n <? 10)%nat then 48 + n else 87 + n).

(** [\uXXXX] for a code point below 256. *)
Definition escape_unicode (n : nat) : string :=
  "\u00" ++ String (hex_digit (n / 16)) (String (hex_digit (n mod 16)) "").

Definition double_quote : string := String "034"%char "".

Definition escape_char (a : ascii) : string :=
  let n := nat_of_ascii a in
  if (n =? 34)%nat then "\" ++ double_quote
  else if (n =? 92)%nat then "\\"
  else if (n =? 10)%nat then "\n"
  else if (n =? 13)%nat then "\r"
  else if (n =? 9)%nat then "\t"
  else if (n =? 8)%nat then "\b"
  else if (n =? 12)%nat then "\f"
  else if (32 <=? n)%nat && (n <=? 126)%nat then String a ""
  else escape_unicode n.

Fixpoint escape_string (s : string) : string :=
  match s with
  | EmptyString => ""
  | String a s' => escape_char a ++ escape_string s'
  end.

Definition encode_string (s : string) : string :=
  double_quote ++ escape_string s ++ double_quote.

Section Dumps.
Context (float_repr : float → string).

Fixpoint json_dumps (j : json) : string :=
  match j with
  | JNull => "null"
  | JBool true => "true"
  | JBool false => "false"
  | JInt n => Py.str_of_Z n
  | JFloat f => float_repr f
  | JStr s => encode_string s
  | JList l => "[" ++ Py.join ", " (map json_dumps l) ++ "]"
  | JDict items =>
      let rendered := map (λ kv, (kv.1, json_dumps kv.2)) items in
      "{" ++ Py.join ", "
               (map (λ kv, encode_string kv.1 ++ ": " ++ kv.2)
                    (Py.sorted String.compare fst rendered))
          ++ "}"
  end.

(** [repr(value)] and [str(value)] of a JSON-shaped value. *)
Fixpoint py_repr (j : json) : string :=
  match j with
  | JNull => "None"
  | JBool true => "True"
  | JBool false => "False"
  | JInt n => Py.str_of_Z n
  | JFloat f => float_repr f
  | JStr s => Py.repr_str s
  | JList l => "[" ++ Py.join ", " (map py_repr l) ++ "]"
  | JDict items =>
      "{" ++ Py.join ", "
               (map (λ kv, Py.repr_str kv.1 ++ ": " ++ py_repr kv.2) items)
          ++ "}"
  end.

Definition py_str (j : json) : string :=
  match j with
  | JStr s => s
  | _ => py_repr j
  end.

End Dumps.

(** The truth value of a JSON-shaped value. *)
Definition truthy (j : json) : bool :=
  match j with
  | JNull => false
  | JBool b => b
  | JInt n => negb (n =? 0)
  | JFloat (S754_zero _) => false
  | JFloat _ => true
  | JStr s => negb (String.eqb s "")
  | JList l => negb (bool_decide (l = []))
  | JDict items => negb (bool_decide (items = []))
  end.

End Json.

(** ** The canonical schema ([app/schemas/graph_config.py]) *)

Module Schema.
Import Json.

Inductive GraphNodeKind := LLM | TOOL | TRANSFORM | COMPONENT.

Inductive StateFieldType :=
  | STRING | INT | FLOAT | BOOL | LIST | DICT | ANY.

Inductive StateReducerType := REPLACE | ADD_MESSAGES.

Inductive BuiltinEdgeCondition := HAS_TOOL_CALLS | NO_TOOL_CALLS.

Inductive PredicateOperator := EQUALS | NOT_EQUALS | TRUTHY | FALSY.

(** The [.value] of the members of the string enumerations. *)

Definition GraphNodeKind_value (k : GraphNodeKind) : string :=
  match k with
  | LLM => "llm"
  | TOOL => "tool"
  | TRANSFORM => "transform"
  | COMPONENT => "component"
  end.

Definition StateFieldType_value (t : StateFieldType) : string :=
  match t with
  | STRING => "string"
  | INT => "int"
  | FLOAT => "float"
  | BOOL => "bool"
  | LIST => "list"
  | DICT => "dict"
  | ANY => "any"
  end.

Definition StateReducerType_value (r : StateReducerType) : string :=
  match r with
  | REPLACE => "replace"
  | ADD_MESSAGES => "add_messages"
  end.

Definition BuiltinEdgeCondition_value (c : BuiltinEdgeCondition) : string :=
  match c with
  | HAS_TOOL_CALLS => "has_tool_calls"
  | NO_TOOL_CALLS => "no_tool_calls"
  end.

Definition PredicateOperator_value (o : PredicateOperator) : string :=
  match o with
  | EQUALS => "eq"
  | NOT_EQUALS => "neq"
  | TRUTHY => "truthy"
  | FALSY => "falsy"
  end.

Record StateFieldSchema := {
  sfs_type : StateFieldType;
  sfs_description : option string;
  sfs_default : json
}.

Record GraphStateConfig := {
  state_schema : list (string * StateFieldSchema);
  reducers : list (string * StateReducerType)
}.

Record GraphExecutionLimits := {
  max_time_s : Z;
  max_steps : Z;
  max_concurrency : Z
}.

Record ModelDependencyRef := {
  mdr_key : string;
  mdr_provider : option string;
  mdr_version : option string
}.

Record PromptDependencyRef := {
  pdr_key : string;
  pdr_version : option string
}.

Record ComponentDependencyRef := {
  cdr_key : string;
  cdr_version : string
}.

Record GraphDeps := {
  models : list ModelDependencyRef;
  tools : list string;
  prompts : list PromptDependencyRef;
  components : list ComponentDependencyRef
}.

Record GraphMetadata := {
  display_name : option string;
  md_description : option string;
  tags : list string;
  agent_version : option string
}.

Record LLMNodeConfig := {
  prompt_template : string;
  llm_output_key : string;
  model_override : option string;
  temperature_override : option float;
  max_tokens : option Z;
  tools_enabled : bool;
  llm_tool_filter : option (list string);
  max_iterations : Z;
  message_key : option string
}.

Record ToolNodeConfig := {
  execute_all : bool;
  tool_tool_filter : option (list string);
  tool_output_key : string;
  timeout_seconds : Z
}.

Record TransformNodeConfig := {
  template : string;
  tr_output_key : string;
  input_keys : list string
}.

Record ComponentReference := {
  cr_key : string;
  cr_version : string
}.

Record ComponentNodeConfig := {
  component_ref : ComponentReference;
  config_overrides : list (string * json)
}.

(** The four node classes share the fields of [GraphNodeBase]; the class
    fixes both [kind] and the type of [config]. *)
Inductive NodeConfig :=
  | LLMGraphNode (c : LLMNodeConfig)
  | ToolGraphNode (c : ToolNodeConfig)
  | TransformGraphNode (c : TransformNodeConfig)
  | ComponentGraphNode (c : ComponentNodeConfig).

Record GraphNodeConfig := {
  node_id : string;
  node_name : string;
  node_description : option string;
  reads : list string;
  writes : list string;
  config : NodeConfig
}.

Definition kind (n : GraphNodeConfig) : GraphNodeKind :=
  match config n with
  | LLMGraphNode _ => LLM
  | ToolGraphNode _ => TOOL
  | TransformGraphNode _ => TRANSFORM
  | ComponentGraphNode _ => COMPONENT
  end.

Record EdgePredicate := {
  state_path : string;
  operator : PredicateOperator;
  value : json
}.

(** [BuiltinEdgeCondition | EdgePredicate | None]. *)
Inductive EdgeWhen :=
  | WhenNone
  | WhenBuiltin (c : BuiltinEdgeCondition)
  | WhenPredicate (p : EdgePredicate).

Record GraphEdgeConfig := {
  from_node : string;
  to_node : string;
  when : EdgeWhen;
  priority : Z;
  label : option string
}.

Record GraphIR := {
  nodes : list GraphNodeConfig;
  edges : list GraphEdgeConfig;
  entrypoints : list string
}.

(** [prompt_config] has the class [PromptConfig] of
    [app/schemas/prompt_config.py], which is not among the sources; a value
    of that class is carried as the JSON document of its fields. *)
Record GraphConfig := {
  schema_version : string;
  key : string;
  revision : Z;
  graph : GraphIR;
  state : GraphStateConfig;
  deps : option GraphDeps;
  limits : GraphExecutionLimits;
  prompt_config : option json;
  metadata : option GraphMetadata;
  ui : option (list (string * json))
}.

(** *** Validation and serialization of the schema classes

    [X_validate] is [X.model_validate] on a JSON-shaped payload and returns
    [None] where pydantic raises [ValidationError]; [X_dump] is
    [x.model_dump()].  The classes are declared with [extra="forbid"].

    In its default (lax) mode pydantic converts some inputs of another type
    to the type of an [int], [float], [str] or [bool] field before it applies
    the field's constraints.  These conversions are parameters of the
    embedding, as is the validation of the absent [PromptConfig] class. *)

Record Pydantic := {
  lax_int : json → option Z;
  lax_float : json → option float;
  lax_str : json → option string;
  lax_bool : json → option bool;
  PromptConfig_validate : json → option json
}.

(** A value that already has the type of the field is taken as it is;
    [None] is no [PromptConfig], and the dump of a validated [PromptConfig]
    validates to itself. *)
Record PydanticLaws (P : Pydantic) : Prop := {
  lax_int_JInt : ∀ n, lax_int P (JInt n) = Some n;
  lax_float_JFloat : ∀ f, lax_float P (JFloat f) = Some f;
  lax_str_JStr : ∀ s, lax_str P (JStr s) = Some s;
  lax_bool_JBool : ∀ b, lax_bool P (JBool b) = Some b;
  PromptConfig_validate_null : PromptConfig_validate P JNull = None;
  PromptConfig_validate_dump :
    ∀ j p, PromptConfig_validate P j = Some p → PromptConfig_validate P p = Some p
}.

(** No conversion at all. *)
Definition strict : Pydantic := {|
  lax_int j := match j with JInt n => Some n | _ => None end;
  lax_float j := match j with JFloat f => Some f | _ => None end;
  lax_str j := match j with JStr s => Some s | _ => None end;
  lax_bool j := match j with JBool b => Some b | _ => None end;
  PromptConfig_validate j := match j with JDict _ => Some j | _ => None end
|}.

Definition check (b : bool) : option unit :=
  if b then Some () else None.

Definition nonempty (s : string) : bool :=
  negb (String.eqb s "").

Definition str_in (s : string) (l : list string) : bool :=
  existsb (String.eqb s) l.

(** The payload of a model: a dict all of whose keys are fields. *)
Definition model_fields (allowed : list string) (j : json)
    : option (list (string * json)) :=
  match j with
  | JDict items =>
      check (forallb (λ k, str_in k allowed) (dict_keys items));; Some items
  | _ => None
  end.

Definition has_key (name : string) (items : list (string * json)) : bool :=
  match dict_get name items with
  | Some _ => true
  | None => false
  end.

(** A required field, and a field with a default. *)
Definition required {A : Type} (items : list (string * json)) (name : string)
    (v : json → option A) : option A :=
  dict_get name items ≫= v.

Definition defaulted {A : Type} (items : list (string * json)) (name : string)
    (default : A) (v : json → option A) : option A :=
  match dict_get name items with
  | Some j => v j
  | None => Some default
  end.

(** [T | None]. *)
Definition nullable {A : Type} (v : json → option A) (j : json)
    : option (option A) :=
  match j with
  | JNull => Some None
  | _ => Some <$> v j
  end.

Definition list_of {A : Type} (v : json → option A) (j : json)
    : option (list A) :=
  match j with
  | JList l => mapM v l
  | _ => None
  end.

Definition dict_of {A : Type} (v : json → option A) (j : json)
    : option (list (string * A)) :=
  match j with
  | JDict items => mapM (λ kv, a ← v kv.2; Some (kv.1, a)) items
  | _ => None
  end.

Definition any (j : json) : option json := Some j.

Definition dump_option {A : Type} (d : A → json) (o : option A) : json :=
  match o with
  | Some a => d a
  | None => JNull
  end.

Definition dump_dict {A : Type} (d : A → json) (items : list (string * A))
    : json :=
  JDict (map (λ kv, (kv.1, d kv.2)) items).

(** [ge=0.0, le=2.0] on a float: [-0.0] passes, [nan] and the infinities
    fail. *)
Definition float_in_0_2 (f : float) : bool :=
  match f with
  | S754_zero _ => true
  | S754_finite false m e =>
      if 0 <=? e then Z.pos m * 2 ^ e <=? 2 else Z.pos m <=? 2 * 2 ^ (- e)
  | _ => false
  end.

Definition enum_of {A : Type} (members : list A) (val : A → string) (j : json)
    : option A :=
  match j with
  | JStr s => list_find (λ a, val a = s) members ≫= λ p, Some p.2
  | _ => None
  end.

Definition StateFieldType_validate : json → option StateFieldType :=
  enum_of [STRING; INT; FLOAT; BOOL; LIST; DICT; ANY] StateFieldType_value.

Definition StateReducerType_validate : json → option StateReducerType :=
  enum_of [REPLACE; ADD_MESSAGES] StateReducerType_value.

Definition BuiltinEdgeCondition_validate : json → option BuiltinEdgeCondition :=
  enum_of [HAS_TOOL_CALLS; NO_TOOL_CALLS] BuiltinEdgeCondition_value.

Definition PredicateOperator_validate : json → option PredicateOperator :=
  enum_of [EQUALS; NOT_EQUALS; TRUTHY; FALSY] PredicateOperator_value.

Section Validate.
Context (P : Pydantic).

(** [str], [str = Field(min_length=1)], [int = Field(ge=.., le=..)]. *)
Definition v_str : json → option string := lax_str P.

Definition v_str1 (j : json) : option string :=
  s ← lax_str P j; check (nonempty s);; Some s.

Definition v_int_range (lo hi : Z) (j : json) : option Z :=
  n ← lax_int P j; check ((lo <=? n) && (n <=? hi));; Some n.

Definition v_int_ge (lo : Z) (j : json) : option Z :=
  n ← lax_int P j; check (lo <=? n);; Some n.

Definition StateFieldSchema_validate (j : json) : option StateFieldSchema :=
  items ← model_fields ["type"; "description"; "default"] j;
  t ← required items "type" StateFieldType_validate;
  d ← defaulted items "description" None (nullable v_str);
  v ← defaulted items "default" JNull any;
  Some {| sfs_type := t; sfs_description := d; sfs_default := v |}.

(** The field [state_schema] has the alias [schema], and the class sets
    [populate_by_name]: the alias is looked up first, then the name. *)
Definition GraphStateConfig_validate (j : json) : option GraphStateConfig :=
  items ← model_fields ["schema"; "state_schema"; "reducers"] j;
  check (negb (has_key "schema" items && has_key "state_schema" items));;
  sc ← defaulted items
         (if has_key "schema" items then "schema" else "state_schema")
         [] (dict_of StateFieldSchema_validate);
  rd ← defaulted items "reducers" [] (dict_of StateReducerType_validate);
  Some {| state_schema := sc; reducers := rd |}.

Definition GraphExecutionLimits_validate (j : json)
    : option GraphExecutionLimits :=
  items ← model_fields ["max_time_s"; "max_steps"; "max_concurrency"] j;
  t ← defaulted items "max_time_s" 300 (v_int_range 1 3600);
  st ← defaulted items "max_steps" 128 (v_int_range 1 100000);
  c ← defaulted items "max_concurrency" 10 (v_int_range 1 256);
  Some {| max_time_s := t; max_steps := st; max_concurrency := c |}.

Definition ModelDependencyRef_validate (j : json) : option ModelDependencyRef :=
  items ← model_fields ["key"; "provider"; "version"] j;
  k ← required items "key" v_str1;
  p ← defaulted items "provider" None (nullable v_str);
  v ← defaulted items "version" None (nullable v_str);
  Some {| mdr_key := k; mdr_provider := p; mdr_version := v |}.

Definition PromptDependencyRef_validate (j : json) : option PromptDependencyRef :=
  items ← model_fields ["key"; "version"] j;
  k ← required items "key" v_str1;
  v ← defaulted items "version" None (nullable v_str);
  Some {| pdr_key := k; pdr_version := v |}.

Definition ComponentDependencyRef_validate (j : json)
    : option ComponentDependencyRef :=
  items ← model_fields ["key"; "version"] j;
  k ← required items "key" v_str1;
  v ← defaulted items "version" "*" v_str;
  Some {| cdr_key := k; cdr_version := v |}.

Definition GraphDeps_validate (j : json) : option GraphDeps :=
  items ← model_fields ["models"; "tools"; "prompts"; "components"] j;
  m ← defaulted items "models" [] (list_of ModelDependencyRef_validate);
  t ← defaulted items "tools" [] (list_of v_str);
  p ← defaulted items "prompts" [] (list_of PromptDependencyRef_validate);
  c ← defaulted items "components" [] (list_of ComponentDependencyRef_validate);
  Some {| models := m; tools := t; prompts := p; components := c |}.

Definition GraphMetadata_validate (j : json) : option GraphMetadata :=
  items ← model_fields
            ["display_name"; "description"; "tags"; "agent_version"] j;
  n ← defaulted items "display_name" None (nullable v_str);
  d ← defaulted items "description" None (nullable v_str);
  t ← defaulted items "tags" [] (list_of v_str);
  a ← defaulted items "agent_version" None (nullable v_str);
  Some {| display_name := n; md_description := d; tags := t;
          agent_version := a |}.

Definition LLMNodeConfig_validate (j : json) : option LLMNodeConfig :=
  items ← model_fields
            ["prompt_template"; "output_key"; "model_override";
             "temperature_override"; "max_tokens"; "tools_enabled";
             "tool_filter"; "max_iterations"; "message_key"] j;
  pt ← defaulted items "prompt_template" "" v_str;
  ok ← defaulted items "output_key" "response" v_str;
  mo ← defaulted items "model_override" None (nullable v_str);
  te ← defaulted items "temperature_override" None
         (nullable (λ j, f ← lax_float P j; check (float_in_0_2 f);; Some f));
  mt ← defaulted items "max_tokens" None (nullable (lax_int P));
  en ← defaulted items "tools_enabled" true (lax_bool P);
  tf ← defaulted items "tool_filter" None (nullable (list_of v_str));
  mi ← defaulted items "max_iterations" 10 (v_int_ge 1);
  mk ← defaulted items "message_key" None (nullable v_str);
  Some {| prompt_template := pt; llm_output_key := ok; model_override := mo;
          temperature_override := te; max_tokens := mt; tools_enabled := en;
          llm_tool_filter := tf; max_iterations := mi; message_key := mk |}.

Definition ToolNodeConfig_validate (j : json) : option ToolNodeConfig :=
  items ← model_fields
            ["execute_all"; "tool_filter"; "output_key"; "timeout_seconds"] j;
  ea ← defaulted items "execute_all" true (lax_bool P);
  tf ← defaulted items "tool_filter" None (nullable (list_of v_str));
  ok ← defaulted items "output_key" "tool_results" v_str;
  ts ← defaulted items "timeout_seconds" 60 (v_int_range 1 600);
  Some {| execute_all := ea; tool_tool_filter := tf; tool_output_key := ok;
          timeout_seconds := ts |}.

Definition TransformNodeConfig_validate (j : json) : option TransformNodeConfig :=
  items ← model_fields ["template"; "output_key"; "input_keys"] j;
  t ← required items "template" v_str;
  ok ← required items "output_key" v_str;
  ik ← defaulted items "input_keys" [] (list_of v_str);
  Some {| template := t; tr_output_key := ok; input_keys := ik |}.

Definition ComponentReference_validate (j : json) : option ComponentReference :=
  items ← model_fields ["key"; "version"] j;
  k ← required items "key" v_str1;
  v ← defaulted items "version" "*" v_str;
  Some {| cr_key := k; cr_version := v |}.

Definition ComponentNodeConfig_validate (j : json) : option ComponentNodeConfig :=
  items ← model_fields ["component_ref"; "config_overrides"] j;
  r ← required items "component_ref" ComponentReference_validate;
  o ← defaulted items "config_overrides" [] (dict_of any);
  Some {| component_ref := r; config_overrides := o |}.

(** The union of the node classes is discriminated by [kind]: the member of
    [GraphNodeKind] found there selects the class that validates [config]. *)
Definition NodeConfig_validate (k : GraphNodeKind) (j : json) : option NodeConfig :=
  match k with
  | LLM => LLMGraphNode <$> LLMNodeConfig_validate j
  | TOOL => ToolGraphNode <$> ToolNodeConfig_validate j
  | TRANSFORM => TransformGraphNode <$> TransformNodeConfig_validate j
  | COMPONENT => ComponentGraphNode <$> ComponentNodeConfig_validate j
  end.

Definition GraphNodeConfig_validate (j : json) : option GraphNodeConfig :=
  items ← model_fields
            ["id"; "name"; "description"; "reads"; "writes"; "kind"; "config"] j;
  k ← required items "kind"
        (enum_of [LLM; TOOL; TRANSFORM; COMPONENT] GraphNodeKind_value);
  i ← required items "id" v_str1;
  n ← required items "name" v_str1;
  d ← defaulted items "description" None (nullable v_str);
  r ← defaulted items "reads" [] (list_of v_str);
  w ← defaulted items "writes" [] (list_of v_str);
  c ← required items "config" (NodeConfig_validate k);
  Some {| node_id := i; node_name := n; node_description := d; reads := r;
          writes := w; config := c |}.

Definition EdgePredicate_validate (j : json) : option EdgePredicate :=
  items ← model_fields ["state_path"; "operator"; "value"] j;
  sp ← required items "state_path" v_str1;
  op ← required items "operator" PredicateOperator_validate;
  v ← defaulted items "value" JNull any;
  Some {| state_path := sp; operator := op; value := v |}.

Definition EdgeWhen_validate (j : json) : option EdgeWhen :=
  match j with
  | JNull => Some WhenNone
  | JStr _ => WhenBuiltin <$> BuiltinEdgeCondition_validate j
  | JDict _ => WhenPredicate <$> EdgePredicate_validate j
  | _ => None
  end.

Definition GraphEdgeConfig_validate (j : json) : option GraphEdgeConfig :=
  items ← model_fields ["from_node"; "to_node"; "when"; "priority"; "label"] j;
  f ← required items "from_node" v_str1;
  t ← required items "to_node" v_str1;
  w ← defaulted items "when" WhenNone EdgeWhen_validate;
  p ← defaulted items "priority" 0 (lax_int P);
  l ← defaulted items "label" None (nullable v_str);
  Some {| from_node := f; to_node := t; when := w; priority := p; label := l |}.

(** [entrypoints] has [min_length=1] and the validator
    [_validate_entrypoints_unique]. *)
Definition _validate_entrypoints_unique (entrypoints : list string)
    : option (list string) :=
  check (bool_decide (size (list_to_set entrypoints : gset string)
                      = length entrypoints));;
  Some entrypoints.

Definition GraphIR_validate (j : json) : option GraphIR :=
  items ← model_fields ["nodes"; "edges"; "entrypoints"] j;
  n ← required items "nodes" (list_of GraphNodeConfig_validate);
  e ← required items "edges" (list_of GraphEdgeConfig_validate);
  ep ← required items "entrypoints"
         (λ j, l ← list_of v_str j; check (1 <=? length l)%nat;;
               _validate_entrypoints_unique l);
  Some {| nodes := n; edges := e; entrypoints := ep |}.

Definition GraphConfig_validate (j : json) : option GraphConfig :=
  items ← model_fields
            ["schema_version"; "key"; "revision"; "graph"; "state"; "deps";
             "limits"; "prompt_config"; "metadata"; "ui"] j;
  sv ← defaulted items "schema_version" "3.0"
         (λ j, match j with
               | JStr s => check (String.eqb s "3.0");; Some s
               | _ => None
               end);
  k ← required items "key" v_str1;
  r ← defaulted items "revision" 1 (v_int_ge 1);
  g ← required items "graph" GraphIR_validate;
  st ← defaulted items "state" {| state_schema := []; reducers := [] |}
         GraphStateConfig_validate;
  d ← defaulted items "deps" None (nullable GraphDeps_validate);
  l ← defaulted items "limits"
        {| max_time_s := 300; max_steps := 128; max_concurrency := 10 |}
        GraphExecutionLimits_validate;
  pc ← defaulted items "prompt_config" None (nullable (PromptConfig_validate P));
  m ← defaulted items "metadata" None (nullable GraphMetadata_validate);
  u ← defaulted items "ui" None (nullable (dict_of any));
  Some {| schema_version := sv; key := k; revision := r; graph := g;
          state := st; deps := d; limits := l; prompt_config := pc;
          metadata := m; ui := u |}.

(** [parse_graph_config]. *)
Definition parse_graph_config (config : json) : option GraphConfig :=
  GraphConfig_validate config.

End Validate.

Definition dump_str_list (l : list string) : json := JList (map JStr l).

Definition ModelDependencyRef_dump (m : ModelDependencyRef) : json :=
  JDict [("key", JStr (mdr_key m));
         ("provider", dump_option JStr (mdr_provider m));
         ("version", dump_option JStr (mdr_version m))].

Definition PromptDependencyRef_dump (p : PromptDependencyRef) : json :=
  JDict [("key", JStr (pdr_key p));
         ("version", dump_option JStr (pdr_version p))].

Definition ComponentDependencyRef_dump (c : ComponentDependencyRef) : json :=
  JDict [("key", JStr (cdr_key c)); ("version", JStr (cdr_version c))].

Definition GraphDeps_dump (d : GraphDeps) : json :=
  JDict [("models", JList (map ModelDependencyRef_dump (models d)));
         ("tools", dump_str_list (tools d));
         ("prompts", JList (map PromptDependencyRef_dump (prompts d)));
         ("components", JList (map ComponentDependencyRef_dump (components d)))].

Definition GraphMetadata_dump (m : GraphMetadata) : json :=
  JDict [("display_name", dump_option JStr (display_name m));
         ("description", dump_option JStr (md_description m));
         ("tags", dump_str_list (tags m));
         ("agent_version", dump_option JStr (agent_version m))].

Definition StateFieldSchema_dump (f : StateFieldSchema) : json :=
  JDict [("type", JStr (StateFieldType_value (sfs_type f)));
         ("description", dump_option JStr (sfs_description f));
         ("default", sfs_default f)].

Definition GraphStateConfig_dump (st : GraphStateConfig) : json :=
  JDict [("state_schema", dump_dict StateFieldSchema_dump (state_schema st));
         ("reducers",
          dump_dict (λ r, JStr (StateReducerType_value r)) (reducers st))].

Definition GraphExecutionLimits_dump (l : GraphExecutionLimits) : json :=
  JDict [("max_time_s", JInt (max_time_s l));
         ("max_steps", JInt (max_steps l));
         ("max_concurrency", JInt (max_concurrency l))].

Definition LLMNodeConfig_dump (c : LLMNodeConfig) : json :=
  JDict [("prompt_template", JStr (prompt_template c));
         ("output_key", JStr (llm_output_key c));
         ("model_override", dump_option JStr (model_override c));
         ("temperature_override", dump_option JFloat (temperature_override c));
         ("max_tokens", dump_option JInt (max_tokens c));
         ("tools_enabled", JBool (tools_enabled c));
         ("tool_filter", dump_option dump_str_list (llm_tool_filter c));
         ("max_iterations", JInt (max_iterations c));
         ("message_key", dump_option JStr (message_key c))].

Definition ToolNodeConfig_dump (c : ToolNodeConfig) : json :=
  JDict [("execute_all", JBool (execute_all c));
         ("tool_filter", dump_option dump_str_list (tool_tool_filter c));
         ("output_key", JStr (tool_output_key c));
         ("timeout_seconds", JInt (timeout_seconds c))].

Definition TransformNodeConfig_dump (c : TransformNodeConfig) : json :=
  JDict [("template", JStr (template c));
         ("output_key", JStr (tr_output_key c));
         ("input_keys", dump_str_list (input_keys c))].

Definition ComponentReference_dump (r : ComponentReference) : json :=
  JDict [("key", JStr (cr_key r)); ("version", JStr (cr_version r))].

Definition ComponentNodeConfig_dump (c : ComponentNodeConfig) : json :=
  JDict [("component_ref", ComponentReference_dump (component_ref c));
         ("config_overrides", JDict (config_overrides c))].

Definition NodeConfig_dump (c : NodeConfig) : json :=
  match c with
  | LLMGraphNode c => LLMNodeConfig_dump c
  | ToolGraphNode c => ToolNodeConfig_dump c
  | TransformGraphNode c => TransformNodeConfig_dump c
  | ComponentGraphNode c => ComponentNodeConfig_dump c
  end.

Definition GraphNodeConfig_dump (n : GraphNodeConfig) : json :=
  JDict [("id", JStr (node_id n));
         ("name", JStr (node_name n));
         ("description", dump_option JStr (node_description n));
         ("reads", dump_str_list (reads n));
         ("writes", dump_str_list (writes n));
         ("kind", JStr (GraphNodeKind_value (kind n)));
         ("config", NodeConfig_dump (config n))].

Definition EdgePredicate_dump (p : EdgePredicate) : json :=
  JDict [("state_path", JStr (state_path p));
         ("operator", JStr (PredicateOperator_value (operator p)));
         ("value", value p)].

Definition EdgeWhen_dump (w : EdgeWhen) : json :=
  match w with
  | WhenNone => JNull
  | WhenBuiltin c => JStr (BuiltinEdgeCondition_value c)
  | WhenPredicate p => EdgePredicate_dump p
  end.

Definition GraphEdgeConfig_dump (e : GraphEdgeConfig) : json :=
  JDict [("from_node", JStr (from_node e));
         ("to_node", JStr (to_node e));
         ("when", EdgeWhen_dump (when e));
         ("priority", JInt (priority e));
         ("label", dump_option JStr (label e))].

Definition GraphIR_dump (g : GraphIR) : json :=
  JDict [("nodes", JList (map GraphNodeConfig_dump (nodes g)));
         ("edges", JList (map GraphEdgeConfig_dump (edges g)));
         ("entrypoints", dump_str_list (entrypoints g))].

(** The items of the dict [config.model_dump()]. *)
Definition GraphConfig_items (c : GraphConfig) : list (string * json) :=
  [("schema_version", JStr (schema_version c));
   ("key", JStr (key c));
   ("revision", JInt (revision c));
   ("graph", GraphIR_dump (graph c));
   ("state", GraphStateConfig_dump (state c));
   ("deps", dump_option GraphDeps_dump (deps c));
   ("limits", GraphExecutionLimits_dump (limits c));
   ("prompt_config", dump_option (λ p, p) (prompt_config c));
   ("metadata", dump_option GraphMetadata_dump (metadata c));
   ("ui", dump_option JDict (ui c))].

Definition GraphConfig_dump (c : GraphConfig) : json :=
  JDict (GraphConfig_items c).

(** *** The constraints of the schema on typed values

    What every value built by [model_validate] satisfies; a value built with
    [model_copy] or [model_construct] need not. *)

Definition GraphExecutionLimits_ok (l : GraphExecutionLimits) : bool :=
  (1 <=? max_time_s l) && (max_time_s l <=? 3600)
  && (1 <=? max_steps l) && (max_steps l <=? 100000)
  && (1 <=? max_concurrency l) && (max_concurrency l <=? 256).

Definition GraphDeps_ok (d : GraphDeps) : bool :=
  forallb (λ m, nonempty (mdr_key m)) (models d)
  && forallb (λ p, nonempty (pdr_key p)) (prompts d)
  && forallb (λ c, nonempty (cdr_key c)) (components d).

Definition NodeConfig_ok (c : NodeConfig) : bool :=
  match c with
  | LLMGraphNode c =>
      from_option float_in_0_2 true (temperature_override c)
      && (1 <=? max_iterations c)
  | ToolGraphNode c => (1 <=? timeout_seconds c) && (timeout_seconds c <=? 600)
  | TransformGraphNode c => true
  | ComponentGraphNode c => nonempty (cr_key (component_ref c))
  end.

Definition GraphNodeConfig_ok (n : GraphNodeConfig) : bool :=
  nonempty (node_id n) && nonempty (node_name n) && NodeConfig_ok (config n).

Definition EdgeWhen_ok (w : EdgeWhen) : bool :=
  match w with
  | WhenPredicate p => nonempty (state_path p)
  | _ => true
  end.

Definition GraphEdgeConfig_ok (e : GraphEdgeConfig) : bool :=
  nonempty (from_node e) && nonempty (to_node e) && EdgeWhen_ok (when e).

Definition GraphIR_ok (g : GraphIR) : bool :=
  forallb GraphNodeConfig_ok (nodes g)
  && forallb GraphEdgeConfig_ok (edges g)
  && (1 <=? length (entrypoints g))%nat
  && bool_decide (NoDup (entrypoints g)).

Definition GraphConfig_ok (P : Pydantic) (c : GraphConfig) : Prop :=
  schema_version c = "3.0"
  ∧ nonempty (key c) = true
  ∧ 1 <= revision c
  ∧ GraphIR_ok (graph c) = true
  ∧ from_option GraphDeps_ok true (deps c) = true
  ∧ GraphExecutionLimits_ok (limits c) = true
  ∧ (∀ p, prompt_config c = Some p → PromptConfig_validate P p = Some p).

(** *** Serialization followed by validation *)

Lemma strict_laws : PydanticLaws strict.
Proof.
  split; try done.
  intros j p. destruct j; simpl; intros [= <-]; done.
Qed.

Lemma mapM_map_Some {A B : Type} (v : B → option A) (d : A → B) (l : list A) :
  Forall (λ a, v (d a) = Some a) l → mapM v (map d l) = Some l.
Proof.
  induction 1 as [|a l Ha Hl IH]; simpl; [done|].
  rewrite Ha. simpl. by rewrite IH.
Qed.

Lemma list_of_dump {A : Type} (v : json → option A) (d : A → json)
    (ok : A → bool) (l : list A) :
  (∀ a, ok a = true → v (d a) = Some a) →
  forallb ok l = true →
  list_of v (JList (map d l)) = Some l.
Proof.
  intros Hv Hl. simpl. apply mapM_map_Some, Forall_forall.
  intros a Ha. apply Hv.
  rewrite forallb_forall in Hl. apply Hl. by apply list_elem_of_In.
Qed.

Lemma dict_of_dump {A : Type} (v : json → option A) (d : A → json)
    (items : list (string * A)) :
  (∀ a, v (d a) = Some a) →
  dict_of v (dump_dict d items) = Some items.
Proof.
  intros Hv. unfold dict_of, dump_dict.
  induction items as [|[k a] items IH]; simpl; [done|].
  rewrite Hv. simpl. by rewrite IH.
Qed.

Lemma dict_of_any items : dict_of any (JDict items) = Some items.
Proof.
  unfold dict_of. induction items as [|[k a] items IH]; [done|].
  simpl in *. by rewrite IH.
Qed.

Ltac fields :=
  cbn [model_fields dict_keys map fst snd forallb str_in existsb String.eqb
       Ascii.eqb Bool.eqb orb andb negb check mbind option_bind dict_get
       required defaulted has_key].

Section RoundTrip.
Context (P : Pydantic) (HP : PydanticLaws P).

Lemma v_str_dump s : v_str P (JStr s) = Some s.
Proof. apply (lax_str_JStr P HP). Qed.

Lemma v_str1_dump s : nonempty s = true → v_str1 P (JStr s) = Some s.
Proof.
  intros H. unfold v_str1. rewrite (lax_str_JStr P HP). simpl. by rewrite H.
Qed.

Lemma v_int_range_dump lo hi n :
  (lo <=? n) && (n <=? hi) = true → v_int_range P lo hi (JInt n) = Some n.
Proof.
  intros H. unfold v_int_range. rewrite (lax_int_JInt P HP). simpl.
  by rewrite H.
Qed.

Lemma v_int_ge_dump lo n : (lo <=? n) = true → v_int_ge P lo (JInt n) = Some n.
Proof.
  intros H. unfold v_int_ge. rewrite (lax_int_JInt P HP). simpl. by rewrite H.
Qed.

Lemma nullable_str_dump o : nullable (v_str P) (dump_option JStr o) = Some o.
Proof. destruct o; simpl; [|done]. by rewrite v_str_dump. Qed.

Lemma list_str_dump l : list_of (v_str P) (dump_str_list l) = Some l.
Proof.
  simpl. apply mapM_map_Some, Forall_forall. intros. apply v_str_dump.
Qed.

Lemma nullable_list_str_dump o :
  nullable (list_of (v_str P)) (dump_option dump_str_list o) = Some o.
Proof.
  destruct o as [l|]; [|done].
  change (nullable (list_of (v_str P)) (dump_option dump_str_list (Some l)))
    with (Some <$> list_of (v_str P) (dump_str_list l)).
  by rewrite (list_str_dump l).
Qed.

Lemma ModelDependencyRef_round_trip m :
  nonempty (mdr_key m) = true →
  ModelDependencyRef_validate P (ModelDependencyRef_dump m) = Some m.
Proof.
  intros H. unfold ModelDependencyRef_validate, ModelDependencyRef_dump.
  fields. rewrite (v_str1_dump _ H). fields.
  rewrite !nullable_str_dump. by destruct m.
Qed.

Lemma PromptDependencyRef_round_trip p :
  nonempty (pdr_key p) = true →
  PromptDependencyRef_validate P (PromptDependencyRef_dump p) = Some p.
Proof.
  intros H. unfold PromptDependencyRef_validate, PromptDependencyRef_dump.
  fields. rewrite (v_str1_dump _ H). fields.
  rewrite !nullable_str_dump. by destruct p.
Qed.

Lemma ComponentDependencyRef_round_trip c :
  nonempty (cdr_key c) = true →
  ComponentDependencyRef_validate P (ComponentDependencyRef_dump c) = Some c.
Proof.
  intros H. unfold ComponentDependencyRef_validate, ComponentDependencyRef_dump.
  fields. rewrite (v_str1_dump _ H). fields.
  rewrite v_str_dump. by destruct c.
Qed.

Lemma GraphDeps_round_trip d :
  GraphDeps_ok d = true → GraphDeps_validate P (GraphDeps_dump d) = Some d.
Proof.
  unfold GraphDeps_ok. rewrite !andb_true_iff. intros [[Hm Hp] Hc].
  unfold GraphDeps_validate, GraphDeps_dump. fields.
  rewrite (list_of_dump _ _ _ _ ModelDependencyRef_round_trip Hm). fields.
  rewrite (list_str_dump (tools d)). fields.
  rewrite (list_of_dump _ _ _ _ PromptDependencyRef_round_trip Hp). fields.
  rewrite (list_of_dump _ _ _ _ ComponentDependencyRef_round_trip Hc).
  by destruct d.
Qed.

Lemma GraphMetadata_round_trip m :
  GraphMetadata_validate P (GraphMetadata_dump m) = Some m.
Proof.
  unfold GraphMetadata_validate, GraphMetadata_dump. fields.
  rewrite !nullable_str_dump. fields.
  rewrite (list_str_dump (tags m)). by destruct m.
Qed.

Lemma StateFieldSchema_round_trip f :
  StateFieldSchema_validate P (StateFieldSchema_dump f) = Some f.
Proof.
  unfold StateFieldSchema_validate, StateFieldSchema_dump. fields.
  assert (StateFieldType_validate (JStr (StateFieldType_value (sfs_type f)))
          = Some (sfs_type f)) as -> by (by destruct (sfs_type f)).
  fields. rewrite nullable_str_dump. by destruct f.
Qed.

Lemma StateReducerType_round_trip r :
  StateReducerType_validate (JStr (StateReducerType_value r)) = Some r.
Proof. by destruct r. Qed.

Lemma GraphStateConfig_round_trip st :
  GraphStateConfig_validate P (GraphStateConfig_dump st) = Some st.
Proof.
  unfold GraphStateConfig_validate, GraphStateConfig_dump. fields.
  rewrite (dict_of_dump _ _ _ StateFieldSchema_round_trip). fields.
  rewrite (dict_of_dump _ _ _ StateReducerType_round_trip). by destruct st.
Qed.

Lemma GraphExecutionLimits_round_trip l :
  GraphExecutionLimits_ok l = true →
  GraphExecutionLimits_validate P (GraphExecutionLimits_dump l) = Some l.
Proof.
  unfold GraphExecutionLimits_ok. rewrite !andb_true_iff.
  intros [[[[[H1 H2] H3] H4] H5] H6].
  unfold GraphExecutionLimits_validate, GraphExecutionLimits_dump. fields.
  rewrite !v_int_range_dump by (by apply andb_true_iff).
  by destruct l.
Qed.

Lemma LLMNodeConfig_round_trip c :
  NodeConfig_ok (LLMGraphNode c) = true →
  LLMNodeConfig_validate P (LLMNodeConfig_dump c) = Some c.
Proof.
  simpl. rewrite andb_true_iff. intros [Ht Hi].
  unfold LLMNodeConfig_validate, LLMNodeConfig_dump. fields.
  rewrite !v_str_dump. fields.
  rewrite !nullable_str_dump. fields.
  assert (nullable (λ j, f ← lax_float P j; check (float_in_0_2 f);; Some f)
            (dump_option JFloat (temperature_override c))
          = Some (temperature_override c)) as ->.
  { destruct (temperature_override c) as [f|]; simpl in *; [|done].
    rewrite (lax_float_JFloat P HP). simpl. by rewrite Ht. }
  fields.
  assert (nullable (lax_int P) (dump_option JInt (max_tokens c))
          = Some (max_tokens c)) as ->.
  { destruct (max_tokens c); simpl; [|done]. by rewrite (lax_int_JInt P HP). }
  fields. rewrite (lax_bool_JBool P HP). fields.
  rewrite nullable_list_str_dump. fields.
  rewrite v_int_ge_dump by done. fields.
  by destruct c.
Qed.

Lemma ToolNodeConfig_round_trip c :
  NodeConfig_ok (ToolGraphNode c) = true →
  ToolNodeConfig_validate P (ToolNodeConfig_dump c) = Some c.
Proof.
  simpl. intros H.
  unfold ToolNodeConfig_validate, ToolNodeConfig_dump. fields.
  rewrite (lax_bool_JBool P HP). fields.
  rewrite nullable_list_str_dump. fields.
  rewrite v_str_dump. fields.
  rewrite v_int_range_dump by done. by destruct c.
Qed.

Lemma TransformNodeConfig_round_trip c :
  TransformNodeConfig_validate P (TransformNodeConfig_dump c) = Some c.
Proof.
  unfold TransformNodeConfig_validate, TransformNodeConfig_dump. fields.
  rewrite !v_str_dump. fields.
  rewrite list_str_dump. by destruct c.
Qed.

Lemma ComponentReference_round_trip r :
  nonempty (cr_key r) = true →
  ComponentReference_validate P (ComponentReference_dump r) = Some r.
Proof.
  intros H. unfold ComponentReference_validate, ComponentReference_dump.
  fields. rewrite v_str1_dump by done. fields.
  rewrite v_str_dump. by destruct r.
Qed.

Lemma ComponentNodeConfig_round_trip c :
  NodeConfig_ok (ComponentGraphNode c) = true →
  ComponentNodeConfig_validate P (ComponentNodeConfig_dump c) = Some c.
Proof.
  simpl. intros H.
  unfold ComponentNodeConfig_validate, ComponentNodeConfig_dump. fields.
  rewrite ComponentReference_round_trip by done. fields.
  rewrite dict_of_any. by destruct c.
Qed.

Lemma GraphNodeConfig_round_trip n :
  GraphNodeConfig_ok n = true →
  GraphNodeConfig_validate P (GraphNodeConfig_dump n) = Some n.
Proof.
  unfold GraphNodeConfig_ok. rewrite !andb_true_iff. intros [[Hi Hn] Hc].
  unfold GraphNodeConfig_validate, GraphNodeConfig_dump. fields.
  assert (enum_of [LLM; TOOL; TRANSFORM; COMPONENT] GraphNodeKind_value
            (JStr (GraphNodeKind_value (kind n))) = Some (kind n)) as ->
    by (by destruct (kind n)).
  fields. rewrite !v_str1_dump by done. fields.
  rewrite nullable_str_dump. fields.
  rewrite !list_str_dump. fields.
  assert (NodeConfig_validate P (kind n) (NodeConfig_dump (config n))
          = Some (config n)) as ->.
  { unfold kind. destruct (config n) as [c|c|c|c]; simpl.
    - by rewrite LLMNodeConfig_round_trip.
    - by rewrite ToolNodeConfig_round_trip.
    - by rewrite TransformNodeConfig_round_trip.
    - by rewrite ComponentNodeConfig_round_trip. }
  by destruct n.
Qed.

Lemma EdgePredicate_round_trip p :
  nonempty (state_path p) = true →
  EdgePredicate_validate P (EdgePredicate_dump p) = Some p.
Proof.
  intros H. unfold EdgePredicate_validate, EdgePredicate_dump. fields.
  rewrite v_str1_dump by done. fields.
  assert (PredicateOperator_validate
            (JStr (PredicateOperator_value (operator p))) = Some (operator p))
    as -> by (by destruct (operator p)).
  by destruct p.
Qed.

Lemma EdgeWhen_round_trip w :
  EdgeWhen_ok w = true → EdgeWhen_validate P (EdgeWhen_dump w) = Some w.
Proof.
  destruct w as [|c|p]; simpl; intros H; [done|by destruct c|].
  change (EdgeWhen_validate P (EdgePredicate_dump p))
    with (WhenPredicate <$> EdgePredicate_validate P (EdgePredicate_dump p)).
  by rewrite EdgePredicate_round_trip.
Qed.

Lemma GraphEdgeConfig_round_trip e :
  GraphEdgeConfig_ok e = true →
  GraphEdgeConfig_validate P (GraphEdgeConfig_dump e) = Some e.
Proof.
  unfold GraphEdgeConfig_ok. rewrite !andb_true_iff. intros [[Hf Ht] Hw].
  unfold GraphEdgeConfig_validate, GraphEdgeConfig_dump. fields.
  rewrite !v_str1_dump by done. fields.
  rewrite EdgeWhen_round_trip by done. fields.
  rewrite (lax_int_JInt P HP). fields.
  rewrite nullable_str_dump. by destruct e.
Qed.

Lemma GraphIR_round_trip g :
  GraphIR_ok g = true → GraphIR_validate P (GraphIR_dump g) = Some g.
Proof.
  unfold GraphIR_ok. rewrite !andb_true_iff. intros [[[Hn He] Hl] Hd].
  unfold GraphIR_validate, GraphIR_dump. fields.
  rewrite (list_of_dump _ _ _ _ GraphNodeConfig_round_trip Hn). fields.
  rewrite (list_of_dump _ _ _ _ GraphEdgeConfig_round_trip He). fields.
  rewrite list_str_dump. fields. rewrite Hl. fields.
  unfold _validate_entrypoints_unique.
  apply bool_decide_eq_true in Hd.
  rewrite bool_decide_true by (by apply size_list_to_set).
  by destruct g.
Qed.

Lemma GraphConfig_round_trip c :
  GraphConfig_ok P c → GraphConfig_validate P (GraphConfig_dump c) = Some c.
Proof.
  intros (Hv & Hk & Hr & Hg & Hd & Hl & Hp).
  unfold GraphConfig_validate, GraphConfig_dump, GraphConfig_items. fields.
  rewrite Hv. fields.
  rewrite v_str1_dump by done. fields.
  rewrite v_int_ge_dump by (by apply Z.leb_le). fields.
  rewrite GraphIR_round_trip by done. fields.
  rewrite GraphStateConfig_round_trip. fields.
  assert (nullable (GraphDeps_validate P) (dump_option GraphDeps_dump (deps c))
          = Some (deps c)) as ->.
  { destruct (deps c) as [d|]; simpl in *; [|done].
    change (nullable (GraphDeps_validate P) (GraphDeps_dump d))
      with (Some <$> GraphDeps_validate P (GraphDeps_dump d)).
    by rewrite GraphDeps_round_trip. }
  fields. rewrite GraphExecutionLimits_round_trip by done. fields.
  assert (nullable (PromptConfig_validate P)
            (dump_option (λ p, p) (prompt_config c))
          = Some (prompt_config c)) as ->.
  { destruct (prompt_config c) as [p|] eqn:Ep; simpl; [|done].
    specialize (Hp p eq_refl).
    destruct p; simpl; rewrite ?Hp; try done.
    by rewrite (PromptConfig_validate_null P HP) in Hp. }
  fields.
  assert (nullable (GraphMetadata_validate P)
            (dump_option GraphMetadata_dump (metadata c))
          = Some (metadata c)) as ->.
  { destruct (metadata c) as [m|]; simpl; [|done].
    change (nullable (GraphMetadata_validate P) (GraphMetadata_dump m))
      with (Some <$> GraphMetadata_validate P (GraphMetadata_dump m)).
    by rewrite GraphMetadata_round_trip. }
  fields.
  assert (nullable (dict_of any) (dump_option JDict (ui c)) = Some (ui c)) as ->.
  { destruct (ui c) as [u|]; [|done].
    change (nullable (dict_of any) (dump_option JDict (Some u)))
      with (Some <$> dict_of any (JDict u)).
    by rewrite dict_of_any. }
  destruct c; simpl in *. by subst.
Qed.
End RoundTrip.

(** *** What validation guarantees *)

Section Sound.
Context (P : Pydantic).

Lemma v_str1_sound j s : v_str1 P j = Some s → nonempty s = true.
Proof.
  unfold v_str1, check. intros H.
  destruct (lax_str P j) as [s'|]; simpl in H; [|done].
  destruct (nonempty s') eqn:E; simpl in H; [|done]. by injection H as <-.
Qed.

Lemma v_int_range_sound lo hi j n :
  v_int_range P lo hi j = Some n → (lo <=? n) && (n <=? hi) = true.
Proof.
  unfold v_int_range, check. intros H.
  destruct (lax_int P j) as [n'|]; simpl in H; [|done].
  destruct ((lo <=? n') && (n' <=? hi)) eqn:E; simpl in H; [|done].
  by injection H as <-.
Qed.

Lemma v_int_ge_sound lo j n : v_int_ge P lo j = Some n → (lo <=? n) = true.
Proof.
  unfold v_int_ge, check. intros H.
  destruct (lax_int P j) as [n'|]; simpl in H; [|done].
  destruct (lo <=? n') eqn:E; simpl in H; [|done]. by injection H as <-.
Qed.

Lemma list_of_sound {A : Type} (v : json → option A) (ok : A → bool) j l :
  (∀ j a, v j = Some a → ok a = true) →
  list_of v j = Some l → forallb ok l = true.
Proof.
  intros Hv. destruct j as [| | | | |js|]; simpl; try done.
  revert l. induction js as [|j js IH]; simpl; intros l.
  - by intros [= <-].
  - destruct (v j) as [a|] eqn:Ea; simpl; [|done].
    destruct (mapM v js) as [l'|]; simpl; [|done].
    intros [= <-]. simpl. rewrite (Hv _ _ Ea). by rewrite IH.
Qed.

Lemma defaulted_sound {A : Type} (ok : A → bool) items name default
    (v : json → option A) a :
  ok default = true → (∀ j a, v j = Some a → ok a = true) →
  defaulted items name default v = Some a → ok a = true.
Proof.
  intros Hd Hv. unfold defaulted. destruct (dict_get name items).
  - apply Hv.
  - by intros [= <-].
Qed.

Lemma GraphExecutionLimits_validate_sound j l :
  GraphExecutionLimits_validate P j = Some l → GraphExecutionLimits_ok l = true.
Proof.
  unfold GraphExecutionLimits_validate. intros H.
  destruct (model_fields _ j) as [items|]; simpl in H; [|done].
  destruct (defaulted items "max_time_s" _ _) as [t|] eqn:Et; simpl in H;
    [|done].
  destruct (defaulted items "max_steps" _ _) as [st|] eqn:Est; simpl in H;
    [|done].
  destruct (defaulted items "max_concurrency" _ _) as [c|] eqn:Ec; simpl in H;
    [|done].
  injection H as <-. unfold GraphExecutionLimits_ok; simpl.
  apply (defaulted_sound (λ n, (1 <=? n) && (n <=? 3600))) in Et;
    [|done|apply v_int_range_sound].
  apply (defaulted_sound (λ n, (1 <=? n) && (n <=? 100000))) in Est;
    [|done|apply v_int_range_sound].
  apply (defaulted_sound (λ n, (1 <=? n) && (n <=? 256))) in Ec;
    [|done|apply v_int_range_sound].
  apply andb_true_iff in Et as [-> ->], Est as [-> ->], Ec as [-> ->]. done.
Qed.

Ltac bind_inv H :=
  match type of H with
  | (?m ≫= _) = Some _ =>
      let E := fresh "E" in
      destruct m eqn:E; cbn [mbind option_bind] in H; [|discriminate H]
  end.

Lemma parse_graph_config_limits j c :
  parse_graph_config P j = Some c →
  GraphExecutionLimits_ok (limits c) = true.
Proof.
  unfold parse_graph_config, GraphConfig_validate. intros H.
  repeat bind_inv H. injection H as <-. simpl.
  match goal with
  | E : defaulted _ "limits" _ _ = Some ?l |- _ =>
      apply (defaulted_sound GraphExecutionLimits_ok) in E;
        [|done|apply GraphExecutionLimits_validate_sound]
  end.
  done.
Qed.

End Sound.

End Schema.

(** ** Values used in the examples *)

Module Fixtures.
Import Json Schema.

Definition llm_node (id name prompt : string) : GraphNodeConfig :=
  {| node_id := id; node_name := name; node_description := None;
     reads := []; writes := [];
     config := LLMGraphNode
       {| prompt_template := prompt; llm_output_key := "response";
          model_override := None; temperature_override := None;
          max_tokens := None; tools_enabled := false;
          llm_tool_filter := None; max_iterations := 10;
          message_key := None |} |}.

Definition edge (src dst : string) (prio : Z) : GraphEdgeConfig :=
  {| from_node := src; to_node := dst; when := WhenNone; priority := prio;
     label := None |}.

Definition guarded_edge (src dst : string) (c : BuiltinEdgeCondition)
    : GraphEdgeConfig :=
  {| from_node := src; to_node := dst; when := WhenBuiltin c; priority := 0;
     label := None |}.

Definition config_of (nodes : list GraphNodeConfig)
    (edges : list GraphEdgeConfig) (entrypoints : list string)
    (max_steps max_time_s : Z) : GraphConfig :=
  {| schema_version := "3.0"; key := "test_agent"; revision := 1;
     graph := {| nodes := nodes; edges := edges; entrypoints := entrypoints |};
     state := {| state_schema := []; reducers := [] |};
     deps := None;
     limits := {| max_time_s := max_time_s; max_steps := max_steps;
                  max_concurrency := 10 |};
     prompt_config := None; metadata := None; ui := None |}.

Definition no_floats (f : float) : string := "0.0".

End Fixtures.

(** ** Canonicalization ([app/agents/graph/canonicalizer.py]) *)

Module Canonicalizer.
Import Json Schema Fixtures.

(** The key of an edge is a Python tuple of a string, an integer and five
    strings; tuples compare lexicographically. *)
Definition EdgeSortKey : Type :=
  string * Z * string * string * string * string * string.

Definition compare_edge_keys : EdgeSortKey → EdgeSortKey → comparison :=
  Py.compare_pair
    (Py.compare_pair
       (Py.compare_pair
          (Py.compare_pair
             (Py.compare_pair
                (Py.compare_pair String.compare Z.compare)
                String.compare)
             String.compare)
          String.compare)
       String.compare)
    String.compare.

Section Canonicalize.
Context (float_repr : float → string).

Definition _edge_when_sort_key (when : EdgeWhen)
    : string * string * string * string :=
  match when with
  | WhenNone => ("0", "", "", "")
  | WhenBuiltin c => ("1", BuiltinEdgeCondition_value c, "", "")
  | WhenPredicate p =>
      ("2", state_path p, PredicateOperator_value (operator p),
       json_dumps float_repr (value p))
  end.

Definition _edge_sort_key (edge : GraphEdgeConfig) : EdgeSortKey :=
  let '(when_type, when_path, when_operator, when_value) :=
    _edge_when_sort_key (when edge) in
  (from_node edge, - priority edge, when_type, when_path, when_operator,
   when_value, to_node edge).

(** [model.model_validate(model.model_dump())] on an optional section.  The
    dump of a typed value has leaves of the declared types, so no lax
    conversion takes part (lemmas [normalize_deps_valid] and
    [normalize_metadata] below). *)
Definition normalize {A : Type} (dump : A → json) (validate : json → option A)
    (section : option A) : option (option A) :=
  match section with
  | None => Some None
  | Some a => Some <$> validate (dump a)
  end.

Definition canonicalize_graph_config (config : GraphConfig)
    : option GraphConfig :=
  let nodes := Py.sorted String.compare node_id (nodes (graph config)) in
  let edges := Py.sorted compare_edge_keys _edge_sort_key (edges (graph config)) in
  let entrypoints :=
    Py.sorted String.compare (λ e, e) (entrypoints (graph config)) in
  let canonical_graph :=
    {| nodes := nodes; edges := edges; entrypoints := entrypoints |} in
  normalized_deps ←
    normalize GraphDeps_dump (GraphDeps_validate strict) (deps config);
  normalized_metadata ←
    normalize GraphMetadata_dump (GraphMetadata_validate strict)
      (metadata config);
  Some {| schema_version := schema_version config;
          key := key config;
          revision := revision config;
          graph := canonical_graph;
          state := state config;
          deps := normalized_deps;
          limits := limits config;
          prompt_config := prompt_config config;
          metadata := normalized_metadata;
          ui := ui config |}.

(** [parse_and_canonicalize_graph_config]. *)
Definition parse_and_canonicalize_graph_config (P : Pydantic) (raw_config : json)
    : option GraphConfig :=
  parsed ← parse_graph_config P raw_config;
  canonicalize_graph_config parsed.

(** *** Properties of the canonical form *)

Lemma normalize_valid {A : Type} (dump : A → json) (validate : json → option A)
    (ok : A → bool) (section : option A) :
  (∀ a, ok a = true → validate (dump a) = Some a) →
  from_option ok true section = true →
  normalize dump validate section = Some section.
Proof.
  intros Hrt Hok. destruct section as [a|]; simpl in *; [|done].
  by rewrite (Hrt a Hok).
Qed.

Lemma normalize_deps_valid d :
  from_option GraphDeps_ok true d = true →
  normalize GraphDeps_dump (GraphDeps_validate strict) d = Some d.
Proof.
  apply normalize_valid. apply GraphDeps_round_trip, strict_laws.
Qed.

Lemma normalize_metadata m :
  normalize GraphMetadata_dump (GraphMetadata_validate strict) m = Some m.
Proof.
  apply (normalize_valid _ _ (λ _, true)); [|by destruct m].
  intros a _. apply GraphMetadata_round_trip, strict_laws.
Qed.

(** The canonical form of a configuration whose optional sections satisfy
    the schema. *)
Lemma canonicalize_valid config :
  from_option GraphDeps_ok true (deps config) = true →
  canonicalize_graph_config config =
  Some {| schema_version := schema_version config;
          key := key config;
          revision := revision config;
          graph :=
            {| nodes := Py.sorted String.compare node_id (nodes (graph config));
               edges := Py.sorted compare_edge_keys _edge_sort_key
                          (edges (graph config));
               entrypoints := Py.sorted String.compare (λ e, e)
                                (entrypoints (graph config)) |};
          state := state config;
          deps := deps config;
          limits := limits config;
          prompt_config := prompt_config config;
          metadata := metadata config;
          ui := ui config |}.
Proof.
  intros Hd. unfold canonicalize_graph_config.
  by rewrite (normalize_deps_valid _ Hd), normalize_metadata.
Qed.

End Canonicalize.

(** The configuration of [test_canonicalizer_sorts_nodes_edges_and_entrypoints]
    as the parser builds it, and its canonical form. *)

Definition ordering_test : GraphConfig :=
  {| schema_version := "3.0"; key := "ordering_test"; revision := 3;
     graph :=
       {| nodes := [llm_node "z_entry" "Z Entry" "z";
                    llm_node "a_entry" "A Entry" "a"];
          edges := [edge "z_entry" "END" 0; edge "a_entry" "END" 10;
                    edge "a_entry" "z_entry" 0];
          entrypoints := ["z_entry"; "a_entry"] |};
     state := {| state_schema := []; reducers := [] |};
     deps := None;
     limits := {| max_time_s := 300; max_steps := 64; max_concurrency := 10 |};
     prompt_config := None; metadata := None; ui := None |}.

Definition ordering_test_canonical : GraphConfig :=
  {| schema_version := "3.0"; key := "ordering_test"; revision := 3;
     graph :=
       {| nodes := [llm_node "a_entry" "A Entry" "a";
                    llm_node "z_entry" "Z Entry" "z"];
          edges := [edge "a_entry" "END" 10; edge "a_entry" "z_entry" 0;
                    edge "z_entry" "END" 0];
          entrypoints := ["a_entry"; "z_entry"] |};
     state := {| state_schema := []; reducers := [] |};
     deps := None;
     limits := {| max_time_s := 300; max_steps := 64; max_concurrency := 10 |};
     prompt_config := None; metadata := None; ui := None |}.

Example canonicalize_ordering_test :
  canonicalize_graph_config no_floats ordering_test
  = Some ordering_test_canonical.
Proof. reflexivity. Qed.

Lemma ordering_test_ok : GraphConfig_ok strict ordering_test.
Proof. repeat split; try reflexivity; try done. Qed.

(** C1.  For every configuration that satisfies the schema, canonicalization
    succeeds and canonicalizing its result gives that result again: the same
    nodes, edges and entrypoints in the same order, and the same normalized
    [deps] and [metadata]. *)
Theorem canonicalize_idempotent (float_repr : float → string) (P : Pydantic)
    (config : GraphConfig) :
  GraphConfig_ok P config →
  ∃ canonical,
    canonicalize_graph_config float_repr config = Some canonical
    ∧ canonicalize_graph_config float_repr canonical = Some canonical.
Proof.
  intros (_ & _ & _ & _ & Hdeps & _).
  eexists. split; [by apply canonicalize_valid|].
  rewrite canonicalize_valid by done. simpl.
  by rewrite !Py.sorted_idempotent by apply _.
Qed.

Lemma canonicalize_idempotent_witness :
  ∃ canonical,
    canonicalize_graph_config no_floats ordering_test = Some canonical
    ∧ canonicalize_graph_config no_floats canonical = Some canonical.
Proof.
  apply (canonicalize_idempotent no_floats strict ordering_test).
  repeat split; try reflexivity; try done.
Defined.

(** *** The sorted-key JSON text of a value

    What the specification calls the sorted-key JSON of a value, stated
    without the encoder: the text of a list has the texts of its items in
    their order; the text of a dict has one member, the key and the text of
    the value, for each item, and the members stand in ascending order of
    their keys. *)

Definition member_text (member : string * string) : string :=
  encode_string member.1 ++ ": " ++ member.2.

Definition keys_ascending (a b : string * string) : Prop :=
  String.compare a.1 b.1 ≠ Gt.

Section SortedKeyJson.
Context (float_repr : float → string).

#[warnings="-register-all"]
Inductive sorted_key_json : json → string → Prop :=
  | skj_null : sorted_key_json JNull "null"
  | skj_true : sorted_key_json (JBool true) "true"
  | skj_false : sorted_key_json (JBool false) "false"
  | skj_int n : sorted_key_json (JInt n) (Py.str_of_Z n)
  | skj_float x : sorted_key_json (JFloat x) (float_repr x)
  | skj_str s : sorted_key_json (JStr s) (encode_string s)
  | skj_list js texts :
      Forall2 sorted_key_json js texts →
      sorted_key_json (JList js) ("[" ++ Py.join ", " texts ++ "]")
  | skj_dict items members ordered :
      Forall2 (λ item member,
                 member.1 = item.1 ∧ sorted_key_json item.2 member.2)
        items members →
      ordered ≡ₚ members →
      StronglySorted keys_ascending ordered →
      sorted_key_json (JDict items)
        ("{" ++ Py.join ", " (map member_text ordered) ++ "}").

(** A value all of whose dicts have distinct keys, as every Python dict
    has. *)
#[warnings="-register-all"]
Inductive distinct_keys : json → Prop :=
  | distinct_null : distinct_keys JNull
  | distinct_bool b : distinct_keys (JBool b)
  | distinct_int n : distinct_keys (JInt n)
  | distinct_float x : distinct_keys (JFloat x)
  | distinct_str s : distinct_keys (JStr s)
  | distinct_list js : Forall distinct_keys js → distinct_keys (JList js)
  | distinct_dict items :
      NoDup (dict_keys items) →
      Forall (λ item, distinct_keys item.2) items →
      distinct_keys (JDict items).

Lemma json_values_ind (P : json → Prop) :
  P JNull → (∀ b, P (JBool b)) → (∀ n, P (JInt n)) → (∀ x, P (JFloat x)) →
  (∀ s, P (JStr s)) →
  (∀ js, Forall P js → P (JList js)) →
  (∀ items, Forall (λ item, P item.2) items → P (JDict items)) →
  ∀ j, P j.
Proof.
  intros HN HB HI HF HS HL HD. fix IH 1. intros [|b|n|x|s|js|items].
  - exact HN.
  - apply HB.
  - apply HI.
  - apply HF.
  - apply HS.
  - apply HL. revert js. fix IHjs 1.
    intros [|j js]; constructor; [apply IH|apply IHjs].
  - apply HD. revert items. fix IHitems 1.
    intros [|[k j] items]; constructor; [apply IH|apply IHitems].
Qed.

(** The members of a dict as the encoder renders them, in item order. *)
Definition rendered (items : list (string * json)) : list (string * string) :=
  map (λ kv, (kv.1, json_dumps float_repr kv.2)) items.

Lemma json_dumps_list js :
  json_dumps float_repr (JList js)
  = "[" ++ Py.join ", " (map (json_dumps float_repr) js) ++ "]".
Proof. reflexivity. Qed.

Lemma json_dumps_dict items :
  json_dumps float_repr (JDict items)
  = "{" ++ Py.join ", "
             (map member_text (Py.sorted String.compare fst (rendered items)))
    ++ "}".
Proof. reflexivity. Qed.

(** The encoder produces the sorted-key JSON text. *)
Lemma json_dumps_sorted_key_json j :
  sorted_key_json j (json_dumps float_repr j).
Proof.
  induction j as [|b|n|x|s|js IH|items IH] using json_values_ind.
  - constructor.
  - destruct b; constructor.
  - constructor.
  - constructor.
  - constructor.
  - rewrite json_dumps_list. constructor.
    induction IH as [|j js Hj _ IHjs]; cbn [map]; by constructor.
  - rewrite json_dumps_dict.
    apply skj_dict with (rendered items).
    + unfold rendered.
      induction IH as [|item items Hitem _ IHitems]; cbn [map];
        by constructor.
    + apply Py.sorted_perm.
    + apply (Py.sorted_StronglySorted String.compare fst).
Qed.

(** Members in ascending order of distinct keys are in one order only. *)
Lemma ascending_unique (l1 l2 : list (string * string)) :
  StronglySorted keys_ascending l1 →
  StronglySorted keys_ascending l2 →
  l1 ≡ₚ l2 →
  NoDup (map fst l1) →
  l1 = l2.
Proof.
  intros H1. revert l2.
  induction H1 as [|x l1 Hl1 IH Hx]; intros l2 H2 Hp Hnd.
  { by apply Permutation_nil_l in Hp. }
  destruct H2 as [|y l2 Hl2 Hy].
  { by apply Permutation_nil_r in Hp. }
  cbn [map] in Hnd. apply NoDup_cons in Hnd as [Hfresh Hnd].
  assert (x = y) as <-.
  { assert (x ∈ y :: l2) as Hxin by (rewrite <- Hp; left).
    assert (y ∈ x :: l1) as Hyin by (rewrite Hp; left).
    apply elem_of_cons in Hxin as [?|Hxin]; [done|].
    apply elem_of_cons in Hyin as [?|Hyin]; [done|].
    exfalso. apply Hfresh.
    rewrite Forall_forall in Hx. rewrite Forall_forall in Hy.
    pose proof (Hx y Hyin) as Hxy. pose proof (Hy x Hxin) as Hyx.
    unfold keys_ascending in Hxy, Hyx.
    rewrite String.compare_antisym in Hyx.
    assert (x.1 = y.1) as ->.
    { apply String.compare_eq_iff.
      by destruct (String.compare x.1 y.1). }
    apply list_elem_of_fmap. by exists y. }
  f_equal. apply IH; [done|by eapply Permutation_cons_inv|done].
Qed.

(** For a value whose dicts have distinct keys, the text of the encoder is
    the only sorted-key JSON text. *)
Lemma sorted_key_json_unique j text :
  distinct_keys j → sorted_key_json j text → text = json_dumps float_repr j.
Proof.
  revert text.
  induction j as [|b|n|x|s|js IH|items IH] using json_values_ind;
    intros text Hdistinct Htext.
  - by inversion Htext.
  - by inversion Htext.
  - by inversion Htext.
  - by inversion Htext.
  - by inversion Htext.
  - inversion Htext as [| | | | | |js' texts Htexts|]; subst.
    inversion Hdistinct as [| | | | |js' Hall|]; subst.
    rewrite json_dumps_list. do 3 f_equal.
    clear Htext Hdistinct. revert texts Htexts.
    induction IH as [|j js Hj _ IHjs]; intros texts Htexts;
      inversion Htexts as [|? text ? texts' Hhead Htail]; subst; [done|].
    apply Forall_cons in Hall as [Hdj Hall]. cbn [map].
    f_equal; [by apply Hj|by apply IHjs].
  - inversion Htext as [| | | | | | |items' members ordered Hm Hp Hs]; subst.
    inversion Hdistinct as [| | | | | |items' Hnd Hall]; subst.
    rewrite json_dumps_dict. do 4 f_equal.
    assert (members = rendered items) as ->.
    { clear Htext Hdistinct Hp Hnd. revert members Hm.
      induction IH as [|item items Hitem _ IHitems]; intros members Hm;
        inversion Hm as [|? member ? members' [Hkey Hhead] Htail]; subst;
        [done|].
      apply Forall_cons in Hall as [Hditem Hall]. cbn [rendered map].
      f_equal; [|by apply IHitems].
      destruct member as [k t]. cbn in Hkey |- *. subst k.
      f_equal. by apply Hitem. }
    apply ascending_unique; [done| |by rewrite Py.sorted_perm|].
    + apply (Py.sorted_StronglySorted String.compare fst).
    + rewrite Hp. unfold rendered. rewrite map_map. cbn [fst]. exact Hnd.
Qed.

End SortedKeyJson.

(** C5.  The edges of the canonical form are the edges of the input, stably
    sorted by the key [(from_node, -priority, when_type_tag, when_path,
    when_operator, when_value_json, to_node)], compared as a tuple.  The tag
    is ["0"] without a guard, with three empty strings after it, ["1"] for a
    built-in condition, whose name is [when_path], and ["2"] for a
    predicate, with its state path and the name of its operator; there
    [when_value_json] is a sorted-key JSON text of the value of the
    predicate, the only one when the dicts of the value have distinct keys.
    The nodes are sorted by [id] and the entrypoints as strings. *)
Theorem canonicalize_sort_keys (float_repr : float → string)
    (config canonical : GraphConfig) :
  canonicalize_graph_config float_repr config = Some canonical →
  let edge_key := _edge_sort_key float_repr in
  (∀ e, ∃ when_type_tag when_path when_operator when_value_json,
        edge_key e
        = (from_node e, - priority e, when_type_tag, when_path, when_operator,
           when_value_json, to_node e)
        ∧ match when e with
          | WhenNone =>
              when_type_tag = "0" ∧ when_path = "" ∧ when_operator = ""
              ∧ when_value_json = ""
          | WhenBuiltin c =>
              when_type_tag = "1" ∧ when_path = BuiltinEdgeCondition_value c
              ∧ when_operator = "" ∧ when_value_json = ""
          | WhenPredicate p =>
              when_type_tag = "2" ∧ when_path = state_path p
              ∧ when_operator = PredicateOperator_value (operator p)
              ∧ sorted_key_json float_repr (value p) when_value_json
              ∧ (distinct_keys (value p) →
                 ∀ text, sorted_key_json float_repr (value p) text →
                         text = when_value_json)
          end)
  ∧ StronglySorted (Py.key_le compare_edge_keys edge_key)
      (edges (graph canonical))
  ∧ edges (graph canonical) ≡ₚ edges (graph config)
  ∧ (∀ k, filter (λ e, compare_edge_keys (edge_key e) k = Eq)
            (edges (graph canonical))
          = filter (λ e, compare_edge_keys (edge_key e) k = Eq)
              (edges (graph config)))
  ∧ StronglySorted (Py.key_le String.compare node_id) (nodes (graph canonical))
  ∧ nodes (graph canonical) ≡ₚ nodes (graph config)
  ∧ StronglySorted (Py.key_le String.compare (λ e, e))
      (entrypoints (graph canonical))
  ∧ entrypoints (graph canonical) ≡ₚ entrypoints (graph config).
Proof.
  unfold canonicalize_graph_config. intros H.
  destruct (normalize GraphDeps_dump _ _) as [d|]; simpl in H; [|done].
  destruct (normalize GraphMetadata_dump _ _) as [m|]; simpl in H; [|done].
  injection H as <-. cbn [graph edges nodes entrypoints].
  split.
  { intros [src dst guard prio lbl]. unfold _edge_sort_key.
    cbn [when from_node to_node priority].
    destruct guard as [|c|p]; cbn [_edge_when_sort_key].
    - by eexists _, _, _, _.
    - by eexists _, _, _, _.
    - eexists _, _, _, _. split; [reflexivity|].
      split; [done|]. split; [done|]. split; [done|].
      split; [apply json_dumps_sorted_key_json|].
      intros Hdistinct text. by apply sorted_key_json_unique. }
  split; [apply Py.sorted_StronglySorted, _|].
  split; [apply Py.sorted_perm|].
  split; [intros k; apply Py.sorted_stable, _|].
  split; [apply Py.sorted_StronglySorted, _|].
  split; [apply Py.sorted_perm|].
  split; [apply Py.sorted_StronglySorted, _|].
  apply Py.sorted_perm.
Qed.

(** Two edges that differ in the value of their predicate only.  The dict
    of the first starts with the key [b]; in the key of the edge its text
    starts with the key [a]. *)
Definition routed_edge (dst : string) (route : json) : GraphEdgeConfig :=
  {| from_node := "router"; to_node := dst;
     when := WhenPredicate
               {| state_path := "route"; operator := EQUALS; value := route |};
     priority := 0; label := None |}.

Definition b_then_a : json := JDict [("b", JInt 1); ("a", JInt 2)].
Definition a_then_b : json := JDict [("a", JInt 3); ("b", JInt 0)].

Definition predicate_test : GraphConfig :=
  {| schema_version := "3.0"; key := "predicate_test"; revision := 1;
     graph :=
       {| nodes := [llm_node "router" "Router" "r"; llm_node "left" "Left" "l";
                    llm_node "right" "Right" "r"];
          edges := [routed_edge "right" a_then_b; routed_edge "left" b_then_a;
                    edge "left" "END" 0; edge "right" "END" 0];
          entrypoints := ["router"] |};
     state := {| state_schema := []; reducers := [] |};
     deps := None;
     limits := {| max_time_s := 300; max_steps := 64; max_concurrency := 10 |};
     prompt_config := None; metadata := None; ui := None |}.

Definition predicate_test_canonical : GraphConfig :=
  {| schema_version := "3.0"; key := "predicate_test"; revision := 1;
     graph :=
       {| nodes := [llm_node "left" "Left" "l"; llm_node "right" "Right" "r";
                    llm_node "router" "Router" "r"];
          edges := [edge "left" "END" 0; edge "right" "END" 0;
                    routed_edge "left" b_then_a; routed_edge "right" a_then_b];
          entrypoints := ["router"] |};
     state := {| state_schema := []; reducers := [] |};
     deps := None;
     limits := {| max_time_s := 300; max_steps := 64; max_concurrency := 10 |};
     prompt_config := None; metadata := None; ui := None |}.

(** The keys of the two edges, and the order that they give. *)
Example canonicalize_predicate_test :
  _edge_sort_key no_floats (routed_edge "left" b_then_a)
  = ("router", 0, "2", "route", "eq",
     "{" ++ double_quote ++ "a" ++ double_quote ++ ": 2, "
     ++ double_quote ++ "b" ++ double_quote ++ ": 1}", "left")
  ∧ _edge_sort_key no_floats (routed_edge "right" a_then_b)
    = ("router", 0, "2", "route", "eq",
       "{" ++ double_quote ++ "a" ++ double_quote ++ ": 3, "
       ++ double_quote ++ "b" ++ double_quote ++ ": 0}", "right")
  ∧ canonicalize_graph_config no_floats predicate_test
    = Some predicate_test_canonical.
Proof. split; [reflexivity|]. split; reflexivity. Qed.

Lemma canonicalize_sort_keys_witness :
  (∃ when_value_json,
     _edge_sort_key no_floats (routed_edge "left" b_then_a)
     = ("router", 0, "2", "route", "eq", when_value_json, "left")
     ∧ sorted_key_json no_floats b_then_a when_value_json
     ∧ ∀ text, sorted_key_json no_floats b_then_a text → text = when_value_json)
  ∧ StronglySorted (Py.key_le compare_edge_keys (_edge_sort_key no_floats))
      (edges (graph predicate_test_canonical))
  ∧ edges (graph predicate_test_canonical) ≡ₚ edges (graph predicate_test).
Proof.
  pose proof (canonicalize_sort_keys no_floats predicate_test
                predicate_test_canonical eq_refl) as (Hkey & H1 & H2 & _).
  split; [|exact (conj H1 H2)].
  destruct (Hkey (routed_edge "left" b_then_a))
    as (tag & path & op & when_value_json & Heq & Hwhen).
  cbn [when routed_edge] in Hwhen.
  destruct Hwhen as (-> & -> & -> & Htext & Hunique).
  exists when_value_json. split; [exact Heq|]. split; [exact Htext|].
  apply Hunique. constructor.
  - apply (bool_decide_unpack _). reflexivity.
  - repeat constructor.
Defined.

(** C10.  Canonicalization only reorders: the nodes, edges and entrypoints
    of the result are permutations of those of the input; [schema_version],
    [key], [revision], [state], [limits], [prompt_config] and [ui] are the
    input's; [deps] and [metadata] are the input's sections validated again
    from their dumps. *)
Theorem canonicalize_only_reorders (float_repr : float → string)
    (config canonical : GraphConfig) :
  canonicalize_graph_config float_repr config = Some canonical →
  nodes (graph canonical) ≡ₚ nodes (graph config)
  ∧ edges (graph canonical) ≡ₚ edges (graph config)
  ∧ entrypoints (graph canonical) ≡ₚ entrypoints (graph config)
  ∧ schema_version canonical = schema_version config
  ∧ key canonical = key config
  ∧ revision canonical = revision config
  ∧ state canonical = state config
  ∧ limits canonical = limits config
  ∧ prompt_config canonical = prompt_config config
  ∧ ui canonical = ui config
  ∧ normalize GraphDeps_dump (GraphDeps_validate strict) (deps config)
    = Some (deps canonical)
  ∧ normalize GraphMetadata_dump (GraphMetadata_validate strict)
      (metadata config)
    = Some (metadata canonical).
Proof.
  unfold canonicalize_graph_config. intros H.
  destruct (normalize GraphDeps_dump _ _) as [d|]; simpl in H; [|done].
  destruct (normalize GraphMetadata_dump _ _) as [m|]; simpl in H; [|done].
  injection H as <-. simpl.
  repeat split; try done; apply Py.sorted_perm.
Qed.

Lemma canonicalize_only_reorders_witness :
  nodes (graph ordering_test_canonical) ≡ₚ nodes (graph ordering_test)
  ∧ edges (graph ordering_test_canonical) ≡ₚ edges (graph ordering_test).
Proof.
  pose proof (canonicalize_only_reorders no_floats ordering_test
                ordering_test_canonical eq_refl) as (H1 & H2 & _).
  exact (conj H1 H2).
Defined.

End Canonicalizer.

(** ** Structural validation ([app/agents/graph/validator.py]) *)

Module Validator.
Import Json Schema Fixtures.

Definition _BUILTIN_STATE_PATHS : gset string :=
  {[ "messages"; "execution_context" ]}.

Record GraphConfigValidationError := {
  code : string;
  path : string;
  message : string
}.

(** [dict[str, set[str]]]: the successors of every node id. *)
Abbreviation Adjacency := (gmap string (gset string)).

Definition _build_adjacency (edges : list GraphEdgeConfig)
    (node_ids : gset string) : Adjacency :=
  foldl (λ adjacency edge,
           if decide (from_node edge ∈ node_ids ∧ to_node edge ∈ node_ids)
           then alter (λ targets, targets ∪ {[ to_node edge ]})
                  (from_node edge) adjacency
           else adjacency)
        (gset_to_gmap ∅ node_ids) edges.

(** [adjacency.get(node, set())]. *)
Definition successors (adjacency : Adjacency) (node : string) : gset string :=
  default ∅ (adjacency !! node).

(** *** [_has_cycle]: the three-colour depth-first search

    The three sets are shared by all calls of [visit]; they are threaded
    through as a state.  A Python [set] is iterated in an order the language
    leaves open; the embedding takes the order of [elements].  The recursion
    of [visit] is bounded by [fuel]; [None] stands for its exhaustion, which
    lemma [has_cycle_loop_total] rules out. *)

Record Colours := {
  white : gset string;
  gray : gset string;
  black : gset string
}.

(** The loop [for nxt in adjacency.get(node, set())] of [visit]; [visit_nxt]
    is the recursive call. *)
Fixpoint visit_each (visit_nxt : Colours → string → option (bool * Colours))
    (targets : list string) (st : Colours) : option (bool * Colours) :=
  match targets with
  | [] => Some (false, st)
  | nxt :: targets' =>
      if decide (nxt ∈ black st) then visit_each visit_nxt targets' st
      else if decide (nxt ∈ gray st) then Some (true, st)
      else
        match visit_nxt st nxt with
        | None => None
        | Some (true, st') => Some (true, st')
        | Some (false, st') => visit_each visit_nxt targets' st'
        end
  end.

Fixpoint visit (fuel : nat) (adjacency : Adjacency) (st : Colours)
    (node : string) : option (bool * Colours) :=
  match fuel with
  | O => None
  | S fuel' =>
      let st1 := {| white := white st ∖ {[ node ]};
                    gray := gray st ∪ {[ node ]};
                    black := black st |} in
      match visit_each (visit fuel' adjacency)
              (elements (successors adjacency node)) st1 with
      | None => None
      | Some (true, st2) => Some (true, st2)
      | Some (false, st2) =>
          Some (false, {| white := white st2;
                          gray := gray st2 ∖ {[ node ]};
                          black := black st2 ∪ {[ node ]} |})
      end
  end.

(** Every node that can be visited: the keys and all their successors. *)
Definition universe (adjacency : Adjacency) : gset string :=
  dom adjacency ∪ ⋃ (map snd (map_to_list adjacency)).

(** [while white: node = next(iter(white)); if visit(node): return True]. *)
Fixpoint has_cycle_loop (rounds : nat) (adjacency : Adjacency) (st : Colours)
    : option bool :=
  match elements (white st) with
  | [] => Some false
  | node :: _ =>
      match rounds with
      | O => None
      | S rounds' =>
          match visit (S (size (universe adjacency))) adjacency st node with
          | None => None
          | Some (true, _) => Some true
          | Some (false, st') => has_cycle_loop rounds' adjacency st'
          end
      end
  end.

Definition _has_cycle (adjacency : Adjacency) : bool :=
  default false
    (has_cycle_loop (size (dom adjacency)) adjacency
       {| white := dom adjacency; gray := ∅; black := ∅ |}).

(** *** [_reachable_from_entrypoints]: breadth-first search *)

Fixpoint reachable_loop (fuel : nat) (adjacency : Adjacency)
    (visited : gset string) (queue : list string) : option (gset string) :=
  match queue with
  | [] => Some visited
  | node :: queue' =>
      match fuel with
      | O => None
      | S fuel' =>
          if decide (node ∈ visited)
          then reachable_loop fuel' adjacency visited queue'
          else
            let visited' := visited ∪ {[ node ]} in
            reachable_loop fuel' adjacency visited'
              (queue' ++ filter (λ nxt, nxt ∉ visited')
                           (elements (successors adjacency node)))%list
      end
  end.

(** The number of pairs (node, successor). *)
Definition adjacency_size (adjacency : Adjacency) : nat :=
  sum_list (map (λ kv, size kv.2) (map_to_list adjacency)).

Definition _reachable_from_entrypoints (entrypoints : list string)
    (adjacency : Adjacency) : gset string :=
  default ∅
    (reachable_loop (length entrypoints + adjacency_size adjacency) adjacency
       ∅ entrypoints).

(** *** [_is_end_reachable] *)

(** [outgoing.setdefault(edge.from_node, []).append(edge)]. *)
Definition outgoing_edges (edges : list GraphEdgeConfig)
    : gmap string (list GraphEdgeConfig) :=
  foldl (λ outgoing edge,
           <[ from_node edge :=
                (default [] (outgoing !! from_node edge) ++ [edge])%list ]>
             outgoing)
        ∅ edges.

(** The loop over the edges of one node: [inl true] when an edge to [END]
    is met, otherwise the queue with the unvisited targets appended. *)
Fixpoint scan_edges (visited_nodes : gset string)
    (out : list GraphEdgeConfig) (queue : list string)
    : bool + list string :=
  match out with
  | [] => inr queue
  | edge :: out' =>
      if String.eqb (to_node edge) "END" then inl true
      else if decide (to_node edge ∉ visited_nodes)
           then scan_edges visited_nodes out' (queue ++ [to_node edge])%list
           else scan_edges visited_nodes out' queue
  end.

Fixpoint end_reachable_loop (fuel : nat)
    (outgoing : gmap string (list GraphEdgeConfig))
    (visited_nodes : gset string) (queue : list string) : option bool :=
  match queue with
  | [] => Some false
  | node :: queue' =>
      match fuel with
      | O => None
      | S fuel' =>
          if decide (node ∈ visited_nodes)
          then end_reachable_loop fuel' outgoing visited_nodes queue'
          else
            let visited' := visited_nodes ∪ {[ node ]} in
            match scan_edges visited' (default [] (outgoing !! node)) queue' with
            | inl found => Some found
            | inr queue'' => end_reachable_loop fuel' outgoing visited' queue''
            end
      end
  end.

Definition _is_end_reachable (entrypoints : list string)
    (edges : list GraphEdgeConfig) : bool :=
  default false
    (end_reachable_loop (length entrypoints + length edges)
       (outgoing_edges edges) ∅ entrypoints).

(** *** [validate_graph_config] *)

Definition error (code path message : string) : GraphConfigValidationError :=
  {| code := code; path := path; message := message |}.

(** [{node_id for node_id in node_ids if node_ids.count(node_id) > 1}]. *)
Definition duplicate_ids (node_ids : list string) : gset string :=
  list_to_set
    (filter (λ node_id, (1 < length (filter (λ x, x = node_id) node_ids))%nat)
       node_ids).

(** [sorted(s)] of a set of strings. *)
Definition sorted_set (s : gset string) : list string :=
  Py.sorted String.compare (λ x, x) (elements s).

Definition duplicate_errors (node_ids : list string)
    : list GraphConfigValidationError :=
  if decide (duplicate_ids node_ids = ∅) then []
  else [error "DUPLICATE_NODE_ID" "graph.nodes"
          ("Node IDs must be unique. Duplicates: "
           ++ Py.str_of_list (sorted_set (duplicate_ids node_ids)) ++ ".")].

Definition entrypoint_count_errors (entrypoints : list string)
    : list GraphConfigValidationError :=
  if decide (length entrypoints = 1%nat) then []
  else [error "MULTIPLE_ENTRYPOINTS_UNSUPPORTED" "graph.entrypoints"
          "Current runtime requires exactly one entrypoint."].

Definition entrypoint_errors (node_id_set : gset string) (idx : nat)
    (entrypoint : string) : list GraphConfigValidationError :=
  if decide (entrypoint ∈ node_id_set) then []
  else [error "ENTRYPOINT_NOT_FOUND"
          ("graph.entrypoints[" ++ Py.str_of_nat idx ++ "]")
          ("Entrypoint '" ++ entrypoint ++ "' does not exist in graph.nodes.")].

(** The body of the loop over [enumerate(edges)]. *)
Definition edge_errors (node_id_set state_paths : gset string) (idx : nat)
    (edge : GraphEdgeConfig) : list GraphConfigValidationError :=
  let edge_path := "graph.edges[" ++ Py.str_of_nat idx ++ "]" in
  ((if String.eqb (from_node edge) "START" then
      [error "EDGE_FROM_START_FORBIDDEN" (edge_path ++ ".from_node")
         "Uses graph.entrypoints[]; START edges are not allowed."]
    else if String.eqb (from_node edge) "END" then
      [error "EDGE_FROM_END_FORBIDDEN" (edge_path ++ ".from_node")
         "END cannot be used as an edge source."]
    else if decide (from_node edge ∈ node_id_set) then []
    else
      [error "EDGE_SOURCE_NOT_FOUND" (edge_path ++ ".from_node")
         ("Edge source '" ++ from_node edge ++ "' does not exist.")])
   ++ (if String.eqb (to_node edge) "START" then
         [error "EDGE_TO_START_FORBIDDEN" (edge_path ++ ".to_node")
            "START cannot be used as an edge target."]
       else if negb (String.eqb (to_node edge) "END")
               && bool_decide (to_node edge ∉ node_id_set) then
         [error "EDGE_TARGET_NOT_FOUND" (edge_path ++ ".to_node")
            ("Edge target '" ++ to_node edge ++ "' does not exist.")]
       else [])
   ++ (match when edge with
       | WhenPredicate p =>
           if decide (state_path p ∈ state_paths) then []
           else
             [error "PREDICATE_STATE_PATH_MISSING"
                (edge_path ++ ".when.state_path")
                ("Predicate state_path '" ++ state_path p
                 ++ "' is missing in state.schema "
                 ++ "and is not a built-in state path.")]
       | _ => []
       end))%list.

(** [edges_by_source.setdefault(edge.from_node, []).append((idx, edge))] on
    a dict that keeps the order in which the sources first appear. *)
Fixpoint setdefault_append {V : Type} (k : string) (v : V)
    (d : list (string * list V)) : list (string * list V) :=
  match d with
  | [] => [(k, [v])]
  | (k', vs) :: d' =>
      if String.eqb k k' then (k', (vs ++ [v])%list) :: d'
      else (k', vs) :: setdefault_append k v d'
  end.

Definition edges_by_source (edges : list GraphEdgeConfig)
    : list (string * list (nat * GraphEdgeConfig)) :=
  foldl (λ d ie, setdefault_append (from_node ie.2) ie d) [] (imap pair edges).

Definition is_default (e : GraphEdgeConfig) : bool :=
  match when e with
  | WhenNone => true
  | _ => false
  end.

Definition is_builtin (c : BuiltinEdgeCondition) (e : GraphEdgeConfig) : bool :=
  match when e, c with
  | WhenBuiltin HAS_TOOL_CALLS, HAS_TOOL_CALLS => true
  | WhenBuiltin NO_TOOL_CALLS, NO_TOOL_CALLS => true
  | _, _ => false
  end.

Definition is_predicate (e : GraphEdgeConfig) : bool :=
  match when e with
  | WhenPredicate _ => true
  | _ => false
  end.

(** The error raised on the second element of a list of more than one. *)
Definition on_second {A : Type} (l : list (nat * A))
    (mk : nat → GraphConfigValidationError)
    : list GraphConfigValidationError :=
  match l with
  | _ :: (idx, _) :: _ => [mk idx]
  | _ => []
  end.

Definition edge_when_path (idx : nat) : string :=
  "graph.edges[" ++ Py.str_of_nat idx ++ "].when".

(** The determinism checks of one source node. *)
Definition determinism_errors (source : string)
    (edge_entries : list (nat * GraphEdgeConfig))
    : list GraphConfigValidationError :=
  let default_edges := filter (λ ie, is_default ie.2) edge_entries in
  let has_tool_edges := filter (λ ie, is_builtin HAS_TOOL_CALLS ie.2) edge_entries in
  let no_tool_edges := filter (λ ie, is_builtin NO_TOOL_CALLS ie.2) edge_entries in
  let custom_predicate_edges := filter (λ ie, is_predicate ie.2) edge_entries in
  (on_second default_edges
     (λ idx, error "MULTIPLE_DEFAULT_EDGES" (edge_when_path idx)
               ("Node '" ++ source ++ "' has more than one unconditional edge."))
   ++ on_second has_tool_edges
        (λ idx, error "DUPLICATE_HAS_TOOL_CALLS_EDGE" (edge_when_path idx)
                  ("Node '" ++ source ++ "' has duplicate has_tool_calls edges."))
   ++ on_second no_tool_edges
        (λ idx, error "DUPLICATE_NO_TOOL_CALLS_EDGE" (edge_when_path idx)
                  ("Node '" ++ source ++ "' has duplicate no_tool_calls edges."))
   ++ match has_tool_edges ++ no_tool_edges, custom_predicate_edges with
      | _ :: _, (idx, _) :: _ =>
          [error "MIXED_BUILTIN_AND_CUSTOM_ROUTING" (edge_when_path idx)
             ("Node '" ++ source
              ++ "' mixes built-in tool routing and custom predicates.")]
      | _, _ => []
      end)%list.

Definition unreachable_errors (node_id_set reachable : gset string)
    : list GraphConfigValidationError :=
  let unreachable := node_id_set ∖ reachable in
  if decide (unreachable = ∅) then []
  else [error "UNREACHABLE_NODE" "graph.nodes"
          ("Unreachable nodes from entrypoints: "
           ++ Py.str_of_list (sorted_set unreachable) ++ ".")].

Definition end_errors (entrypoints : list string)
    (edges : list GraphEdgeConfig) : list GraphConfigValidationError :=
  if _is_end_reachable entrypoints edges then []
  else [error "END_UNREACHABLE" "graph.edges"
          "No execution path from entrypoints can reach END."].

Definition cycle_errors (adjacency : Adjacency) (limits : GraphExecutionLimits)
    : list GraphConfigValidationError :=
  if _has_cycle adjacency then
    if (max_steps limits <=? 0) && (max_time_s limits <=? 0) then
      [error "CYCLE_LIMITS_REQUIRED" "limits"
         "Graphs with cycles require max_steps or max_time_s limits."]
    else []
  else [].

Definition validate_graph_config (config : GraphConfig)
    : list GraphConfigValidationError :=
  let nodes := nodes (graph config) in
  let edges := edges (graph config) in
  let entrypoints := entrypoints (graph config) in
  match nodes with
  | [] =>
      [error "EMPTY_GRAPH" "graph.nodes"
         "Graph must contain at least one node."]
  | _ :: _ =>
      let node_ids := map node_id nodes in
      let node_id_set : gset string := list_to_set node_ids in
      let state_paths : gset string :=
        list_to_set (dict_keys (state_schema (state config)))
        ∪ _BUILTIN_STATE_PATHS in
      let adjacency := _build_adjacency edges node_id_set in
      let reachable := _reachable_from_entrypoints entrypoints adjacency in
      (duplicate_errors node_ids
       ++ entrypoint_count_errors entrypoints
       ++ mjoin (imap (entrypoint_errors node_id_set) entrypoints)
       ++ mjoin (imap (edge_errors node_id_set state_paths) edges)
       ++ mjoin (map (λ se, determinism_errors se.1 se.2)
                   (edges_by_source edges))
       ++ unreachable_errors node_id_set reachable
       ++ end_errors entrypoints edges
       ++ cycle_errors adjacency (limits config))%list
  end.

(** [ensure_valid_graph_config] raises [ValueError] when there are errors. *)
Definition ensure_valid_graph_config (config : GraphConfig) : option unit :=
  match validate_graph_config config with
  | [] => Some ()
  | _ :: _ => None
  end.

(** *** Correctness of the cycle search

    [_has_cycle] answers whether some node reaches itself along at least one
    edge of the adjacency.  A node is [safe] when no path from it goes on
    for ever; every black node is safe, and every gray node reaches the node
    being visited. *)

Section Dfs.
Context (adj : Adjacency).

Definition edge_rel (a b : string) : Prop := b ∈ successors adj a.

Definition cyclic : Prop := ∃ n, tc edge_rel n n.

Definition safe (n : string) : Prop := Acc (flip edge_rel) n.

Lemma safe_not_on_cycle n : safe n → ¬ tc edge_rel n n.
Proof.
  induction 1 as [n _ IH]. intros Htc.
  inversion Htc as [? ? Hnn|? m ? Hnm Hmn]; subst.
  - apply (IH n Hnn). by apply tc_once.
  - apply (IH m Hnm). eapply tc_r; eauto.
Qed.

Lemma edge_rel_dom a b : edge_rel a b → a ∈ dom adj.
Proof.
  unfold edge_rel, successors. intros H. apply elem_of_dom.
  destruct (adj !! a); [done|]. set_solver.
Qed.

Lemma edge_rel_universe a b : edge_rel a b → b ∈ universe adj.
Proof.
  unfold edge_rel, successors, universe. intros H.
  destruct (adj !! a) as [S|] eqn:E; simpl in H; [|set_solver].
  apply elem_of_union. right. apply elem_of_union_list.
  exists S. split; [|done].
  apply list_elem_of_fmap. exists (a, S). split; [done|].
  by apply elem_of_map_to_list.
Qed.

Definition visit_pre (fuel : nat) (st : Colours) (node : string) : Prop :=
  node ∈ universe adj ∧ (node ∉ gray st) ∧ (node ∉ black st)
  ∧ (size (universe adj ∖ (gray st ∪ black st)) < fuel)%nat
  ∧ (∀ b, b ∈ black st → safe b)
  ∧ (∀ g, g ∈ gray st → rtc edge_rel g node).

Definition blackened (st st' : Colours) (D : gset string) : Prop :=
  black st' = black st ∪ D ∧ white st' = white st ∖ D ∧ gray st' = gray st
  ∧ (∀ b, b ∈ black st' → safe b).

Definition visit_post (st : Colours) (node : string) (r : bool * Colours) : Prop :=
  if r.1 then cyclic else ∃ D, node ∈ D ∧ blackened st r.2 D.

Lemma visit_each_ok rec fuel node :
  (∀ st nxt, visit_pre fuel st nxt →
             ∃ r, rec st nxt = Some r ∧ visit_post st nxt r) →
  ∀ targets st,
    (∀ t, t ∈ targets → edge_rel node t) →
    node ∈ gray st →
    (size (universe adj ∖ (gray st ∪ black st)) < fuel)%nat →
    (∀ b, b ∈ black st → safe b) →
    (∀ g, g ∈ gray st → rtc edge_rel g node) →
    ∃ r, visit_each rec targets st = Some r
         ∧ if r.1 then cyclic
           else ∃ D, blackened st r.2 D ∧ ∀ t, t ∈ targets → t ∈ black r.2.
Proof.
  intros Hrec. induction targets as [|nxt targets IH];
    intros st Hedge Hnode Hsize Hsafe Hgray; simpl.
  - eexists. split; [done|]. simpl. exists ∅.
    split; [|by intros ? ?%elem_of_nil].
    split; [by rewrite (right_id_L ∅ (∪))|].
    split; [by rewrite difference_empty_L|]. done.
  - assert (edge_rel node nxt) as Hnxt by (apply Hedge; left).
    assert (∀ t, t ∈ targets → edge_rel node t) as Hedge'
      by (intros; apply Hedge; by right).
    destruct (decide (nxt ∈ black st)) as [Hb|Hb].
    { destruct (IH st Hedge' Hnode Hsize Hsafe Hgray) as ([found st'] & -> & Hpost).
      eexists. split; [done|]. simpl in *. destruct found; [done|].
      destruct Hpost as (D & HD & Hall). exists D. split; [done|].
      intros t [->|Ht]%elem_of_cons; [|by apply Hall].
      destruct HD as (-> & _). apply elem_of_union. by left. }
    destruct (decide (nxt ∈ gray st)) as [Hg|Hg].
    { eexists. split; [done|]. simpl. exists nxt.
      eapply tc_rtc_l; [by apply Hgray|]. by apply tc_once. }
    destruct (Hrec st nxt) as ([found st'] & -> & Hpost).
    { split; [by eapply edge_rel_universe|].
      do 4 (split; [done|]).
      intros g Hin. eapply rtc_r; [by apply Hgray|done]. }
    unfold visit_post in Hpost. simpl in Hpost. destruct found.
    { eexists. split; [done|]. done. }
    destruct Hpost as (D1 & HnxtD & Hb1 & Hw1 & Hg1 & Hsafe1).
    destruct (IH st' Hedge') as ([found st''] & -> & Hpost2).
    { by rewrite Hg1. }
    { eapply Nat.le_lt_trans; [|exact Hsize].
      apply subseteq_size. rewrite Hg1, Hb1. clear. set_solver. }
    { done. }
    { intros g. rewrite Hg1. apply Hgray. }
    eexists. split; [done|]. simpl in *. destruct found; [done|].
    destruct Hpost2 as (D2 & (Hb2 & Hw2 & Hg2 & Hsafe2) & Hall).
    exists (D1 ∪ D2). split.
    + split; [rewrite Hb2, Hb1; clear; set_solver|].
      split; [rewrite Hw2, Hw1; clear; set_solver|].
      split; [by rewrite Hg2, Hg1|done].
    + intros t [->|Ht]%elem_of_cons; [|by apply Hall].
      rewrite Hb2, Hb1. clear -HnxtD. set_solver.
Qed.

Lemma visit_ok fuel st node :
  visit_pre fuel st node →
  ∃ r, visit fuel adj st node = Some r ∧ visit_post st node r.
Proof.
  revert st node. induction fuel as [|fuel IH]; intros st node Hpre.
  { destruct Hpre as (_ & _ & _ & Hsize & _). lia. }
  destruct Hpre as (HU & Hng & Hnb & Hsize & Hsafe & Hgray). simpl.
  set (st1 := {| white := white st ∖ {[node]}; gray := gray st ∪ {[node]};
                 black := black st |}).
  destruct (visit_each_ok (visit fuel adj) fuel node IH
              (elements (successors adj node)) st1)
    as ([found st2] & -> & Hpost).
  - intros t Ht. by apply elem_of_elements in Ht.
  - simpl. clear. set_solver.
  - simpl.
    assert (size (universe adj ∖ (gray st ∪ {[node]} ∪ black st))
            < size (universe adj ∖ (gray st ∪ black st)))%nat; [|lia].
    apply subset_size. clear -HU Hng Hnb. set_solver.
  - done.
  - simpl. intros g [Hg| ->%elem_of_singleton]%elem_of_union; [by apply Hgray|done].
  - simpl in *. destruct found.
    { eexists. split; [done|]. done. }
    destruct Hpost as (D & (Hb & Hw & Hg & Hsafe2) & Hall).
    eexists. split; [done|]. unfold visit_post. simpl.
    exists (D ∪ {[node]}). split; [clear; set_solver|].
    split; [|split; [|split]]; simpl.
    + rewrite Hb. simpl. clear. set_solver.
    + rewrite Hw. simpl. clear. set_solver.
    + rewrite Hg. simpl. clear -Hng. set_solver.
    + intros b [Hin| ->%elem_of_singleton]%elem_of_union; [by apply Hsafe2|].
      constructor. intros y Hy. apply Hsafe2, Hall. by apply elem_of_elements.
Qed.

Lemma has_cycle_loop_ok rounds st :
  gray st = ∅ → white st ⊆ dom adj → white st ## black st →
  (∀ b, b ∈ black st → safe b) → dom adj ⊆ white st ∪ black st →
  (size (white st) ≤ rounds)%nat →
  ∃ b, has_cycle_loop rounds adj st = Some b ∧ (b = true ↔ cyclic).
Proof.
  revert st. induction rounds as [|rounds IH];
    intros st Hgray Hwhite Hdisj Hsafe Hcover Hsize.
  - apply Nat.le_0_r, size_empty_iff, leibniz_equiv in Hsize.
    simpl. rewrite Hsize, elements_empty. exists false. split; [done|].
    split; [done|]. intros [n Hn]. exfalso.
    apply (safe_not_on_cycle n); [|done]. apply Hsafe.
    assert (n ∈ dom adj) as Hdom.
    { inversion Hn; subst; by eapply edge_rel_dom. }
    clear -Hdom Hcover Hsize. set_solver.
  - cbn [has_cycle_loop]. destruct (elements (white st)) as [|node l] eqn:E.
    { apply elements_empty_inv, leibniz_equiv in E.
      exists false. split; [done|].
      split; [done|]. intros [n Hn]. exfalso.
      apply (safe_not_on_cycle n); [|done]. apply Hsafe.
      assert (n ∈ dom adj) as Hdom.
      { inversion Hn; subst; by eapply edge_rel_dom. }
      clear -Hdom Hcover E. set_solver. }
    assert (node ∈ white st) as Hnode.
    { apply elem_of_elements. rewrite E. by left. }
    destruct (visit_ok (S (size (universe adj))) st node)
      as ([found st'] & -> & Hpost).
    { split; [unfold universe; clear -Hnode Hwhite; set_solver|].
      split; [rewrite Hgray; clear; set_solver|].
      split; [clear -Hnode Hdisj; set_solver|].
      split; [apply Nat.lt_succ_r, subseteq_size; clear; set_solver|].
      split; [done|]. intros g. rewrite Hgray. clear. set_solver. }
    unfold visit_post in Hpost. simpl in Hpost. destruct found.
    { exists true. done. }
    destruct Hpost as (D & HD & Hb & Hw & Hg & Hsafe').
    apply IH; try done.
    + by rewrite Hg.
    + rewrite Hw. clear -Hwhite. set_solver.
    + rewrite Hw, Hb. clear -Hdisj. set_solver.
    + rewrite Hw, Hb. clear -Hcover. intros x Hx. specialize (Hcover x Hx).
      destruct (decide (x ∈ D)); set_solver.
    + assert (size (white st') < size (white st))%nat; [|lia].
      apply subset_size. rewrite Hw. clear -Hnode HD. set_solver.
Qed.

Lemma has_cycle_loop_total :
  is_Some (has_cycle_loop (size (dom adj)) adj
             {| white := dom adj; gray := ∅; black := ∅ |}).
Proof.
  destruct (has_cycle_loop_ok (size (dom adj))
              {| white := dom adj; gray := ∅; black := ∅ |})
    as (b & -> & _); try done; simpl; clear; set_solver.
Qed.

Lemma has_cycle_spec : _has_cycle adj = true ↔ cyclic.
Proof.
  unfold _has_cycle.
  destruct (has_cycle_loop_ok (size (dom adj))
              {| white := dom adj; gray := ∅; black := ∅ |})
    as (b & -> & Hb); try done; simpl; clear; set_solver.
Qed.
End Dfs.

(** *** The adjacency built from the edges *)

Lemma successors_alter (g : gset string → gset string) k (m : Adjacency) a :
  k ∈ dom m →
  successors (alter g k m) a
  = if decide (k = a) then g (successors m k) else successors m a.
Proof.
  intros [S HS]%elem_of_dom. unfold successors. rewrite lookup_alter.
  destruct (decide (k = a)) as [->|]; [|done]. by rewrite HS.
Qed.

Definition edge_between (edges : list GraphEdgeConfig) (a b : string) : Prop :=
  ∃ e, e ∈ edges ∧ from_node e = a ∧ to_node e = b.

Lemma build_adjacency_fold edges ids (adj : Adjacency) :
  dom adj = ids →
  dom (foldl (λ adjacency edge,
           if decide (from_node edge ∈ ids ∧ to_node edge ∈ ids)
           then alter (λ targets, targets ∪ {[ to_node edge ]})
                  (from_node edge) adjacency
           else adjacency) adj edges) = ids
  ∧ ∀ a b,
      b ∈ successors (foldl (λ adjacency edge,
           if decide (from_node edge ∈ ids ∧ to_node edge ∈ ids)
           then alter (λ targets, targets ∪ {[ to_node edge ]})
                  (from_node edge) adjacency
           else adjacency) adj edges) a
      ↔ b ∈ successors adj a ∨ (a ∈ ids ∧ b ∈ ids ∧ edge_between edges a b).
Proof.
  revert adj. induction edges as [|e edges IH]; intros adj Hdom; simpl.
  - split; [done|]. intros a b. split; [by left|].
    intros [?|(_ & _ & e & []%elem_of_nil & _)]; done.
  - destruct (decide (from_node e ∈ ids ∧ to_node e ∈ ids)) as [[Hf Ht]|Hn].
    + destruct (IH (alter (λ targets, targets ∪ {[to_node e]}) (from_node e) adj))
        as [Hd Hs].
      { by rewrite dom_alter_L. }
      split; [done|]. intros a b. rewrite Hs.
      rewrite successors_alter by (by rewrite Hdom).
      unfold edge_between. split.
      * intros [H|(Ha & Hb & e' & He' & Hfe & Hte)].
        -- destruct (decide (from_node e = a)) as [<-|].
           ++ apply elem_of_union in H as [H|H%elem_of_singleton]; [by left|].
              right. subst b. split; [done|]. split; [done|].
              exists e. split; [by left|done].
           ++ by left.
        -- right. split; [done|]. split; [done|]. exists e'.
           split; [by right|done].
      * intros [H|(Ha & Hb & e' & He' & Hfe & Hte)].
        -- left. destruct (decide (from_node e = a)) as [<-|]; [|done].
           apply elem_of_union. by left.
        -- apply elem_of_cons in He' as [->|He'].
           ++ left. rewrite decide_True by done. subst b.
              apply elem_of_union. right. by apply elem_of_singleton.
           ++ right. split; [done|]. split; [done|]. by exists e'.
    + destruct (IH adj Hdom) as [Hd Hs]. split; [done|].
      intros a b. rewrite Hs. unfold edge_between. split.
      * intros [H|(Ha & Hb & e' & He' & Hfe & Hte)]; [by left|].
        right. split; [done|]. split; [done|]. exists e'. split; [by right|done].
      * intros [H|(Ha & Hb & e' & He' & Hfe & Hte)]; [by left|].
        apply elem_of_cons in He' as [->|He'].
        -- exfalso. apply Hn. by subst.
        -- right. split; [done|]. split; [done|]. by exists e'.
Qed.

Lemma dom_build_adjacency edges ids : dom (_build_adjacency edges ids) = ids.
Proof. apply build_adjacency_fold, dom_gset_to_gmap. Qed.

Lemma elem_of_successors_build edges ids a b :
  b ∈ successors (_build_adjacency edges ids) a
  ↔ a ∈ ids ∧ b ∈ ids ∧ edge_between edges a b.
Proof.
  unfold _build_adjacency.
  destruct (build_adjacency_fold edges ids (gset_to_gmap ∅ ids)) as [_ H].
  { apply dom_gset_to_gmap. }
  rewrite H. split; [|by right]. intros [Hb|?]; [|done].
  unfold successors in Hb. rewrite lookup_gset_to_gmap in Hb.
  destruct (guard (a ∈ ids)); simpl in Hb; set_solver.
Qed.

Lemma adjacency_eq (m1 m2 : Adjacency) :
  dom m1 = dom m2 → (∀ a, successors m1 a = successors m2 a) → m1 = m2.
Proof.
  intros Hdom Hs. apply map_eq. intros a. specialize (Hs a).
  unfold successors in Hs.
  destruct (m1 !! a) as [S1|] eqn:E1; destruct (m2 !! a) as [S2|] eqn:E2;
    simpl in Hs; [by subst|..|done].
  - apply (elem_of_dom_2 m1) in E1. apply (not_elem_of_dom m2) in E2.
    by rewrite Hdom in E1.
  - apply (elem_of_dom_2 m2) in E2. apply (not_elem_of_dom m1) in E1.
    by rewrite Hdom in E1.
Qed.

Lemma build_adjacency_perm edges1 edges2 ids :
  edges1 ≡ₚ edges2 →
  _build_adjacency edges1 ids = _build_adjacency edges2 ids.
Proof.
  intros Hp. apply adjacency_eq.
  - by rewrite !dom_build_adjacency.
  - intros a. apply set_eq. intros b. rewrite !elem_of_successors_build.
    unfold edge_between. by setoid_rewrite Hp.
Qed.

(** *** Breadth-first search from the entrypoints *)

Section Bfs.
Context (adj : Adjacency).

Definition pending (visited : gset string) : nat :=
  sum_list (map (λ kv : string * gset string,
                   if decide (kv.1 ∈ visited) then 0%nat else size kv.2)
              (map_to_list adj)).

Lemma pending_empty : pending ∅ = adjacency_size adj.
Proof.
  unfold pending, adjacency_size. apply (f_equal sum_list).
  apply list_fmap_ext. intros i [k S] _. simpl.
  by rewrite decide_False by set_solver.
Qed.

Lemma pending_step_list (l : list (string * gset string))
    (visited : gset string) (node : string) :
  (sum_list (map (λ kv : string * gset string,
                    if decide (kv.1 ∈ visited ∪ {[node]}) then 0%nat
                    else size kv.2) l)
   ≤ sum_list (map (λ kv : string * gset string,
                    if decide (kv.1 ∈ visited) then 0%nat else size kv.2) l))%nat.
Proof.
  induction l as [|[k S] l IH]; simpl; [done|].
  destruct (decide (k ∈ visited)) as [Hk|Hk].
  - rewrite decide_True by set_solver. simpl. lia.
  - destruct (decide (k ∈ visited ∪ {[node]})); lia.
Qed.

Lemma pending_step visited node :
  node ∉ visited →
  (size (successors adj node) + pending (visited ∪ {[node]})
   ≤ pending visited)%nat.
Proof.
  intros Hnode. unfold successors, pending.
  destruct (adj !! node) as [S|] eqn:E.
  - simpl. apply elem_of_map_to_list in E. revert E.
    generalize (map_to_list adj). intros l Hin.
    induction l as [|[k S'] l IH]; [by apply elem_of_nil in Hin|].
    apply elem_of_cons in Hin as [[= <- <-]|Hin]; simpl.
    + rewrite decide_True by set_solver. rewrite decide_False by done.
      pose proof (pending_step_list l visited node). lia.
    + specialize (IH Hin).
      destruct (decide (k ∈ visited)) as [Hk|Hk].
      * rewrite decide_True by set_solver. lia.
      * destruct (decide (k ∈ visited ∪ {[node]})); lia.
  - change (default ∅ None) with (∅ : gset string). rewrite size_empty.
    apply pending_step_list.
Qed.

Definition reach_from (queue : list string) (n : string) : Prop :=
  ∃ q, q ∈ queue ∧ rtc (edge_rel adj) q n.

Lemma reachable_loop_spec fuel visited queue :
  (length queue + pending visited ≤ fuel)%nat →
  ∃ R, reachable_loop fuel adj visited queue = Some R
       ∧ visited ⊆ R
       ∧ (∀ q, q ∈ queue → q ∈ R)
       ∧ (∀ v s, v ∈ R → v ∉ visited → edge_rel adj v s → s ∈ R)
       ∧ (∀ v, v ∈ R → v ∈ visited ∨ reach_from queue v).
Proof.
  revert visited queue. induction fuel as [|fuel IH]; intros visited queue Hfuel.
  - destruct queue as [|node queue]; simpl in *; [|lia].
    exists visited. split; [done|]. split; [done|].
    split; [by intros ? ?%elem_of_nil|]. split; [done|]. by left.
  - destruct queue as [|node queue]; cbn [reachable_loop].
    { exists visited. split; [done|]. split; [done|].
      split; [by intros ? ?%elem_of_nil|]. split; [done|]. by left. }
    destruct (decide (node ∈ visited)) as [Hv|Hv].
    + destruct (IH visited queue) as (R & -> & H1 & H2 & H3 & H4).
      { simpl in Hfuel. lia. }
      exists R. split; [done|]. split; [done|].
      split; [intros q [->|?]%elem_of_cons; [by apply H1|by apply H2]|].
      split; [done|].
      intros v Hin. destruct (H4 v Hin) as [?|(q & Hq & Hr)]; [by left|].
      right. exists q. split; [by right|done].
    + set (visited' := visited ∪ {[node]}).
      set (new := filter (λ nxt, nxt ∉ visited')
                    (elements (successors adj node))).
      destruct (IH visited' (queue ++ new)%list) as (R & -> & H1 & H2 & H3 & H4).
      { rewrite length_app. simpl in Hfuel.
        pose proof (pending_step visited node Hv).
        assert (length new ≤ size (successors adj node))%nat; [|unfold visited'; lia].
        unfold new. etrans; [apply length_filter|]. done. }
      exists R. split; [done|].
      split; [clear -H1; set_solver|].
      split.
      { intros q [->|Hq]%elem_of_cons.
        - apply H1. clear. set_solver.
        - apply H2, elem_of_app. by left. }
      split.
      { intros v s Hin Hnv Hvs. destruct (decide (v = node)) as [->|Hne].
        - destruct (decide (s ∈ visited')) as [Hs|Hs]; [by apply H1|].
          apply H2, elem_of_app. right. apply list_elem_of_filter.
          split; [done|]. by apply elem_of_elements.
        - apply (H3 v s Hin); [|done]. clear -Hnv Hne. set_solver. }
      intros v Hin. destruct (H4 v Hin) as [Hv'|(q & Hq & Hr)].
      * apply elem_of_union in Hv' as [?| ->%elem_of_singleton]; [by left|].
        right. exists node. split; [by left|done].
      * right. apply elem_of_app in Hq as [Hq|Hq].
        -- exists q. split; [by right|done].
        -- exists node. split; [by left|].
           apply list_elem_of_filter in Hq as [_ Hq%elem_of_elements].
           by eapply rtc_l.
Qed.

Lemma elem_of_reachable entrypoints n :
  n ∈ _reachable_from_entrypoints entrypoints adj ↔ reach_from entrypoints n.
Proof.
  unfold _reachable_from_entrypoints.
  destruct (reachable_loop_spec (length entrypoints + adjacency_size adj)
              ∅ entrypoints) as (R & -> & H1 & H2 & H3 & H4).
  { by rewrite pending_empty. }
  simpl. split.
  - intros Hn. destruct (H4 n Hn) as [?|?]; [set_solver|done].
  - intros (q & Hq%H2 & Hr). induction Hr as [|x y z Hxy Hyz IH]; [done|].
    apply IH, (H3 x y); [done|set_solver|done].
Qed.

End Bfs.

(** *** Reaching [END] *)

Section EndReachable.
Context (edges : list GraphEdgeConfig).

Lemma outgoing_edges_fold (m : gmap string (list GraphEdgeConfig)) es a :
  default [] (foldl (λ outgoing edge,
           <[ from_node edge :=
                (default [] (outgoing !! from_node edge) ++ [edge])%list ]>
             outgoing) m es !! a)
  = (default [] (m !! a) ++ filter (λ e, from_node e = a) es)%list.
Proof.
  revert m. induction es as [|e es IH]; intros m; simpl.
  - by rewrite app_nil_r.
  - rewrite IH, filter_cons. destruct (decide (from_node e = a)) as [<-|Hne].
    + rewrite lookup_insert_eq. simpl. by rewrite <- app_assoc.
    + by rewrite lookup_insert_ne.
Qed.

Lemma outgoing_edges_lookup a :
  default [] (outgoing_edges edges !! a) = filter (λ e, from_node e = a) edges.
Proof. unfold outgoing_edges. by rewrite outgoing_edges_fold, lookup_empty. Qed.

Lemma scan_edges_inl visited out queue b :
  scan_edges visited out queue = inl b →
  b = true ∧ ∃ e, e ∈ out ∧ to_node e = "END".
Proof.
  revert queue. induction out as [|e out IH]; intros queue; simpl; [done|].
  destruct (String.eqb (to_node e) "END") eqn:E.
  - intros [= <-]. split; [done|]. exists e. split; [by left|].
    by apply String.eqb_eq.
  - destruct (decide (to_node e ∉ visited)); intros H;
      destruct (IH _ H) as (-> & e' & He' & Hto); (split; [done|]);
      exists e'; (split; [by right|done]).
Qed.

Lemma scan_edges_inr visited out queue queue' :
  scan_edges visited out queue = inr queue' →
  (∀ e, e ∈ out → to_node e ≠ "END")
  ∧ queue' = (queue ++ filter (λ t, t ∉ visited) (map to_node out))%list.
Proof.
  revert queue. induction out as [|e out IH]; intros queue; simpl.
  - intros [= <-]. split; [by intros ? ?%elem_of_nil|]. by rewrite app_nil_r.
  - destruct (String.eqb (to_node e) "END") eqn:E; [done|].
    apply String.eqb_neq in E. rewrite filter_cons.
    destruct (decide (to_node e ∉ visited)); intros H;
      destruct (IH _ H) as (Hall & ->).
    + split; [by intros e' [->|?]%elem_of_cons; auto|].
      by rewrite <- app_assoc.
    + split; [by intros e' [->|?]%elem_of_cons; auto|done].
Qed.

Lemma filter_from_split (visited : gset string) (node : string)
    (es : list GraphEdgeConfig) :
  node ∉ visited →
  (length (filter (λ e, from_node e ∉ visited ∪ {[node]}) es)
   + length (filter (λ e, from_node e = node) es)
   = length (filter (λ e, from_node e ∉ visited) es))%nat.
Proof.
  intros Hnode. induction es as [|e es IH]; [done|].
  rewrite !filter_cons.
  destruct (decide (from_node e = node)) as [Heq|Hne].
  - rewrite decide_False by (clear -Heq; set_solver).
    rewrite decide_True by (by rewrite Heq). simpl. lia.
  - destruct (decide (from_node e ∉ visited)) as [Hv|Hv].
    + rewrite decide_True by (clear -Hne Hv; set_solver). simpl. lia.
    + rewrite decide_False by (clear -Hv; set_solver). done.
Qed.

Definition end_reachable_from (queue : list string) : Prop :=
  ∃ q n, q ∈ queue ∧ rtc (edge_between edges) q n
         ∧ edge_between edges n "END".

Lemma end_reachable_loop_spec fuel visited queue :
  (length queue + length (filter (λ e, from_node e ∉ visited) edges) ≤ fuel)%nat →
  ∃ b, end_reachable_loop fuel (outgoing_edges edges) visited queue = Some b
       ∧ (b = true → end_reachable_from queue)
       ∧ (b = false →
          ∃ R : gset string,
            visited ⊆ R ∧ (∀ q, q ∈ queue → q ∈ R)
            ∧ ∀ v s, v ∈ R → v ∉ visited → edge_between edges v s →
                     s ≠ "END" ∧ s ∈ R).
Proof.
  revert visited queue. induction fuel as [|fuel IH]; intros visited queue Hfuel.
  - destruct queue as [|node queue]; simpl in *; [|lia].
    exists false. split; [done|]. split; [done|]. intros _.
    exists visited. split; [done|]. split; [by intros ? ?%elem_of_nil|done].
  - destruct queue as [|node queue]; cbn [end_reachable_loop].
    { exists false. split; [done|]. split; [done|]. intros _.
      exists visited. split; [done|]. split; [by intros ? ?%elem_of_nil|done]. }
    destruct (decide (node ∈ visited)) as [Hv|Hv].
    + destruct (IH visited queue) as (b & -> & Ht & Hf).
      { simpl in Hfuel. lia. }
      exists b. split; [done|]. split.
      * intros Hb. destruct (Ht Hb) as (q & n & Hq & Hr & He).
        exists q, n. split; [by right|done].
      * intros Hb. destruct (Hf Hb) as (R & H1 & H2 & H3).
        exists R. split; [done|]. split; [|done].
        intros q [->|?]%elem_of_cons; [by apply H1|by apply H2].
    + rewrite outgoing_edges_lookup.
      set (visited' := visited ∪ {[node]}).
      destruct (scan_edges visited' _ queue) as [found|queue'] eqn:Escan.
      * apply scan_edges_inl in Escan as (-> & e & He & Hto).
        apply list_elem_of_filter in He as [Hfrom He].
        exists true. split; [done|]. split; [|done]. intros _.
        exists node, node. split; [by left|]. split; [done|].
        exists e. done.
      * apply scan_edges_inr in Escan as (Hall & ->).
        destruct (IH visited'
                    (queue ++ filter (λ t, t ∉ visited')
                       (map to_node (filter (λ e, from_node e = node) edges)))%list)
          as (b & -> & Ht & Hf).
        { rewrite length_app. simpl in Hfuel.
          pose proof (filter_from_split visited node edges Hv).
          pose proof (length_filter (λ t, t ∉ visited')
                        (map to_node (filter (λ e, from_node e = node) edges))) as Hl.
          rewrite length_map in Hl. unfold visited' in *. lia. }
        exists b. split; [done|]. split.
        -- intros Hb. destruct (Ht Hb) as (q & n & Hq & Hr & He).
           apply elem_of_app in Hq as [Hq|Hq].
           ++ exists q, n. split; [by right|done].
           ++ exists node, n. split; [by left|]. split; [|done].
              apply list_elem_of_filter in Hq as [_ Hq].
              apply list_elem_of_fmap in Hq as (e & -> & He').
              apply list_elem_of_filter in He' as [Hfrom He'].
              eapply rtc_l; [|done]. by exists e.
        -- intros Hb. destruct (Hf Hb) as (R & H1 & H2 & H3).
           exists R. split; [clear -H1; set_solver|]. split.
           { intros q [->|Hq]%elem_of_cons.
             - apply H1. clear. set_solver.
             - apply H2, elem_of_app. by left. }
           intros v s Hin Hnv Hvs. destruct (decide (v = node)) as [->|Hne].
           ++ destruct Hvs as (e & He & Hfrom & Hto).
              assert (e ∈ filter (λ e, from_node e = node) edges) as He'
                by (by apply list_elem_of_filter).
              split; [rewrite <- Hto; by apply Hall|].
              destruct (decide (s ∈ visited')) as [Hs|Hs]; [by apply H1|].
              apply H2, elem_of_app. right. apply list_elem_of_filter.
              split; [done|]. apply list_elem_of_fmap. by exists e.
           ++ apply (H3 v s Hin); [|done]. clear -Hnv Hne. set_solver.
Qed.

Lemma is_end_reachable_spec entrypoints :
  _is_end_reachable entrypoints edges = true ↔ end_reachable_from entrypoints.
Proof.
  unfold _is_end_reachable.
  destruct (end_reachable_loop_spec (length entrypoints + length edges)
              ∅ entrypoints) as (b & -> & Ht & Hf).
  { apply Nat.add_le_mono_l, length_filter. }
  simpl. split; [done|]. intros (q & n & Hq & Hr & He).
  destruct b; [done|]. exfalso.
  destruct Hf as (R & H1 & H2 & H3); [done|].
  apply H2 in Hq.
  induction Hr as [|x y z Hxy Hyz IH].
  - by destruct (H3 x "END" Hq (not_elem_of_empty x) He).
  - apply IH; [|done]. by apply (H3 x y).
Qed.

End EndReachable.

(** *** The codes of the errors *)

Definition codes (errors : list GraphConfigValidationError) : list string :=
  map code errors.

Definition structural_codes : list string :=
  ["DUPLICATE_NODE_ID"; "MULTIPLE_ENTRYPOINTS_UNSUPPORTED";
   "ENTRYPOINT_NOT_FOUND"; "EDGE_FROM_START_FORBIDDEN";
   "EDGE_FROM_END_FORBIDDEN"; "EDGE_SOURCE_NOT_FOUND";
   "EDGE_TO_START_FORBIDDEN"; "EDGE_TARGET_NOT_FOUND";
   "PREDICATE_STATE_PATH_MISSING"; "MULTIPLE_DEFAULT_EDGES";
   "DUPLICATE_HAS_TOOL_CALLS_EDGE"; "DUPLICATE_NO_TOOL_CALLS_EDGE";
   "MIXED_BUILTIN_AND_CUSTOM_ROUTING"; "UNREACHABLE_NODE"; "END_UNREACHABLE"].

Definition structural (errors : list GraphConfigValidationError) : Prop :=
  Forall (λ e, code e ∈ structural_codes) errors.

Ltac structural_code :=
  repeat first [ apply Forall_nil_2 | apply Forall_cons_2 | apply Forall_app_2 ];
  try (apply (bool_decide_unpack _); vm_compute; exact I).

Lemma structural_mjoin_imap {A : Type}
    (f : nat → A → list GraphConfigValidationError) (l : list A) :
  (∀ i a, structural (f i a)) → structural (mjoin (imap f l)).
Proof.
  intros Hf. revert f Hf. induction l as [|a l IH]; intros f Hf; simpl.
  - constructor.
  - apply Forall_app_2; [apply Hf|]. apply IH. intros i b. apply Hf.
Qed.

Lemma structural_on_second {A : Type} (l : list (nat * A)) mk :
  (∀ i, code (mk i) ∈ structural_codes) → structural (on_second l mk).
Proof.
  intros Hmk. destruct l as [|? [|[i ?] ?]]; simpl; structural_code. apply Hmk.
Qed.

Lemma structural_edge_errors ids paths idx e :
  structural (edge_errors ids paths idx e).
Proof.
  unfold edge_errors. repeat apply Forall_app_2.
  - repeat case_match; structural_code.
  - repeat case_match; structural_code.
  - repeat case_match; structural_code.
Qed.

Lemma structural_determinism_errors source entries :
  structural (determinism_errors source entries).
Proof.
  unfold determinism_errors. repeat apply Forall_app_2.
  - apply structural_on_second. intros. structural_code.
  - apply structural_on_second. intros. structural_code.
  - apply structural_on_second. intros. structural_code.
  - repeat case_match; structural_code.
Qed.

Lemma cycle_code_not_structural : "CYCLE_LIMITS_REQUIRED" ∉ structural_codes.
Proof. apply (bool_decide_unpack _). vm_compute. exact I. Qed.

Definition node_id_set (config : GraphConfig) : gset string :=
  list_to_set (map node_id (nodes (graph config))).

Definition adjacency_of (config : GraphConfig) : Adjacency :=
  _build_adjacency (edges (graph config)) (node_id_set config).

Lemma cycle_code_validate config :
  "CYCLE_LIMITS_REQUIRED" ∈ codes (validate_graph_config config)
  ↔ nodes (graph config) ≠ []
    ∧ _has_cycle (adjacency_of config) = true
    ∧ max_steps (limits config) <= 0 ∧ max_time_s (limits config) <= 0.
Proof.
  unfold validate_graph_config, adjacency_of, node_id_set, codes.
  destruct (nodes (graph config)) as [|n ns] eqn:En.
  { simpl. split; [|by intros [? _]].
    intros [[=]|[]%elem_of_nil]%elem_of_cons. }
  set (ids := list_to_set (map node_id (n :: ns)) : gset string).
  set (adj := _build_adjacency _ _).
  assert (∀ l1 l2, structural l1 →
            ("CYCLE_LIMITS_REQUIRED" ∈ map code (l1 ++ l2)%list
             ↔ "CYCLE_LIMITS_REQUIRED" ∈ map code l2)) as Hskip.
  { intros l1 l2 Hl1. rewrite map_app, elem_of_app. split; [|by right].
    intros [Hin|?]; [|done]. exfalso.
    apply list_elem_of_fmap in Hin as (e & He & Hin).
    unfold structural in Hl1. rewrite Forall_forall in Hl1.
    apply cycle_code_not_structural. rewrite He. by apply Hl1. }
  rewrite Hskip by (unfold duplicate_errors; case_match; structural_code).
  rewrite Hskip by (unfold entrypoint_count_errors; case_match; structural_code).
  rewrite Hskip by (apply structural_mjoin_imap; intros;
                    unfold entrypoint_errors; case_match; structural_code).
  rewrite Hskip by (apply structural_mjoin_imap; intros;
                    apply structural_edge_errors).
  rewrite Hskip.
  2:{ apply Forall_forall. intros e Hin.
      apply list_elem_of_join in Hin as (l & Hin & Hl).
      apply list_elem_of_fmap in Hl as ([s es] & -> & _).
      pose proof (structural_determinism_errors s es) as Hs.
      unfold structural in Hs. rewrite Forall_forall in Hs. by apply Hs. }
  rewrite Hskip by (unfold unreachable_errors; case_match; structural_code).
  rewrite Hskip by (unfold end_errors; case_match; structural_code).
  unfold cycle_errors.
  destruct (_has_cycle adj); [|simpl; split; [by intros ?%elem_of_nil|by intros (_ & [=] & _)]].
  destruct (max_steps (limits config) <=? 0) eqn:E1;
    destruct (max_time_s (limits config) <=? 0) eqn:E2; simpl;
    try apply Z.leb_le in E1; try apply Z.leb_le in E2;
    try apply Z.leb_gt in E1; try apply Z.leb_gt in E2.
  - split; [done|]. intros _. by left.
  - split; [by intros ?%elem_of_nil|]. lia.
  - split; [by intros ?%elem_of_nil|]. lia.
  - split; [by intros ?%elem_of_nil|]. lia.
Qed.

(** The graph that the validator searches: the edges between known nodes. *)
Definition graph_edge (config : GraphConfig) (a b : string) : Prop :=
  a ∈ node_id_set config ∧ b ∈ node_id_set config
  ∧ edge_between (edges (graph config)) a b.

Definition has_graph_cycle (config : GraphConfig) : Prop :=
  ∃ n, tc (graph_edge config) n n.

Lemma has_cycle_adjacency_of config :
  _has_cycle (adjacency_of config) = true ↔ has_graph_cycle config.
Proof.
  rewrite has_cycle_spec. unfold cyclic, has_graph_cycle.
  split; intros [n Hn]; exists n.
  - eapply (tc_congruence (λ x, x)); [|done]. intros x y Hxy.
    by apply elem_of_successors_build in Hxy.
  - eapply (tc_congruence (λ x, x)); [|done]. intros x y Hxy.
    by apply elem_of_successors_build.
Qed.

Definition two_node_loop (max_steps max_time_s : Z) : GraphConfig :=
  config_of [llm_node "a" "A" "p"; llm_node "b" "B" "p"]
    [edge "a" "b" 0; guarded_edge "b" "a" HAS_TOOL_CALLS;
     guarded_edge "b" "END" NO_TOOL_CALLS]
    ["a"] max_steps max_time_s.

Lemma two_node_loop_cycle ms mt : has_graph_cycle (two_node_loop ms mt).
Proof.
  exists "a". apply (tc_l _ _ "b"); [|apply tc_once].
  - split; [by vm_compute|]. split; [by vm_compute|].
    eexists. split; [by left|done].
  - split; [by vm_compute|]. split; [by vm_compute|].
    eexists. split; [right; by left|done].
Qed.

(** C3 (amended).  For a configuration whose graph has a cycle, the
    validator reports [CYCLE_LIMITS_REQUIRED] exactly when [max_steps <= 0]
    and [max_time_s <= 0]; so a cyclic configuration that it accepts has at
    least one of the two limits positive. *)
Theorem cycle_limits_required config :
  has_graph_cycle config →
  ("CYCLE_LIMITS_REQUIRED" ∈ codes (validate_graph_config config)
   ↔ max_steps (limits config) <= 0 ∧ max_time_s (limits config) <= 0)
  ∧ (validate_graph_config config = [] →
     0 < max_steps (limits config) ∨ 0 < max_time_s (limits config)).
Proof.
  intros Hcycle.
  assert (nodes (graph config) ≠ []) as Hnodes.
  { destruct Hcycle as [n Hn]. intros Hnil.
    assert (n ∈ node_id_set config) as Hin.
    { inversion Hn as [? ? (H & _)|? ? ? (H & _)]; by subst. }
    unfold node_id_set in Hin. rewrite Hnil in Hin. set_solver. }
  assert ("CYCLE_LIMITS_REQUIRED" ∈ codes (validate_graph_config config)
          ↔ max_steps (limits config) <= 0 ∧ max_time_s (limits config) <= 0)
    as Hiff.
  { rewrite cycle_code_validate. apply has_cycle_adjacency_of in Hcycle.
    split; [by intros (_ & _ & ?)|]. by intros ?. }
  split; [done|]. intros Hvalid. rewrite Hvalid in Hiff.
  destruct (decide (0 < max_steps (limits config))); [by left|].
  destruct (decide (0 < max_time_s (limits config))); [by right|].
  exfalso. assert ("CYCLE_LIMITS_REQUIRED" ∈ codes []) as Hin.
  { apply Hiff. lia. }
  by apply elem_of_nil in Hin.
Qed.

Lemma cycle_limits_required_witness :
  ("CYCLE_LIMITS_REQUIRED" ∈ codes (validate_graph_config (two_node_loop 0 0))
   ↔ 0 <= 0 ∧ 0 <= 0)
  ∧ (validate_graph_config (two_node_loop 0 0) = [] → 0 < 0 ∨ 0 < 0).
Proof.
  apply (cycle_limits_required (two_node_loop 0 0)).
  apply two_node_loop_cycle.
Defined.

(** The validator accepts the two-node loop with [max_steps = 0] and
    [max_time_s = 5]: not both limits of an accepted cyclic configuration
    are positive. *)
Lemma cycle_accepted_without_step_limit :
  ¬ (∀ config,
       has_graph_cycle config →
       ("CYCLE_LIMITS_REQUIRED" ∈ codes (validate_graph_config config)
        ↔ max_steps (limits config) <= 0 ∧ max_time_s (limits config) <= 0)
       ∧ (validate_graph_config config = [] →
          0 < max_steps (limits config) ∧ 0 < max_time_s (limits config))).
Proof.
  intros H.
  destruct (H (two_node_loop 0 5) (two_node_loop_cycle 0 5)) as [_ Hpos].
  assert (validate_graph_config (two_node_loop 0 5) = []) as Hvalid
    by (vm_compute; reflexivity).
  destruct (Hpos Hvalid) as [Hsteps _]. simpl in Hsteps. lia.
Qed.

(** *** Independence of the order of nodes, edges and entrypoints *)

(** An error without its path, which may carry a list index. *)
Definition code_message (e : GraphConfigValidationError) : string * string :=
  (code e, message e).

Definition stripped (errors : list GraphConfigValidationError)
    : list (string * string) :=
  map code_message errors.

Lemma stripped_mjoin_imap {A : Type}
    (f : nat → A → list GraphConfigValidationError) (l : list A) :
  (∀ i a, stripped (f i a) = stripped (f 0%nat a)) →
  stripped (mjoin (imap f l)) = mjoin (map (λ a, stripped (f 0%nat a)) l).
Proof.
  revert f. induction l as [|a l IH]; intros f Hf; [done|].
  rewrite imap_cons. simpl. unfold stripped at 1. rewrite map_app.
  f_equal. fold (stripped (mjoin (imap (f ∘ S) l))).
  rewrite IH.
  - f_equal. apply map_ext. intros b. simpl. apply Hf.
  - intros i b. simpl. by rewrite !Hf.
Qed.

Lemma stripped_entrypoint_errors ids i ep :
  stripped (entrypoint_errors ids i ep)
  = stripped (entrypoint_errors ids 0 ep).
Proof. unfold entrypoint_errors. by case_match. Qed.

Lemma stripped_edge_errors ids paths i e :
  stripped (edge_errors ids paths i e) = stripped (edge_errors ids paths 0 e).
Proof.
  unfold edge_errors, stripped. rewrite !map_app.
  f_equal; [|f_equal]; repeat case_match; done.
Qed.

(** The errors of one source node depend on its edges only through the
    numbers of edges of each kind. *)
Definition determinism_stripped (source : string)
    (out : list GraphEdgeConfig) : list (string * string) :=
  ((if (1 <? length (filter (λ e, is_default e) out))%nat then
      [("MULTIPLE_DEFAULT_EDGES",
        ("Node '" ++ source ++ "' has more than one unconditional edge.")%string)]
    else [])
   ++ (if (1 <? length (filter (λ e, is_builtin HAS_TOOL_CALLS e) out))%nat
       then
         [("DUPLICATE_HAS_TOOL_CALLS_EDGE",
           ("Node '" ++ source ++ "' has duplicate has_tool_calls edges.")%string)]
       else [])
   ++ (if (1 <? length (filter (λ e, is_builtin NO_TOOL_CALLS e) out))%nat
       then
         [("DUPLICATE_NO_TOOL_CALLS_EDGE",
           ("Node '" ++ source ++ "' has duplicate no_tool_calls edges.")%string)]
       else [])
   ++ (if (((0 <? length (filter (λ e, is_builtin HAS_TOOL_CALLS e) out))
                || (0 <? length (filter (λ e, is_builtin NO_TOOL_CALLS e) out)))
               && (0 <? length (filter (λ e, is_predicate e) out)))%nat
       then
         [("MIXED_BUILTIN_AND_CUSTOM_ROUTING",
           ("Node '" ++ source
            ++ "' mixes built-in tool routing and custom predicates.")%string)]
       else []))%list.

Lemma filter_entries (p : GraphEdgeConfig → bool)
    (entries : list (nat * GraphEdgeConfig)) :
  map snd (filter (λ ie, p ie.2) entries) = filter (λ e, p e) (map snd entries).
Proof.
  induction entries as [|[i e] entries IH]; [done|].
  simpl. rewrite !filter_cons. simpl.
  destruct (decide (p e)); simpl; by rewrite IH.
Qed.

Lemma stripped_on_second {A : Type} (l : list (nat * A)) mk c m :
  (∀ i, code_message (mk i) = (c, m)) →
  stripped (on_second l mk)
  = if (1 <? length (map snd l))%nat then [(c, m)] else [].
Proof.
  intros Hmk. destruct l as [|? [|[i ?] ?]]; try done.
  cbn [on_second stripped map]. by rewrite Hmk.
Qed.

Lemma stripped_determinism_errors source entries :
  stripped (determinism_errors source entries)
  = determinism_stripped source (map snd entries).
Proof.
  unfold determinism_errors, determinism_stripped, stripped.
  rewrite !map_app. rewrite <- !filter_entries.
  f_equal; [|f_equal; [|f_equal]].
  - by apply stripped_on_second.
  - by apply stripped_on_second.
  - by apply stripped_on_second.
  - rewrite !length_map.
    destruct (filter (λ ie, is_builtin HAS_TOOL_CALLS ie.2) entries) as [|x l1];
      destruct (filter (λ ie, is_builtin NO_TOOL_CALLS ie.2) entries) as [|y l2];
      destruct (filter (λ ie, is_predicate ie.2) entries) as [|[i z] l3];
      simpl; done.
Qed.

Lemma determinism_stripped_perm source out1 out2 :
  out1 ≡ₚ out2 →
  determinism_stripped source out1 = determinism_stripped source out2.
Proof.
  intros Hp. unfold determinism_stripped.
  assert (∀ p : GraphEdgeConfig → bool,
            length (filter (λ e, p e) out1) = length (filter (λ e, p e) out2))
    as Hlen by (intros p; by rewrite Hp).
  by rewrite !Hlen.
Qed.

(** [edges_by_source] groups the edges by their source, each source once. *)

Lemma dict_get_setdefault_append {V : Type} k k' (v : V) d :
  dict_get k (setdefault_append k' v d)
  = if decide (k = k') then Some (default [] (dict_get k d) ++ [v])%list
    else dict_get k d.
Proof.
  induction d as [|[k0 vs] d IH]; simpl.
  - destruct (decide (k = k')) as [->|Hne].
    + by rewrite String.eqb_refl.
    + by apply String.eqb_neq in Hne as ->.
  - destruct (String.eqb k' k0) eqn:E'; simpl.
    + apply String.eqb_eq in E' as ->.
      destruct (decide (k = k0)) as [->|Hne].
      * by rewrite String.eqb_refl.
      * by apply String.eqb_neq in Hne as ->.
    + destruct (String.eqb k k0) eqn:E.
      * apply String.eqb_eq in E as ->.
        rewrite decide_False; [done|]. intros <-. by rewrite String.eqb_refl in E'.
      * apply IH.
Qed.

Lemma keys_setdefault_append {V : Type} k (v : V) d :
  map fst (setdefault_append k v d)
  = if decide (k ∈ map fst d) then map fst d else (map fst d ++ [k])%list.
Proof.
  induction d as [|[k0 vs] d IH].
  - cbn [setdefault_append map fst]. case_decide as H; [|done].
    by apply elem_of_nil in H.
  - cbn [setdefault_append map fst].
    destruct (String.eqb k k0) eqn:E; cbn [map fst].
    + apply String.eqb_eq in E as ->. clear IH. case_decide as H; [done|].
      exfalso. apply H. by left.
    + apply String.eqb_neq in E. rewrite IH. clear IH.
      destruct (decide (k ∈ map fst d)) as [Hin|Hin].
      * case_decide as H; [done|]. exfalso. apply H. by right.
      * case_decide as H; [|done].
        by apply elem_of_cons in H as [?|?].
Qed.

Section Grouping.
Context {V : Type} (key : V → string).

Definition group (d : list (string * list V)) (l : list V)
    : list (string * list V) :=
  foldl (λ d v, setdefault_append (key v) v d) d l.

Lemma group_NoDup d l : NoDup (map fst d) → NoDup (map fst (group d l)).
Proof.
  revert d. induction l as [|v l IH]; intros d Hd; simpl; [done|].
  apply IH. rewrite keys_setdefault_append. case_decide; [done|].
  apply NoDup_app. split; [done|]. split; [|apply NoDup_singleton].
  intros x Hx ->%list_elem_of_singleton. done.
Qed.

Lemma group_keys d l k :
  k ∈ map fst (group d l) ↔ k ∈ map fst d ∨ k ∈ map key l.
Proof.
  revert d. induction l as [|v l IH]; intros d; simpl.
  - split; [by left|]. by intros [?|?%elem_of_nil].
  - rewrite IH, keys_setdefault_append, elem_of_cons.
    case_decide as Hin.
    + split; [intros [?|?]; auto|]. intros [?|[->|?]]; auto.
    + rewrite elem_of_app, list_elem_of_singleton. tauto.
Qed.

Lemma group_get d l k :
  default [] (dict_get k (group d l))
  = (default [] (dict_get k d) ++ filter (λ v, key v = k) l)%list.
Proof.
  revert d. induction l as [|v l IH]; intros d; simpl.
  - by rewrite app_nil_r.
  - rewrite IH, dict_get_setdefault_append, filter_cons.
    destruct (decide (k = key v)) as [->|Hne].
    + rewrite decide_True by done. simpl. by rewrite <- app_assoc.
    + by rewrite decide_False by done.
Qed.

Lemma dict_get_elem_of (d : list (string * list V)) k vs :
  NoDup (map fst d) → (k, vs) ∈ d → dict_get k d = Some vs.
Proof.
  induction d as [|[k0 vs0] d IH]; simpl; [by intros _ ?%elem_of_nil|].
  intros [Hk0 Hd]%NoDup_cons [[= <- <-]|Hin]%elem_of_cons.
  - by rewrite String.eqb_refl.
  - destruct (String.eqb k k0) eqn:E; [|by apply IH].
    apply String.eqb_eq in E as ->. exfalso. apply Hk0.
    apply list_elem_of_fmap. by exists (k0, vs).
Qed.

Lemma group_elem_of l k vs :
  (k, vs) ∈ group [] l → vs = filter (λ v, key v = k) l.
Proof.
  intros Hin. apply dict_get_elem_of in Hin; [|apply group_NoDup, NoDup_nil_2].
  pose proof (group_get [] l k) as Hget. by rewrite Hin in Hget.
Qed.

End Grouping.

Lemma snd_filter_enumerate {A : Type} (P : A → Prop) `{!∀ a, Decision (P a)}
    (l : list A) (start : nat) :
  map snd (filter (λ ie : nat * A, P ie.2) (imap (λ i a, (start + i, a)%nat) l))
  = filter P l.
Proof.
  revert start. induction l as [|a l IH]; intros start; [done|].
  rewrite imap_cons, !filter_cons. simpl.
  assert (map snd (filter (λ ie : nat * A, P ie.2)
            (imap ((λ i a, (start + i, a)%nat) ∘ S) l)) = filter P l) as Htl.
  { rewrite <- (IH (S start)). f_equal. f_equal. apply imap_ext.
    intros i x _. simpl. f_equal. lia. }
  destruct (decide (P a)); simpl; by rewrite Htl.
Qed.

Definition sources (edges : list GraphEdgeConfig) : list string :=
  map fst (edges_by_source edges).

Lemma stripped_determinism edges :
  stripped (mjoin (map (λ se, determinism_errors se.1 se.2)
                     (edges_by_source edges)))
  = mjoin (map (λ s, determinism_stripped s
                       (filter (λ e, from_node e = s) edges))
             (sources edges)).
Proof.
  unfold sources, stripped. rewrite <- list_fmap_compose.
  assert (∀ L : list (list GraphConfigValidationError),
            map code_message (mjoin L) = mjoin (map (map code_message) L)) as ->.
  { induction L as [|x L IH]; [done|]. simpl. by rewrite map_app, IH. }
  rewrite <- list_fmap_compose. f_equal.
  apply list_eq_Forall2, Forall2_fmap, Forall_Forall2_diag, Forall_forall.
  intros [s entries] Hin. simpl.
  fold (stripped (determinism_errors s entries)).
  rewrite stripped_determinism_errors. f_equal.
  apply (group_elem_of (λ ie : nat * GraphEdgeConfig, from_node ie.2)) in Hin.
  rewrite Hin.
  exact (snd_filter_enumerate (λ e, from_node e = s) edges 0).
Qed.

Lemma sources_NoDup edges : NoDup (sources edges).
Proof. apply (group_NoDup (λ ie : nat * GraphEdgeConfig, from_node ie.2)), NoDup_nil_2. Qed.

Lemma elem_of_sources edges s :
  s ∈ sources edges ↔ s ∈ map from_node edges.
Proof.
  unfold sources, edges_by_source.
  pose proof (group_keys (λ ie : nat * GraphEdgeConfig, from_node ie.2) []
                (imap pair edges) s) as H.
  unfold group in H. rewrite H. clear H.
  rewrite !list_elem_of_fmap. split.
  - intros [(? & _ & []%elem_of_nil)|([i e] & -> & Hin)].
    apply elem_of_lookup_imap in Hin as (j & y & Heq & Hy). simplify_eq.
    exists y. split; [done|]. by eapply list_elem_of_lookup_2.
  - intros (e & -> & Hin). right.
    apply list_elem_of_lookup in Hin as [i Hi].
    exists (i, e). split; [done|]. apply elem_of_lookup_imap. by exists i, e.
Qed.

Lemma stripped_determinism_perm edges1 edges2 :
  edges1 ≡ₚ edges2 →
  stripped (mjoin (map (λ se, determinism_errors se.1 se.2)
                     (edges_by_source edges1)))
  ≡ₚ stripped (mjoin (map (λ se, determinism_errors se.1 se.2)
                        (edges_by_source edges2))).
Proof.
  intros Hp. rewrite !stripped_determinism.
  assert (sources edges1 ≡ₚ sources edges2) as Hs.
  { apply NoDup_Permutation; [apply sources_NoDup..|].
    intros s. rewrite !elem_of_sources. by rewrite Hp. }
  rewrite Hs.
  assert (map (λ s, determinism_stripped s
                      (filter (λ e, from_node e = s) edges1)) (sources edges2)
          = map (λ s, determinism_stripped s
                        (filter (λ e, from_node e = s) edges2)) (sources edges2))
    as ->; [|done].
  apply map_ext. intros s. apply determinism_stripped_perm. by rewrite Hp.
Qed.

Lemma duplicate_ids_perm ids1 ids2 :
  ids1 ≡ₚ ids2 → duplicate_ids ids1 = duplicate_ids ids2.
Proof.
  intros Hp. unfold duplicate_ids. apply set_eq. intros x.
  rewrite !elem_of_list_to_set, !list_elem_of_filter.
  assert (length (filter (λ y, y = x) ids1) = length (filter (λ y, y = x) ids2))
    as -> by (by rewrite Hp).
  by rewrite Hp.
Qed.

Lemma reachable_perm eps1 eps2 adj :
  eps1 ≡ₚ eps2 →
  _reachable_from_entrypoints eps1 adj = _reachable_from_entrypoints eps2 adj.
Proof.
  intros Hp. apply set_eq. intros n. rewrite !elem_of_reachable.
  unfold reach_from. by setoid_rewrite Hp.
Qed.

Lemma is_end_reachable_perm eps1 eps2 edges1 edges2 :
  eps1 ≡ₚ eps2 → edges1 ≡ₚ edges2 →
  _is_end_reachable eps1 edges1 = _is_end_reachable eps2 edges2.
Proof.
  intros Hp He.
  assert (end_reachable_from edges1 eps1 ↔ end_reachable_from edges2 eps2) as Hiff.
  { unfold end_reachable_from.
    assert (∀ a b, edge_between edges1 a b ↔ edge_between edges2 a b) as Hb.
    { intros a b. unfold edge_between. by setoid_rewrite He. }
    assert (∀ a b, rtc (edge_between edges1) a b ↔ rtc (edge_between edges2) a b)
      as Hr.
    { intros a b. split; apply rtc_subrel; intros x y; apply Hb. }
    setoid_rewrite Hp. setoid_rewrite Hb. by setoid_rewrite Hr. }
  rewrite <- !is_end_reachable_spec in Hiff.
  destruct (_is_end_reachable eps1 edges1), (_is_end_reachable eps2 edges2);
    try done; destruct Hiff as [H1 H2]; [by rewrite H1|by rewrite H2].
Qed.

Lemma validate_perm config1 config2 :
  nodes (graph config1) ≡ₚ nodes (graph config2) →
  edges (graph config1) ≡ₚ edges (graph config2) →
  entrypoints (graph config1) ≡ₚ entrypoints (graph config2) →
  state config1 = state config2 →
  limits config1 = limits config2 →
  stripped (validate_graph_config config1)
  ≡ₚ stripped (validate_graph_config config2).
Proof.
  intros Hn He Hp Hs Hl. unfold validate_graph_config.
  destruct (nodes (graph config1)) as [|n1 ns1] eqn:E1;
    destruct (nodes (graph config2)) as [|n2 ns2] eqn:E2.
  - done.
  - by apply Permutation_nil_cons in Hn.
  - symmetry in Hn. by apply Permutation_nil_cons in Hn.
  - assert (map node_id (n1 :: ns1) ≡ₚ map node_id (n2 :: ns2)) as Hids
      by (by rewrite Hn).
    assert ((list_to_set (map node_id (n1 :: ns1)) : gset string)
            = list_to_set (map node_id (n2 :: ns2))) as Hset
      by (by apply list_to_set_perm_L).
    rewrite Hset, Hs, Hl.
    set (ids := list_to_set (map node_id (n2 :: ns2)) : gset string).
    set (paths := list_to_set (dict_keys (state_schema (state config2)))
                  ∪ _BUILTIN_STATE_PATHS).
    rewrite (build_adjacency_perm _ _ ids He).
    rewrite (reachable_perm _ _ _ Hp).
    unfold stripped. rewrite !map_app.
    repeat apply Permutation_app.
    + unfold duplicate_errors. by rewrite (duplicate_ids_perm _ _ Hids).
    + unfold entrypoint_count_errors.
      by rewrite (Permutation_length Hp).
    + fold (stripped (mjoin (imap (entrypoint_errors ids)
                               (entrypoints (graph config1))))).
      fold (stripped (mjoin (imap (entrypoint_errors ids)
                               (entrypoints (graph config2))))).
      rewrite !stripped_mjoin_imap by (intros; apply stripped_entrypoint_errors).
      by rewrite Hp.
    + fold (stripped (mjoin (imap (edge_errors ids paths)
                               (edges (graph config1))))).
      fold (stripped (mjoin (imap (edge_errors ids paths)
                               (edges (graph config2))))).
      rewrite !stripped_mjoin_imap by (intros; apply stripped_edge_errors).
      by rewrite He.
    + by apply stripped_determinism_perm.
    + done.
    + unfold end_errors. by rewrite (is_end_reachable_perm _ _ _ _ Hp He).
    + done.
Qed.

Definition dangling_edge_config : GraphConfig :=
  config_of [llm_node "a" "A" "p"] [edge "a" "zzz" 0; edge "a" "END" 0]
    ["a"] 64 300.

(** C2 (amended).  For every configuration that satisfies the schema, the
    errors of its canonical form are the errors of the configuration up to
    their order and up to their paths, which may carry the index of an edge
    or entrypoint: the two lists hold the same (code, message) pairs, each as
    often; so one list is empty exactly when the other is. *)
Theorem validate_canonical_same_errors (float_repr : float → string)
    (P : Pydantic) (config : GraphConfig) :
  GraphConfig_ok P config →
  ∃ canonical,
    Canonicalizer.canonicalize_graph_config float_repr config = Some canonical
    ∧ stripped (validate_graph_config canonical)
      ≡ₚ stripped (validate_graph_config config)
    ∧ (validate_graph_config canonical = [] ↔ validate_graph_config config = []).
Proof.
  intros (_ & _ & _ & _ & Hdeps & _).
  eexists. split; [by apply Canonicalizer.canonicalize_valid|].
  match goal with
  | |- stripped (validate_graph_config ?c) ≡ₚ _ ∧ _ =>
      pose proof (validate_perm c config) as Hperm
  end.
  simpl in Hperm.
  specialize (Hperm (Py.sorted_perm _ _ _) (Py.sorted_perm _ _ _)
                (Py.sorted_perm _ _ _) eq_refl eq_refl).
  split; [done|]. unfold stripped in Hperm. split; intros Hnil.
  - rewrite Hnil in Hperm. apply Permutation_nil in Hperm.
    by apply map_eq_nil in Hperm.
  - rewrite Hnil in Hperm. symmetry in Hperm. apply Permutation_nil in Hperm.
    by apply map_eq_nil in Hperm.
Qed.

Lemma validate_canonical_same_errors_witness :
  ∃ canonical,
    Canonicalizer.canonicalize_graph_config no_floats dangling_edge_config
    = Some canonical
    ∧ stripped (validate_graph_config canonical)
      ≡ₚ stripped (validate_graph_config dangling_edge_config)
    ∧ (validate_graph_config canonical = []
       ↔ validate_graph_config dangling_edge_config = []).
Proof.
  apply (validate_canonical_same_errors no_floats strict dangling_edge_config).
  repeat split; try reflexivity; try done.
Defined.

(** Canonicalization moves the edge to the unknown node [zzz] from index 0
    to index 1, and the path of its error changes with it. *)
Lemma validate_canonical_paths_differ :
  ¬ (∀ (float_repr : float → string) (P : Pydantic)
       (config canonical : GraphConfig),
       GraphConfig_ok P config →
       Canonicalizer.canonicalize_graph_config float_repr config
       = Some canonical →
       validate_graph_config canonical = validate_graph_config config).
Proof.
  intros H.
  assert (GraphConfig_ok strict dangling_edge_config) as Hok
    by (repeat split; try reflexivity; done).
  specialize (H no_floats strict dangling_edge_config _ Hok eq_refl).
  apply (f_equal (map path)) in H. vm_compute in H. discriminate H.
Qed.

(** C9.  Every configuration that [parse_graph_config] builds has
    [max_steps >= 1] and [max_time_s >= 1], so the validator never reports
    [CYCLE_LIMITS_REQUIRED] for it; a configuration with [max_steps = 0] and
    [max_time_s = 0] does not come out of the parser. *)
Theorem parsed_limits_positive (P : Pydantic) (raw : json)
    (config : GraphConfig) :
  parse_graph_config P raw = Some config →
  1 <= max_steps (limits config)
  ∧ 1 <= max_time_s (limits config)
  ∧ "CYCLE_LIMITS_REQUIRED" ∉ codes (validate_graph_config config).
Proof.
  intros Hparse. apply parse_graph_config_limits in Hparse.
  unfold GraphExecutionLimits_ok in Hparse.
  rewrite !andb_true_iff, !Z.leb_le in Hparse.
  destruct Hparse as [[[[[Ht _] Hs] _] _] _].
  split; [done|]. split; [done|].
  rewrite cycle_code_validate. intros (_ & _ & ? & ?). lia.
Qed.

Lemma parsed_limits_positive_witness :
  1 <= 64 ∧ 1 <= 300
  ∧ "CYCLE_LIMITS_REQUIRED"
    ∉ codes (validate_graph_config (two_node_loop 64 300)).
Proof.
  apply (parsed_limits_positive strict
           (GraphConfig_dump (two_node_loop 64 300)) (two_node_loop 64 300)).
  reflexivity.
Defined.

(** Scenario 4 of the specification, a two-node cycle with both limits at
    zero, is rejected by the parser. *)
Example cycle_without_limits_not_parsed :
  parse_graph_config strict (GraphConfig_dump (two_node_loop 0 0)) = None.
Proof. reflexivity. Qed.

End Validator.

(** ** Upgrading raw payloads ([app/agents/graph/upgrader.py]) *)

Module Upgrader.
Import Json Schema Fixtures.

Record GraphConfigMigrationWarning := {
  code : string;
  path : string;
  message : string
}.

Record GraphConfigMigrationResult := {
  source_version : string;
  config : GraphConfig;
  warnings : list GraphConfigMigrationWarning
}.

(** [GraphConfigMigrationError(code, path, message)]. *)
Record GraphConfigMigrationError := {
  error_code : string;
  error_path : string;
  error_message : string
}.

Inductive result (A : Type) :=
  | Ok (a : A)
  | Raise (e : GraphConfigMigrationError).
Arguments Ok {A} a.
Arguments Raise {A} e.

Section Upgrade.
Context (P : Pydantic) (float_repr : float → string).

(** The text of the exception caught in the canonical branch, and the
    branch for legacy payloads, which goes through
    [app/schemas/graph_config_legacy.py]; neither is among the sources. *)
Context (exception_text : list (string * json) → string).
Context (upgrade_legacy :
           string → list (string * json) → result GraphConfigMigrationResult).

Definition detect_graph_config_version (raw_config : list (string * json))
    : string :=
  match dict_get "schema_version" raw_config with
  | Some schema_version =>
      if truthy schema_version then py_str float_repr schema_version
      else py_str float_repr (default (JStr "1.0") (dict_get "version" raw_config))
  | None => py_str float_repr (default (JStr "1.0") (dict_get "version" raw_config))
  end.

Definition upgrade_graph_config (raw_config : list (string * json))
    : result GraphConfigMigrationResult :=
  let source_version := detect_graph_config_version raw_config in
  if Py.startswith "3." source_version then
    match
      parsed ← parse_graph_config P (JDict raw_config);
      canonical ← Canonicalizer.canonicalize_graph_config float_repr parsed;
      Validator.ensure_valid_graph_config canonical;;
      Some canonical
    with
    | Some canonical =>
        Ok {| source_version := source_version; config := canonical;
              warnings := [] |}
    | None =>
        Raise {| error_code := "INVALID_V3_CONFIG";
                 error_path := "graph_config";
                 error_message := exception_text raw_config |}
    end
  else upgrade_legacy source_version raw_config.

(** C4.  For a configuration that satisfies the schema, is in canonical
    form and passes the validator, upgrading its serialized form returns the
    configuration itself with no warnings, and the detected source version
    starts with [3.]. *)
Theorem upgrade_canonical_unchanged (config : GraphConfig) :
  PydanticLaws P →
  GraphConfig_ok P config →
  Canonicalizer.canonicalize_graph_config float_repr config = Some config →
  Validator.validate_graph_config config = [] →
  ∃ version,
    upgrade_graph_config (GraphConfig_items config)
    = Ok {| source_version := version; config := config; warnings := [] |}
    ∧ Py.startswith "3." version = true.
Proof.
  intros HP Hok Hcanon Hvalid. exists "3.0". split; [|done].
  unfold upgrade_graph_config, detect_graph_config_version.
  pose proof Hok as (Hv & _).
  cbn [GraphConfig_items dict_get String.eqb Ascii.eqb Bool.eqb].
  rewrite Hv. cbn [truthy py_str String.eqb Ascii.eqb Bool.eqb negb Py.startswith].
  change (JDict (GraphConfig_items config)) with (GraphConfig_dump config).
  unfold parse_graph_config. rewrite (GraphConfig_round_trip P HP) by done.
  cbn [mbind option_bind]. rewrite Hcanon. cbn [mbind option_bind].
  unfold Validator.ensure_valid_graph_config. rewrite Hvalid.
  done.
Qed.

End Upgrade.

(** *** The entrypoint of a migrated v2 graph *)

(** Modelled from the spec: the legacy (v2) classes [GraphConfig],
    [GraphNodeConfig] and [GraphEdgeConfig] of
    [app/schemas/graph_config_legacy.py], which is not among the sources,
    with the fields that [_derive_entrypoints] and the loop over the node ids
    read: the [id] of a node, the endpoints of an edge, and the optional
    [entry_point]. *)
Record LegacyGraphNodeConfig := {
  legacy_id : string
}.

Record LegacyGraphEdgeConfig := {
  legacy_from_node : string;
  legacy_to_node : string
}.

Record LegacyGraphConfig := {
  legacy_nodes : list LegacyGraphNodeConfig;
  legacy_edges : list LegacyGraphEdgeConfig;
  entry_point : option string
}.

Definition warning (code path message : string) : GraphConfigMigrationWarning :=
  {| code := code; path := path; message := message |}.

(** The truth value of [config_v2.entry_point]. *)
Definition entry_point_set (config_v2 : LegacyGraphConfig) : option string :=
  match entry_point config_v2 with
  | Some ep => if String.eqb ep "" then None else Some ep
  | None => None
  end.

(** The loop that collects [start_targets]. *)
Definition start_targets (edges : list LegacyGraphEdgeConfig)
    (node_ids : gset string) : list string :=
  foldl (λ targets edge,
           if decide (legacy_from_node edge = "START"
                      ∧ legacy_to_node edge ∈ node_ids
                      ∧ legacy_to_node edge ∉ targets)
           then (targets ++ [legacy_to_node edge])%list
           else targets)
        [] edges.

(** [warnings] is extended in place; the function returns the entrypoints
    and the extended list.  [None] stands for the [IndexError] of
    [config_v2.nodes[0]] on a graph without nodes. *)
Definition _derive_entrypoints (config_v2 : LegacyGraphConfig)
    (node_ids : gset string) (warnings : list GraphConfigMigrationWarning)
    : option (list string * list GraphConfigMigrationWarning) :=
  let from_edges_or_nodes (warnings : list GraphConfigMigrationWarning) :=
    match start_targets (legacy_edges config_v2) node_ids with
    | first :: rest =>
        Some ([first],
              match rest with
              | [] => warnings
              | _ :: _ =>
                  (warnings ++
                   [warning "MULTIPLE_START_TARGETS_PICK_FIRST" "edges"
                      ("Multiple START targets found "
                       ++ Py.str_of_list (first :: rest) ++ "; selected '"
                       ++ first ++ "'.")])%list
              end)
    | [] =>
        match legacy_nodes config_v2 with
        | node :: _ =>
            Some ([legacy_id node],
                  (warnings ++
                   [warning "MISSING_ENTRYPOINT_FALLBACK" "entry_point"
                      ("No entrypoint found; defaulted to first node '"
                       ++ legacy_id node ++ "'.")])%list)
        | [] => None
        end
    end in
  match entry_point_set config_v2 with
  | Some ep =>
      if decide (ep ∈ node_ids) then Some ([ep], warnings)
      else
        from_edges_or_nodes
          (warnings ++
           [warning "INVALID_ENTRYPOINT_FALLBACK" "entry_point"
              ("entry_point '" ++ ep
               ++ "' does not exist; deriving entrypoint from edges.")])%list
  | None => from_edges_or_nodes warnings
  end.

Definition no_legacy (version : string) (raw_config : list (string * json))
    : result GraphConfigMigrationResult :=
  Raise {| error_code := "INVALID_V2_CONFIG"; error_path := "graph_config";
           error_message := "" |}.

Lemma upgrade_canonical_unchanged_witness :
  ∃ version,
    upgrade_graph_config strict no_floats (λ _, "") no_legacy
      (GraphConfig_items (Validator.two_node_loop 64 300))
    = Ok {| source_version := version;
            config := Validator.two_node_loop 64 300; warnings := [] |}
    ∧ Py.startswith "3." version = true.
Proof.
  apply (upgrade_canonical_unchanged strict no_floats (λ _, "") no_legacy
           (Validator.two_node_loop 64 300)).
  - apply strict_laws.
  - repeat split; try reflexivity; try done.
  - reflexivity.
  - vm_compute. reflexivity.
Defined.

(** The part of the loop over [enumerate(config_v2.nodes)] in
    [_convert_v2_to_v3_raw] that builds [node_ids]; the conversion of the
    node itself, which reads further legacy fields, is left out. *)
Fixpoint collect_node_ids (index : nat) (nodes : list LegacyGraphNodeConfig)
    (node_ids : gset string) (warnings : list GraphConfigMigrationWarning)
    : result (gset string * list GraphConfigMigrationWarning) :=
  match nodes with
  | [] => Ok (node_ids, warnings)
  | node :: nodes' =>
      let stripped := Py.strip (legacy_id node) in
      let node_id :=
        if String.eqb stripped "" then "node_" ++ Py.str_of_nat (index + 1)
        else stripped in
      let warnings :=
        if String.eqb stripped "" then
          (warnings ++
           [warning "MISSING_NODE_ID_DEFAULTED"
              ("nodes[" ++ Py.str_of_nat index ++ "].id")
              ("Node id missing; defaulted to '" ++ node_id ++ "'.")])%list
        else warnings in
      if decide (node_id ∈ node_ids) then
        Raise {| error_code := "DUPLICATE_NODE_ID";
                 error_path := "nodes[" ++ Py.str_of_nat index ++ "].id";
                 error_message := "Duplicate node id '" ++ node_id
                                  ++ "' cannot be auto-migrated." |}
      else collect_node_ids (S index) nodes' (node_ids ∪ {[ node_id ]}) warnings
  end.

Lemma collect_node_ids_nonempty index nodes node_ids warnings ids ws :
  "" ∉ node_ids →
  collect_node_ids index nodes node_ids warnings = Ok (ids, ws) →
  "" ∉ ids.
Proof.
  revert index node_ids warnings.
  induction nodes as [|node nodes IH]; intros index node_ids warnings Hne; simpl.
  - by intros [= <- _].
  - case_decide as Hin; [done|]. apply IH.
    destruct (String.eqb (Py.strip (legacy_id node)) "") eqn:E.
    + set_solver.
    + apply String.eqb_neq in E. set_solver.
Qed.

Definition start_edge (node_ids : gset string) (edge : LegacyGraphEdgeConfig)
    : Prop :=
  legacy_from_node edge = "START" ∧ legacy_to_node edge ∈ node_ids.

Section StartTargets.
Context (node_ids : gset string).

Definition add_target (targets : list string) (edge : LegacyGraphEdgeConfig)
    : list string :=
  if decide (legacy_from_node edge = "START"
             ∧ legacy_to_node edge ∈ node_ids
             ∧ legacy_to_node edge ∉ targets)
  then (targets ++ [legacy_to_node edge])%list
  else targets.

Lemma start_targets_fold edges :
  start_targets edges node_ids = foldl add_target [] edges.
Proof. done. Qed.

Lemma add_targets_prefix edges targets :
  ∃ more, foldl add_target targets edges = (targets ++ more)%list.
Proof.
  revert targets. induction edges as [|e edges IH]; intros targets; simpl.
  - exists []. by rewrite app_nil_r.
  - unfold add_target at 2. case_decide; [|apply IH].
    destruct (IH (targets ++ [legacy_to_node e])%list) as [more ->].
    exists (legacy_to_node e :: more). by rewrite <- app_assoc.
Qed.

Lemma add_targets_elem_of edges targets t :
  t ∈ foldl add_target targets edges
  ↔ t ∈ targets ∨ ∃ e, e ∈ edges ∧ start_edge node_ids e ∧ legacy_to_node e = t.
Proof.
  revert targets. induction edges as [|e edges IH]; intros targets; simpl.
  - split; [by left|]. by intros [?|(? & []%elem_of_nil & _)].
  - rewrite IH. unfold add_target, start_edge. split.
    + intros [Hin|(e' & He' & Hs & Ht)].
      * case_decide as Hd.
        -- apply elem_of_app in Hin as [?| ->%list_elem_of_singleton]; [by left|].
           right. exists e. split; [by left|]. by destruct Hd as (? & ? & _).
        -- by left.
      * right. exists e'. split; [by right|done].
    + intros [Hin|(e' & [ ->|He']%elem_of_cons & Hs & Ht)].
      * left. case_decide; [|done]. apply elem_of_app. by left.
      * left. destruct Hs as [Hf Hi]. subst t. case_decide as Hd.
        -- apply elem_of_app. right. by apply list_elem_of_singleton.
        -- destruct (decide (legacy_to_node e ∈ targets)); [done|].
           exfalso. by apply Hd.
      * right. by exists e'.
Qed.

Lemma add_targets_NoDup edges targets :
  NoDup targets → NoDup (foldl add_target targets edges).
Proof.
  revert targets. induction edges as [|e edges IH]; intros targets Hnd; simpl;
    [done|].
  apply IH. unfold add_target. case_decide as Hd; [|done].
  apply NoDup_app. split; [done|]. split; [|apply NoDup_singleton].
  intros x Hx ->%list_elem_of_singleton. by destruct Hd as (_ & _ & ?).
Qed.

(** The first target is the target of the first [START] edge into a known
    node. *)
Lemma start_targets_first edges :
  match list_find (start_edge node_ids) edges with
  | Some (_, e) =>
      ∃ rest, start_targets edges node_ids = legacy_to_node e :: rest
  | None => start_targets edges node_ids = []
  end.
Proof.
  rewrite start_targets_fold.
  induction edges as [|e edges IH]; [done|].
  cbn [foldl list_find]. unfold start_edge in *.
  destruct (decide (legacy_from_node e = "START" ∧ legacy_to_node e ∈ node_ids))
    as [[Hf Hi]|Hn].
  - assert (add_target [] e = [legacy_to_node e]) as ->.
    { unfold add_target. rewrite decide_True; [done|].
      split; [done|]. split; [done|]. by intros ?%elem_of_nil. }
    destruct (add_targets_prefix edges [legacy_to_node e]) as [more ->].
    by exists more.
  - assert (add_target [] e = []) as ->.
    { unfold add_target. rewrite decide_False; [done|]. tauto. }
    destruct (list_find _ edges) as [[i e']|]; simpl; done.
Qed.

(** There is a second target exactly when the [START] edges into known nodes
    have more than one target. *)
Lemma start_targets_several edges first rest :
  start_targets edges node_ids = first :: rest →
  rest ≠ []
  ↔ ∃ e1 e2, e1 ∈ edges ∧ e2 ∈ edges ∧ start_edge node_ids e1
             ∧ start_edge node_ids e2
             ∧ legacy_to_node e1 ≠ legacy_to_node e2.
Proof.
  intros Heq.
  pose proof (add_targets_NoDup edges [] (NoDup_nil_2)) as Hnd.
  pose proof (add_targets_elem_of edges []) as Hin.
  rewrite <- start_targets_fold, Heq in Hnd, Hin.
  apply NoDup_cons in Hnd as [Hfirst Hnd]. split.
  - intros Hrest. destruct rest as [|second rest]; [done|].
    destruct (proj1 (Hin first)) as [[]%elem_of_nil|(e1 & He1 & Hs1 & Ht1)];
      [by left|].
    destruct (proj1 (Hin second)) as [[]%elem_of_nil|(e2 & He2 & Hs2 & Ht2)];
      [right; by left|].
    exists e1, e2. do 4 (split; [done|]). rewrite Ht1, Ht2.
    intros ->. apply Hfirst. by left.
  - intros (e1 & e2 & He1 & He2 & Hs1 & Hs2 & Hne) ->.
    assert (legacy_to_node e1 ∈ [first]) as H1%list_elem_of_singleton
      by (apply Hin; right; by exists e1).
    assert (legacy_to_node e2 ∈ [first]) as H2%list_elem_of_singleton
      by (apply Hin; right; by exists e2).
    congruence.
Qed.

End StartTargets.

Definition several_start_targets (node_ids : gset string)
    (edges : list LegacyGraphEdgeConfig) : Prop :=
  ∃ e1 e2, e1 ∈ edges ∧ e2 ∈ edges ∧ start_edge node_ids e1
           ∧ start_edge node_ids e2
           ∧ legacy_to_node e1 ≠ legacy_to_node e2.

(** The part of [_derive_entrypoints] after the test of [entry_point]. *)
Definition derive_fallback (config_v2 : LegacyGraphConfig)
    (node_ids : gset string) (warnings : list GraphConfigMigrationWarning)
    : option (list string * list GraphConfigMigrationWarning) :=
  match start_targets (legacy_edges config_v2) node_ids with
  | first :: rest =>
      Some ([first],
            match rest with
            | [] => warnings
            | _ :: _ =>
                (warnings ++
                 [warning "MULTIPLE_START_TARGETS_PICK_FIRST" "edges"
                    ("Multiple START targets found "
                     ++ Py.str_of_list (first :: rest) ++ "; selected '"
                     ++ first ++ "'.")])%list
            end)
  | [] =>
      match legacy_nodes config_v2 with
      | node :: _ =>
          Some ([legacy_id node],
                (warnings ++
                 [warning "MISSING_ENTRYPOINT_FALLBACK" "entry_point"
                    ("No entrypoint found; defaulted to first node '"
                     ++ legacy_id node ++ "'.")])%list)
      | [] => None
      end
  end.

Lemma derive_entrypoints_unfold config_v2 node_ids warnings :
  _derive_entrypoints config_v2 node_ids warnings
  = match entry_point_set config_v2 with
    | Some ep =>
        if decide (ep ∈ node_ids) then Some ([ep], warnings)
        else
          derive_fallback config_v2 node_ids
            (warnings ++
             [warning "INVALID_ENTRYPOINT_FALLBACK" "entry_point"
                ("entry_point '" ++ ep
                 ++ "' does not exist; deriving entrypoint from edges.")])%list
    | None => derive_fallback config_v2 node_ids warnings
    end.
Proof. done. Qed.

Lemma derive_fallback_spec config_v2 node_ids warnings :
  match list_find (start_edge node_ids) (legacy_edges config_v2) with
  | Some (_, edge) =>
      ∃ multiple,
        derive_fallback config_v2 node_ids warnings
        = Some ([legacy_to_node edge], (warnings ++ multiple)%list)
        ∧ (multiple = []
           ∨ ∃ w, multiple = [w]
                  ∧ code w = "MULTIPLE_START_TARGETS_PICK_FIRST")
        ∧ (multiple ≠ []
           ↔ several_start_targets node_ids (legacy_edges config_v2))
  | None =>
      match legacy_nodes config_v2 with
      | node :: _ =>
          ∃ w,
            derive_fallback config_v2 node_ids warnings
            = Some ([legacy_id node], (warnings ++ [w])%list)
            ∧ code w = "MISSING_ENTRYPOINT_FALLBACK"
      | [] => derive_fallback config_v2 node_ids warnings = None
      end
  end.
Proof.
  unfold derive_fallback.
  pose proof (start_targets_first node_ids (legacy_edges config_v2)) as Hfirst.
  destruct (list_find _ _) as [[i edge]|].
  - destruct Hfirst as [rest Hst].
    pose proof (start_targets_several node_ids _ _ _ Hst) as Hsev.
    rewrite Hst. destruct rest as [|second rest].
    + exists []. split; [by rewrite app_nil_r|]. split; [by left|].
      rewrite <- Hsev. done.
    + eexists [_]. split; [done|]. split; [right; by eexists|].
      rewrite <- Hsev. done.
  - rewrite Hfirst. destruct (legacy_nodes config_v2) as [|node ?]; [done|].
    by eexists.
Qed.

(** C6.  With node ids that are non-empty, as the migration collects them,
    the single entrypoint is: the [entry_point] field when it names an
    existing node, with the warnings unchanged; otherwise the target of the
    first edge from START to an existing node, with a
    [MULTIPLE_START_TARGETS_PICK_FIRST] warning exactly when the START edges
    have several distinct existing targets; otherwise the id of the first
    node, with a [MISSING_ENTRYPOINT_FALLBACK] warning, and an error when
    there is no node.  When [entry_point] is set and names no existing node,
    an [INVALID_ENTRYPOINT_FALLBACK] warning comes before the warnings of
    the fallback. *)
Theorem derive_entrypoints_order (config_v2 : LegacyGraphConfig)
    (node_ids : gset string) (warnings : list GraphConfigMigrationWarning) :
  "" ∉ node_ids →
  (∀ ep, entry_point config_v2 = Some ep → ep ∈ node_ids →
         _derive_entrypoints config_v2 node_ids warnings
         = Some ([ep], warnings))
  ∧ ((∀ ep, entry_point config_v2 = Some ep → ep ∉ node_ids) →
     ∃ invalid,
       match entry_point config_v2 with
       | Some ep =>
           if String.eqb ep "" then invalid = []
           else ∃ w, invalid = [w] ∧ code w = "INVALID_ENTRYPOINT_FALLBACK"
       | None => invalid = []
       end
       ∧ match list_find (start_edge node_ids) (legacy_edges config_v2) with
         | Some (_, edge) =>
             ∃ multiple,
               _derive_entrypoints config_v2 node_ids warnings
               = Some ([legacy_to_node edge],
                       (warnings ++ invalid ++ multiple)%list)
               ∧ (multiple = []
                  ∨ ∃ w, multiple = [w]
                         ∧ code w = "MULTIPLE_START_TARGETS_PICK_FIRST")
               ∧ (multiple ≠ []
                  ↔ several_start_targets node_ids (legacy_edges config_v2))
         | None =>
             match legacy_nodes config_v2 with
             | node :: _ =>
                 ∃ w,
                   _derive_entrypoints config_v2 node_ids warnings
                   = Some ([legacy_id node], (warnings ++ invalid ++ [w])%list)
                   ∧ code w = "MISSING_ENTRYPOINT_FALLBACK"
             | [] => _derive_entrypoints config_v2 node_ids warnings = None
             end
         end).
Proof.
  intros Hempty. rewrite derive_entrypoints_unfold. unfold entry_point_set.
  split.
  - intros ep -> Hin. destruct (String.eqb ep "") eqn:E.
    + apply String.eqb_eq in E as ->. done.
    + by rewrite decide_True.
  - intros Hnot. destruct (entry_point config_v2) as [ep|].
    + destruct (String.eqb ep "") eqn:E.
      * exists []. split; [done|]. apply derive_fallback_spec.
      * rewrite decide_False; [|exact (Hnot ep eq_refl)].
        eexists [warning "INVALID_ENTRYPOINT_FALLBACK" _ _].
        split; [by eexists|].
        pose proof (derive_fallback_spec config_v2 node_ids
          (warnings ++
           [warning "INVALID_ENTRYPOINT_FALLBACK" "entry_point"
              ("entry_point '" ++ ep
               ++ "' does not exist; deriving entrypoint from edges.")])%list)
          as Hfall.
        destruct (list_find _ _) as [[i edge]|].
        -- destruct Hfall as (multiple & Heq & Hm). exists multiple.
           split; [|done]. by rewrite Heq, <- !app_assoc.
        -- destruct (legacy_nodes config_v2); [done|].
           destruct Hfall as (w & Heq & Hw). exists w.
           split; [|done]. by rewrite Heq, <- !app_assoc.
    + exists []. split; [done|]. apply derive_fallback_spec.
Qed.

(** The legacy ReAct graph of the upgrader tests, with an [entry_point]
    that names no node. *)
Definition react_missing_entry_point : LegacyGraphConfig :=
  {| legacy_nodes := [ {| legacy_id := "agent" |}; {| legacy_id := "tools" |} ];
     legacy_edges :=
       [ {| legacy_from_node := "START"; legacy_to_node := "agent" |};
         {| legacy_from_node := "agent"; legacy_to_node := "tools" |};
         {| legacy_from_node := "agent"; legacy_to_node := "END" |};
         {| legacy_from_node := "tools"; legacy_to_node := "agent" |} ];
     entry_point := Some "missing" |}.

Lemma derive_entrypoints_order_witness :
  ("" ∉ ({["agent"; "tools"]} : gset string))
  ∧ ∃ w ws,
      _derive_entrypoints react_missing_entry_point {["agent"; "tools"]} []
      = Some (["agent"], w :: ws)
      ∧ code w = "INVALID_ENTRYPOINT_FALLBACK".
Proof.
  assert ("" ∉ ({["agent"; "tools"]} : gset string)) as Hempty.
  { by vm_compute. }
  split; [exact Hempty|].
  destruct (derive_entrypoints_order react_missing_entry_point
              {["agent"; "tools"]} [] Hempty) as [_ Hfall].
  destruct Hfall as (invalid & (w & -> & Hw) & multiple & Heq & _).
  { intros ep [= <-]. by vm_compute. }
  exists w, multiple. done.
Defined.

End Upgrader.

(** * The component registry ([app/agents/components/__init__.py]) *)

Module Registry.
Import Json.

(** ** Logging

    The calls of [logger] are collected in the order in which they are
    made. *)

Inductive Level := DEBUG | INFO | WARNING.

Record LogRecord := {
  level : Level;
  text : string
}.

Definition debug (s : string) : LogRecord := {| level := DEBUG; text := s |}.
Definition info (s : string) : LogRecord := {| level := INFO; text := s |}.
Definition warning (s : string) : LogRecord :=
  {| level := WARNING; text := s |}.

(** ** Components ([app/agents/components/component.py]) *)

Inductive ComponentType := SUBGRAPH.

Definition ComponentType_value (t : ComponentType) : string :=
  match t with SUBGRAPH => "subgraph" end.

Record ComponentMetadata := {
  key : string;
  name : string;
  description : string;
  component_type : ComponentType;
  version : string;
  author : string;
  tags : list string;
  input_schema : option json;
  output_schema : option json;
  required_tools : list string;
  required_components : list string;
  required_capabilities : list string;
  config_schema_json : option json
}.

(** Of an [ExecutableComponent] the registry reads the [metadata]
    property and calls [validate]; the class defines neither [__bool__] nor
    [__len__], so a component is true in a condition. *)
Record ExecutableComponent := {
  metadata : ComponentMetadata
}.

(** [ExecutableComponent.validate]; [required_capabilities] is a list by
    its type. *)
Definition validate (component : ExecutableComponent) : list string :=
  if String.eqb (key (metadata component)) "" then ["Component key is required"]
  else [].

(** ** The [packaging] library

    [resolve] parses versions and specifier sets with the [packaging]
    library, which is not part of the repository.  The embedding takes what
    [resolve] uses of it as a parameter: whether the library can be
    imported, the constructors [Version] and [SpecifierSet], which raise
    [InvalidVersion] and [InvalidSpecifier], the [major] and [minor]
    properties and [str] of a version, and the test [version in specifier]. *)

Inductive attempt (A : Type) :=
  | Returned (a : A)
  | Raised (e : string).
Arguments Returned {A} a.
Arguments Raised {A} e.

#[global] Instance attempt_bind : MBind attempt := λ A B f x,
  match x with
  | Returned a => f a
  | Raised e => Raised e
  end.

Record Packaging := {
  importable : bool;
  VersionT : Type;
  Version : string → attempt VersionT;
  major : VersionT → Z;
  minor : VersionT → Z;
  Version_str : VersionT → string;
  SpecifierSetT : Type;
  SpecifierSet : string → attempt SpecifierSetT;
  Specifier_contains : SpecifierSetT → VersionT → bool
}.

(** ** [ComponentRegistry] *)

Abbreviation ComponentRegistry := (gmap string ExecutableComponent).

(** [s[1:]]. *)
Definition from_1 (s : string) : string :=
  match s with
  | EmptyString => ""
  | String _ s' => s'
  end.

(** [register]; [None] stands for the [ValueError] of a key that is
    registered already. *)
Definition register (_components : ComponentRegistry)
    (component : ExecutableComponent) (override : bool)
    : option ComponentRegistry * list LogRecord :=
  let key := key (metadata component) in
  if bool_decide (is_Some (_components !! key)) && negb override
  then (None, [])
  else
    let errors := validate component in
    (Some (<[key := component]> _components),
     ((match errors with
       | [] => []
       | _ :: _ =>
           [warning ("Component '" ++ key ++ "' has validation warnings: "
                     ++ Py.str_of_list errors)]
       end)
      ++ [info ("Registered component: " ++ key ++ " ("
                ++ ComponentType_value (component_type (metadata component))
                ++ ")")])%list).

Definition get (_components : ComponentRegistry) (key : string)
    : option ExecutableComponent :=
  _components !! key.

Section Resolve.
Context (K : Packaging).

(** The specifier set that [resolve] builds from the constraint. *)
Definition specifier_of (version_constraint : string)
    : attempt (SpecifierSetT K) :=
  if Py.startswith "^" version_constraint then
    let base_version := from_1 version_constraint in
    base ← Version K base_version;
    let next_major := Py.str_of_Z (major K base + 1) ++ ".0.0" in
    SpecifierSet K (">=" ++ base_version ++ ",<" ++ next_major)
  else if Py.startswith "~" version_constraint then
    let base_version := from_1 version_constraint in
    base ← Version K base_version;
    let next_minor :=
      Py.str_of_Z (major K base) ++ "." ++ Py.str_of_Z (minor K base + 1)
      ++ ".0" in
    SpecifierSet K (">=" ++ base_version ++ ",<" ++ next_minor)
  else SpecifierSet K version_constraint.

(** [resolve] returns the component or [None], and the records it logs. *)
Definition resolve (_components : ComponentRegistry) (key : string)
    (version_constraint : string)
    : option ExecutableComponent * list LogRecord :=
  match _components !! key with
  | None => (None, [debug ("Component not found: " ++ key)])
  | Some component =>
      if String.eqb version_constraint "*" then (Some component, [])
      else if negb (importable K) then
        (Some component,
         [warning "packaging library not installed, skipping version check"])
      else
        match
          comp_version ← Version K (version (metadata component));
          specifier ← specifier_of version_constraint;
          Returned (comp_version, specifier)
        with
        | Returned (comp_version, specifier) =>
            if Specifier_contains K specifier comp_version
            then (Some component, [])
            else
              (None,
               [debug ("Component " ++ key ++ " version "
                       ++ Version_str K comp_version
                       ++ " doesn't match constraint " ++ version_constraint)])
        | Raised e =>
            (Some component,
             [warning ("Version parsing failed for " ++ key ++ ": " ++ e
                       ++ ", returning component")])
        end
  end.

End Resolve.

(** ** A stand-in for [packaging]

    Versions are dotted numbers, compared after padding with zeros, and a
    specifier set is a comma-separated list of clauses [>=V], [<=V], [==V],
    [!=V], [<V] and [>V].  It serves to run [resolve] on examples. *)

Fixpoint split_on (sep : ascii) (s : string) : list string :=
  match s with
  | EmptyString => [""]
  | String c s' =>
      if Ascii.eqb c sep then "" :: split_on sep s'
      else match split_on sep s' with
           | head :: rest => String c head :: rest
           | [] => [String c ""]
           end
  end.

Definition number (s : string) : option nat :=
  if String.eqb s "" then None
  else Nat.of_uint <$> NilEmpty.uint_of_string s.

Definition release (s : string) : attempt (list nat) :=
  match mapM number (split_on "." s) with
  | Some segments => Returned segments
  | None => Raised ("Invalid version: '" ++ s ++ "'")
  end.

Definition padded (n : nat) (segments : list nat) : list nat :=
  (segments ++ repeat 0%nat (n - length segments))%list.

Fixpoint compare_segments (a b : list nat) : comparison :=
  match a, b with
  | x :: a', y :: b' =>
      match Nat.compare x y with
      | Eq => compare_segments a' b'
      | c => c
      end
  | _, _ => Eq
  end.

Definition compare_release (a b : list nat) : comparison :=
  let n := Nat.max (length a) (length b) in
  compare_segments (padded n a) (padded n b).

Inductive Operator := GE | LE | EQ | NE | LT | GT.

Definition clause (s : string) : attempt (Operator * list nat) :=
  let with_operator (op : Operator) (rest : string) :=
    v ← release (Py.strip rest); Returned (op, v) in
  match s with
  | String ">" (String "=" rest) => with_operator GE rest
  | String "<" (String "=" rest) => with_operator LE rest
  | String "=" (String "=" rest) => with_operator EQ rest
  | String "!" (String "=" rest) => with_operator NE rest
  | String "<" rest => with_operator LT rest
  | String ">" rest => with_operator GT rest
  | _ => Raised ("Invalid specifier: '" ++ s ++ "'")
  end.

Fixpoint clauses (l : list string) : attempt (list (Operator * list nat)) :=
  match l with
  | [] => Returned []
  | s :: l' =>
      if String.eqb (Py.strip s) "" then clauses l'
      else c ← clause (Py.strip s); cs ← clauses l'; Returned (c :: cs)
  end.

Definition satisfies (v : list nat) (c : Operator * list nat) : bool :=
  match fst c, compare_release v (snd c) with
  | GE, (Eq | Gt) | LE, (Eq | Lt) | EQ, Eq | NE, (Lt | Gt) | LT, Lt | GT, Gt =>
      true
  | _, _ => false
  end.

Definition dotted_numbers : Packaging := {|
  importable := true;
  VersionT := list nat;
  Version := release;
  major := λ v, Z.of_nat (nth 0 v 0%nat);
  minor := λ v, Z.of_nat (nth 1 v 0%nat);
  Version_str := λ v, Py.join "." (map Py.str_of_nat v);
  SpecifierSetT := list (Operator * list nat);
  SpecifierSet := λ s, clauses (split_on "," s);
  Specifier_contains := λ s v, forallb (satisfies v) s
|}.

Definition component_of (key version : string) : ExecutableComponent :=
  {| metadata :=
       {| key := key; name := key; description := ""; component_type := SUBGRAPH;
          version := version; author := "Xyzen"; tags := [];
          input_schema := None; output_schema := None; required_tools := [];
          required_components := []; required_capabilities := [];
          config_schema_json := None |} |}.

Definition react_registry (version : string) : ComponentRegistry :=
  {[ "react" := component_of "react" version ]}.

Example resolve_examples :
  let resolved version constraint :=
    fst (resolve dotted_numbers (react_registry version) "react" constraint) in
  let found version := Some (component_of "react" version) in
  resolved "2.3.1" "*" = found "2.3.1"
  ∧ resolved "2.3.1" "^2.0.0" = found "2.3.1"
  ∧ resolved "3.0.0" "^2.0.0" = None
  ∧ resolved "1.9.9" "^2.0.0" = None
  ∧ resolved "2.0.7" "~2.0.1" = found "2.0.7"
  ∧ resolved "2.1.0" "~2.0.1" = None
  ∧ resolved "2.0.0" "~2.0.1" = None
  ∧ resolved "2.1.0" ">=2.0.0" = found "2.1.0"
  ∧ resolved "2.1.0" "==2.0.0" = None
  ∧ resolved "2.1.0" "latest" = found "2.1.0"
  ∧ resolved "2.1.0" "^two" = found "2.1.0".
Proof. vm_compute. repeat split. Qed.

(** C8.  For a component registered under [key]: with the constraint [*],
    [resolve] returns the component and logs nothing.  With [packaging]
    importable and a component version that parses, the constraint
    [^] followed by a version [base] is the specifier set
    [>=base,<(major+1).0.0], and [~] followed by [base] is
    [>=base,<major.(minor+1).0], where [major] and [minor] are those of the
    parsed [base]; [resolve] returns the component when its version is in
    the specifier set, and [None] otherwise.  When building the specifier set
    from the constraint raises, [resolve] returns the component and logs one
    warning. *)
Theorem resolve_constraints (K : Packaging) (_components : ComponentRegistry)
    (key : string) (component : ExecutableComponent) :
  _components !! key = Some component →
  resolve K _components key "*" = (Some component, [])
  ∧ (∀ base_version base comp_version specifier,
       importable K = true →
       Version K (version (metadata component)) = Returned comp_version →
       Version K base_version = Returned base →
       SpecifierSet K (">=" ++ base_version ++ ",<"
                       ++ Py.str_of_Z (major K base + 1) ++ ".0.0")
       = Returned specifier →
       fst (resolve K _components key ("^" ++ base_version))
       = if Specifier_contains K specifier comp_version
         then Some component else None)
  ∧ (∀ base_version base comp_version specifier,
       importable K = true →
       Version K (version (metadata component)) = Returned comp_version →
       Version K base_version = Returned base →
       SpecifierSet K (">=" ++ base_version ++ ",<"
                       ++ Py.str_of_Z (major K base) ++ "."
                       ++ Py.str_of_Z (minor K base + 1) ++ ".0")
       = Returned specifier →
       fst (resolve K _components key ("~" ++ base_version))
       = if Specifier_contains K specifier comp_version
         then Some component else None)
  ∧ (∀ version_constraint e,
       version_constraint ≠ "*" →
       specifier_of K version_constraint = Raised e →
       ∃ record,
         resolve K _components key version_constraint
         = (Some component, [record])
         ∧ level record = WARNING).
Proof.
  intros Hget. unfold resolve. rewrite Hget. split; [done|].
  split; [|split].
  - intros base_version base comp_version specifier -> Hcomp Hbase Hspec.
    change ("^" ++ base_version) with (String "^" base_version).
    cbn -[Py.str_of_Z]. rewrite Hcomp. unfold specifier_of.
    cbn -[Py.str_of_Z]. rewrite Hbase. cbn -[Py.str_of_Z]. rewrite Hspec. cbn.
    by destruct (Specifier_contains K specifier comp_version).
  - intros base_version base comp_version specifier -> Hcomp Hbase Hspec.
    change ("~" ++ base_version) with (String "~" base_version).
    cbn -[Py.str_of_Z]. rewrite Hcomp. unfold specifier_of.
    cbn -[Py.str_of_Z]. rewrite Hbase. cbn -[Py.str_of_Z]. rewrite Hspec. cbn.
    by destruct (Specifier_contains K specifier comp_version).
  - intros version_constraint e Hstar Hraise.
    apply String.eqb_neq in Hstar. rewrite Hstar.
    destruct (importable K); cbn [negb]; [|by eexists].
    rewrite Hraise.
    destruct (Version K (version (metadata component))); by eexists.
Qed.

Lemma resolve_constraints_witness :
  fst (resolve dotted_numbers (react_registry "2.3.1") "react" "^2.0.0")
  = Some (component_of "react" "2.3.1")
  ∧ fst (resolve dotted_numbers (react_registry "3.0.0") "react" "^2.0.0")
    = None.
Proof.
  split.
  - destruct (resolve_constraints dotted_numbers (react_registry "2.3.1")
                "react" (component_of "react" "2.3.1") eq_refl)
      as (_ & Hcaret & _).
    exact (Hcaret "2.0.0" [2; 0; 0]%nat [2; 3; 1]%nat
             [(GE, [2; 0; 0]%nat); (LT, [3; 0; 0]%nat)]
             eq_refl eq_refl eq_refl eq_refl).
  - destruct (resolve_constraints dotted_numbers (react_registry "3.0.0")
                "react" (component_of "react" "3.0.0") eq_refl)
      as (_ & Hcaret & _).
    exact (Hcaret "2.0.0" [2; 0; 0]%nat [3; 0; 0]%nat
             [(GE, [2; 0; 0]%nat); (LT, [3; 0; 0]%nat)]
             eq_refl eq_refl eq_refl eq_refl).
Defined.

End Registry.

(** * Prompt injection ([app/agents/factory.py]) *)

Module Factory.
Import Json.

(** ** Python objects

    [_inject_system_prompt] copies its argument and then changes the copy in
    place, so the dicts and lists are objects in a store, and a value is a
    constant or a reference to an object. *)

Definition loc := positive.

Inductive value :=
  | VNone
  | VBool (b : bool)
  | VInt (n : Z)
  | VFloat (x : float)
  | VStr (s : string)
  | VObj (l : loc).

Inductive object :=
  | Dict (items : list (string * value))
  | List (items : list value).

Abbreviation heap := (gmap loc object).

(** A new object. *)
Definition alloc (h : heap) (o : object) : heap * loc :=
  let l := fresh (dom h) in (<[l := o]> h, l).

(** [isinstance(v, dict)] and [isinstance(v, list)], with the object. *)
Definition as_dict (h : heap) (v : value)
    : option (loc * list (string * value)) :=
  match v with
  | VObj l => match h !! l with Some (Dict items) => Some (l, items) | _ => None end
  | _ => None
  end.

Definition as_list (h : heap) (v : value) : option (loc * list value) :=
  match v with
  | VObj l => match h !! l with Some (List items) => Some (l, items) | _ => None end
  | _ => None
  end.

(** [d.get(key)]. *)
Definition get (items : list (string * value)) (key : string) : value :=
  default VNone (dict_get key items).

(** [d.setdefault(key, {})] on the dict at [l], whose items are [items]. *)
Definition setdefault (h : heap) (l : loc) (items : list (string * value))
    (key : string) : heap * value :=
  match dict_get key items with
  | Some v => (h, v)
  | None =>
      let '(h1, l') := alloc h (Dict []) in
      (<[l := Dict (dict_set key (VObj l') items)]> h1, VObj l')
  end.

(** [v == s] for a string [s]. *)
Definition is_str (v : value) (s : string) : bool :=
  match v with
  | VStr s' => String.eqb s' s
  | _ => false
  end.

(** ** [copy.deepcopy]

    The copy of a dict or a list is a new object that holds the copies of
    its items.  The memo with which [deepcopy] keeps an object that occurs
    twice shared in the copy is left out: the values here are trees.  The
    fuel bounds the depth of the value. *)

Section Copy.
Context (copy : heap → value → option (heap * value)).

Fixpoint copy_list (h : heap) (vs : list value) : option (heap * list value) :=
  match vs with
  | [] => Some (h, [])
  | v :: vs' =>
      '(h1, v') ← copy h v;
      '(h2, vs'') ← copy_list h1 vs';
      Some (h2, v' :: vs'')
  end.

Fixpoint copy_items (h : heap) (items : list (string * value))
    : option (heap * list (string * value)) :=
  match items with
  | [] => Some (h, [])
  | (k, v) :: items' =>
      '(h1, v') ← copy h v;
      '(h2, items'') ← copy_items h1 items';
      Some (h2, (k, v') :: items'')
  end.

End Copy.

Fixpoint deepcopy (fuel : nat) (h : heap) (v : value) : option (heap * value) :=
  match v with
  | VObj l =>
      match fuel with
      | O => None
      | S fuel' =>
          match h !! l with
          | Some (Dict items) =>
              '(h1, items') ← copy_items (deepcopy fuel') h items;
              let '(h2, l') := alloc h1 (Dict items') in
              Some (h2, VObj l')
          | Some (List vs) =>
              '(h1, vs') ← copy_list (deepcopy fuel') h vs;
              let '(h2, l') := alloc h1 (List vs') in
              Some (h2, VObj l')
          | None => None
          end
      end
  | _ => Some (h, v)
  end.

(** ** [_inject_system_prompt] *)

Definition newline : string := String "010"%char "".

(** The local function [merge_layered_prompt]. *)
Definition merge_layered_prompt (base_prompt : string) (node_prompt : value)
    : string :=
  let base := Py.strip base_prompt in
  let node := match node_prompt with VStr s => Py.strip s | _ => "" end in
  if negb (String.eqb base "") && negb (String.eqb node "") then
    base ++ newline ++ newline ++ "<NODE_PROMPT>" ++ newline ++ node ++ newline
    ++ "</NODE_PROMPT>"
  else if negb (String.eqb base "") then base
  else node.

(** The counters that the function logs at its end. *)
Record Counters := {
  merged_llm_nodes : nat;
  merged_component_nodes : nat;
  llm_nodes_with_node_prompt : nat;
  component_nodes_with_node_prompt : nat
}.

(** [isinstance(p, str) and p.strip()]. *)
Definition has_prompt (p : value) : bool :=
  match p with
  | VStr s => negb (String.eqb (Py.strip s) "")
  | _ => false
  end.

Section Inject.
Context (system_prompt : string).

(** The branches for a component node: [section] is [component_config] in
    the v2 shape and [config] in the canonical shape. *)
Definition inject_component (section : string) (h : heap) (node : loc)
    (items : list (string * value)) (c : Counters) : heap * Counters :=
  let '(h, comp_config) := setdefault h node items section in
  match as_dict h comp_config with
  | Some (comp_config, comp_items) =>
      let '(h, overrides) :=
        setdefault h comp_config comp_items "config_overrides" in
      match as_dict h overrides with
      | Some (overrides, overrides_items) =>
          let existing_component_prompt :=
            get overrides_items "system_prompt" in
          let with_node_prompt :=
            if has_prompt existing_component_prompt
            then S (component_nodes_with_node_prompt c)
            else component_nodes_with_node_prompt c in
          (<[overrides :=
               Dict (dict_set "system_prompt"
                       (VStr (merge_layered_prompt system_prompt
                                existing_component_prompt))
                       overrides_items)]> h,
           {| merged_llm_nodes := merged_llm_nodes c;
              merged_component_nodes := S (merged_component_nodes c);
              llm_nodes_with_node_prompt := llm_nodes_with_node_prompt c;
              component_nodes_with_node_prompt := with_node_prompt |})
      | None => (h, c)
      end
  | None => (h, c)
  end.

(** The branches for an LLM node: [section] is [llm_config] in the v2 shape
    and [config] in the canonical shape. *)
Definition inject_llm (section : string) (h : heap) (node : loc)
    (items : list (string * value)) (c : Counters) : heap * Counters :=
  let '(h, llm_config) := setdefault h node items section in
  match as_dict h llm_config with
  | Some (llm_config, llm_items) =>
      let existing_prompt := get llm_items "prompt_template" in
      let with_node_prompt :=
        if has_prompt existing_prompt then S (llm_nodes_with_node_prompt c)
        else llm_nodes_with_node_prompt c in
      (<[llm_config :=
           Dict (dict_set "prompt_template"
                   (VStr (merge_layered_prompt system_prompt existing_prompt))
                   llm_items)]> h,
       {| merged_llm_nodes := S (merged_llm_nodes c);
          merged_component_nodes := merged_component_nodes c;
          llm_nodes_with_node_prompt := with_node_prompt;
          component_nodes_with_node_prompt :=
            component_nodes_with_node_prompt c |})
  | None => (h, c)
  end.

(** The body of the loop over the nodes. *)
Definition inject_node (state : heap * Counters) (node : value)
    : heap * Counters :=
  let '(h, c) := state in
  match as_dict h node with
  | None => (h, c)
  | Some (l, items) =>
      if is_str (get items "type") "component" then
        inject_component "component_config" h l items c
      else if is_str (get items "type") "llm" then
        inject_llm "llm_config" h l items c
      else if is_str (get items "kind") "component" then
        inject_component "config" h l items c
      else if is_str (get items "kind") "llm" then
        inject_llm "config" h l items c
      else (h, c)
  end.

(** The values over which [for node in node_list or []] runs; [None] is
    the [TypeError] of a true value that cannot be iterated.  The keys of a
    dict and the characters of a string are no dicts. *)
Definition iterated (h : heap) (node_list : value) : option (list value) :=
  match node_list with
  | VNone => Some []
  | VBool b => if b then None else Some []
  | VInt n => if n =? 0 then Some [] else None
  | VFloat x => if truthy (JFloat x) then None else Some []
  | VStr s => Some (map (λ c, VStr (String c "")) (list_ascii_of_string s))
  | VObj l =>
      match h !! l with
      | Some (List items) => Some items
      | Some (Dict items) => Some (map (λ kv, VStr kv.1) items)
      | None => None
      end
  end.

(** The function returns the copy; the result here has the store, the
    copy and the counters that are logged.  [None] is an exception. *)
Definition _inject_system_prompt (fuel : nat) (h : heap) (config_dict : value)
    : option (heap * value * Counters) :=
  '(h, config) ← deepcopy fuel h config_dict;
  '(_, items) ← as_dict h config;
  let node_list := get items "nodes" in
  let node_list :=
    if bool_decide (is_Some (as_list h node_list)) then node_list
    else
      match as_dict h (get items "graph") with
      | Some (_, graph) =>
          let candidate_nodes := get graph "nodes" in
          if bool_decide (is_Some (as_list h candidate_nodes))
          then candidate_nodes else node_list
      | None => node_list
      end in
  nodes ← iterated h node_list;
  let '(h, c) :=
    foldl inject_node
      (h, {| merged_llm_nodes := 0; merged_component_nodes := 0;
             llm_nodes_with_node_prompt := 0;
             component_nodes_with_node_prompt := 0 |})
      nodes in
  Some (h, config, c).

End Inject.

(** ** JSON values in the store *)

Section Store.
Context (store : heap → json → heap * value).

Fixpoint store_list (h : heap) (js : list json) : heap * list value :=
  match js with
  | [] => (h, [])
  | j :: js' =>
      let '(h, v) := store h j in
      let '(h, vs) := store_list h js' in
      (h, v :: vs)
  end.

Fixpoint store_items (h : heap) (items : list (string * json))
    : heap * list (string * value) :=
  match items with
  | [] => (h, [])
  | (k, j) :: items' =>
      let '(h, v) := store h j in
      let '(h, vs) := store_items h items' in
      (h, (k, v) :: vs)
  end.

End Store.

(** [store h j] puts the objects of the value [j] into the store. *)
Fixpoint store (h : heap) (j : json) : heap * value :=
  match j with
  | JNull => (h, VNone)
  | JBool b => (h, VBool b)
  | JInt n => (h, VInt n)
  | JFloat x => (h, VFloat x)
  | JStr s => (h, VStr s)
  | JList js =>
      let '(h, vs) := store_list store h js in
      let '(h, l) := alloc h (List vs) in
      (h, VObj l)
  | JDict items =>
      let '(h, vs) := store_items store h items in
      let '(h, l) := alloc h (Dict vs) in
      (h, VObj l)
  end.

(** [load fuel h v] reads the value at [v] back. *)
Fixpoint load (fuel : nat) (h : heap) (v : value) : option json :=
  match v with
  | VNone => Some JNull
  | VBool b => Some (JBool b)
  | VInt n => Some (JInt n)
  | VFloat x => Some (JFloat x)
  | VStr s => Some (JStr s)
  | VObj l =>
      match fuel with
      | O => None
      | S fuel' =>
          match h !! l with
          | Some (List vs) => JList <$> mapM (load fuel' h) vs
          | Some (Dict items) =>
              JDict <$> mapM (λ kv, pair kv.1 <$> load fuel' h kv.2) items
          | None => None
          end
      end
  end.

(** The v2 config of the factory tests, with one LLM node for each of the
    prompts. *)
Definition llm_config_v2 (prompts : list string) : json :=
  JDict [ ("version", JStr "2.0");
          ("nodes",
           JList (imap (λ i p,
                    JDict [ ("id", JStr ("agent" ++ Py.str_of_nat (S i)));
                            ("type", JStr "llm");
                            ("llm_config", JDict [("prompt_template", JStr p)]) ])
                    prompts));
          ("edges", JList []) ].

(** The call on a config that has just been stored: the input as it is
    after the call, and the result. *)
Definition run (config : json) (system_prompt : string) : option (json * json) :=
  let '(h, config_dict) := store ∅ config in
  '(h, result, _) ← _inject_system_prompt system_prompt 16 h config_dict;
  before ← load 16 h config_dict;
  after ← load 16 h result;
  Some (before, after).

(** ** Values that are trees

    [rep h v j fp]: in the store [h] the value [v] is the JSON value [j], and
    [fp] are its objects, none of which occurs twice. *)

Inductive rep (h : heap) : value → json → gset loc → Prop :=
  | rep_null : rep h VNone JNull ∅
  | rep_bool b : rep h (VBool b) (JBool b) ∅
  | rep_int n : rep h (VInt n) (JInt n) ∅
  | rep_float x : rep h (VFloat x) (JFloat x) ∅
  | rep_str s : rep h (VStr s) (JStr s) ∅
  | rep_list_obj l vs js fp :
      h !! l = Some (List vs) → rep_list h vs js fp → l ∉ fp →
      rep h (VObj l) (JList js) ({[l]} ∪ fp)
  | rep_dict_obj l items jitems fp :
      h !! l = Some (Dict items) → rep_items h items jitems fp → l ∉ fp →
      rep h (VObj l) (JDict jitems) ({[l]} ∪ fp)
with rep_list (h : heap) : list value → list json → gset loc → Prop :=
  | rep_list_nil : rep_list h [] [] ∅
  | rep_list_cons v vs j js f1 f2 :
      rep h v j f1 → rep_list h vs js f2 → f1 ## f2 →
      rep_list h (v :: vs) (j :: js) (f1 ∪ f2)
with rep_items (h : heap)
    : list (string * value) → list (string * json) → gset loc → Prop :=
  | rep_items_nil : rep_items h [] [] ∅
  | rep_items_cons k v items j jitems f1 f2 :
      rep h v j f1 → rep_items h items jitems f2 → f1 ## f2 →
      rep_items h ((k, v) :: items) ((k, j) :: jitems) (f1 ∪ f2).

Scheme rep_mut := Minimality for rep Sort Prop
  with rep_list_mut := Minimality for rep_list Sort Prop
  with rep_items_mut := Minimality for rep_items Sort Prop.
Combined Scheme rep_mutind from rep_mut, rep_list_mut, rep_items_mut.

(** [h'] has the objects of [h] at [fp]. *)
Definition agree (h h' : heap) (fp : gset loc) : Prop :=
  ∀ l, l ∈ fp → h' !! l = h !! l.

Lemma rep_frame_all h :
  (∀ v j fp, rep h v j fp → ∀ h', agree h h' fp → rep h' v j fp)
  ∧ (∀ vs js fp, rep_list h vs js fp → ∀ h', agree h h' fp → rep_list h' vs js fp)
  ∧ (∀ items jitems fp, rep_items h items jitems fp →
       ∀ h', agree h h' fp → rep_items h' items jitems fp).
Proof.
  apply rep_mutind; try by constructor.
  - intros l vs js fp Hl _ IH Hfp h' Hagree.
    apply rep_list_obj with vs; [|apply IH|done].
    + rewrite Hagree; [done|set_solver].
    + intros x Hx. apply Hagree. set_solver.
  - intros l items jitems fp Hl _ IH Hfp h' Hagree.
    apply rep_dict_obj with items; [|apply IH|done].
    + rewrite Hagree; [done|set_solver].
    + intros x Hx. apply Hagree. set_solver.
  - intros v vs j js f1 f2 _ IH1 _ IH2 Hdisj h' Hagree.
    constructor; [apply IH1|apply IH2|done]; intros x Hx; apply Hagree;
      set_solver.
  - intros k v items j jitems f1 f2 _ IH1 _ IH2 Hdisj h' Hagree.
    constructor; [apply IH1|apply IH2|done]; intros x Hx; apply Hagree;
      set_solver.
Qed.

Lemma rep_frame h h' v j fp : rep h v j fp → agree h h' fp → rep h' v j fp.
Proof. intros H. by apply rep_frame_all. Qed.

Lemma rep_list_frame h h' vs js fp :
  rep_list h vs js fp → agree h h' fp → rep_list h' vs js fp.
Proof. intros H. by apply rep_frame_all. Qed.

Lemma rep_items_frame h h' items jitems fp :
  rep_items h items jitems fp → agree h h' fp → rep_items h' items jitems fp.
Proof. intros H. by apply rep_frame_all. Qed.

Lemma rep_dom_all h :
  (∀ v j fp, rep h v j fp → fp ⊆ dom h)
  ∧ (∀ vs js fp, rep_list h vs js fp → fp ⊆ dom h)
  ∧ (∀ items jitems fp, rep_items h items jitems fp → fp ⊆ dom h).
Proof.
  apply rep_mutind; try set_solver.
  - intros l vs js fp Hl%(elem_of_dom_2 h) _ IH _. set_solver.
  - intros l items jitems fp Hl%(elem_of_dom_2 h) _ IH _. set_solver.
Qed.

Lemma rep_dom h v j fp : rep h v j fp → fp ⊆ dom h.
Proof. apply rep_dom_all. Qed.

Lemma rep_list_dom h vs js fp : rep_list h vs js fp → fp ⊆ dom h.
Proof. apply rep_dom_all. Qed.

Lemma rep_items_dom h items jitems fp : rep_items h items jitems fp → fp ⊆ dom h.
Proof. apply rep_dom_all. Qed.

Lemma agree_subseteq (h h' : heap) fp : h ⊆ h' → fp ⊆ dom h → agree h h' fp.
Proof.
  intros Hsub Hfp l Hl. apply Hfp, elem_of_dom in Hl as [o Ho].
  rewrite Ho. by eapply lookup_weaken.
Qed.

Lemma alloc_spec (h : heap) o :
  ((alloc h o).2 ∉ dom h) ∧ (h ⊆ (alloc h o).1)
  ∧ (alloc h o).1 = <[(alloc h o).2 := o]> h.
Proof.
  unfold alloc. cbn [fst snd]. pose proof (is_fresh (dom h)) as Hfresh.
  split; [done|]. split; [|done].
  apply insert_subseteq. by apply not_elem_of_dom.
Qed.

Lemma agree_weaken (h h1 h2 : heap) fp :
  agree h h1 fp → h1 ⊆ h2 → fp ⊆ dom h → agree h h2 fp.
Proof.
  intros Hagree Hsub Hfp l Hl. specialize (Hagree l Hl).
  apply Hfp, elem_of_dom in Hl as [o Ho]. rewrite Ho in Hagree |- *.
  exact (lookup_weaken h1 h2 l o Hagree Hsub).
Qed.

Lemma agree_mono (h h' : heap) fp fp' : agree h h' fp → fp' ⊆ fp → agree h h' fp'.
Proof. intros Hagree Hsub l Hl. apply Hagree. set_solver. Qed.

(** *** The copy of a tree

    With more fuel than the value has objects, [deepcopy] returns a value
    that is the same JSON value and whose objects are new; the objects of
    the store stay as they are. *)
Lemma deepcopy_rep_all h :
  (∀ v j fp, rep h v j fp → ∀ fuel h1,
     (size fp < fuel)%nat → agree h h1 fp →
     ∃ h2 v' fp', deepcopy fuel h1 v = Some (h2, v') ∧ h1 ⊆ h2
                  ∧ rep h2 v' j fp' ∧ fp' ## dom h1)
  ∧ (∀ vs js fp, rep_list h vs js fp → ∀ fuel h1,
       (size fp < fuel)%nat → agree h h1 fp →
       ∃ h2 vs' fp', copy_list (deepcopy fuel) h1 vs = Some (h2, vs') ∧ h1 ⊆ h2
                     ∧ rep_list h2 vs' js fp' ∧ fp' ## dom h1)
  ∧ (∀ items jitems fp, rep_items h items jitems fp → ∀ fuel h1,
       (size fp < fuel)%nat → agree h h1 fp →
       ∃ h2 items' fp', copy_items (deepcopy fuel) h1 items = Some (h2, items')
                        ∧ h1 ⊆ h2 ∧ rep_items h2 items' jitems fp'
                        ∧ fp' ## dom h1).
Proof.
  apply rep_mutind.
  1-5: intros; eexists _, _, ∅; destruct fuel; cbn;
    (split; [done|]); (split; [done|]); (split; [constructor|set_solver]).
  - intros l vs js fp Hl Hrep IH Hfp fuel h1 Hfuel Hagree.
    rewrite size_union, size_singleton in Hfuel by set_solver.
    destruct fuel as [|fuel]; [lia|].
    destruct (IH fuel h1) as (h2 & vs' & fp' & Hcopy & Hsub & Hrep' & Hnew).
    { lia. } { eapply agree_mono; [done|set_solver]. }
    destruct (alloc_spec h2 (List vs')) as (Hfresh & Hsub' & Halloc).
    destruct (alloc h2 (List vs')) as [h3 l'] eqn:Ealloc. cbn [fst snd] in *.
    pose proof (rep_list_dom _ _ _ _ Hrep') as Hdom.
    exists h3, (VObj l'), ({[l']} ∪ fp').
    split; [|split; [by etrans|split]].
    + cbn -[alloc]. rewrite Hagree, Hl by set_solver. cbn -[alloc].
      rewrite Hcopy. cbn -[alloc]. by rewrite Ealloc.
    + apply rep_list_obj with vs'; [by rewrite Halloc, lookup_insert_eq| |].
      * eapply rep_list_frame; [done|]. by apply agree_subseteq.
      * set_solver.
    + apply subseteq_dom in Hsub. set_solver.
  - intros l items jitems fp Hl Hrep IH Hfp fuel h1 Hfuel Hagree.
    rewrite size_union, size_singleton in Hfuel by set_solver.
    destruct fuel as [|fuel]; [lia|].
    destruct (IH fuel h1) as (h2 & items' & fp' & Hcopy & Hsub & Hrep' & Hnew).
    { lia. } { eapply agree_mono; [done|set_solver]. }
    destruct (alloc_spec h2 (Dict items')) as (Hfresh & Hsub' & Halloc).
    destruct (alloc h2 (Dict items')) as [h3 l'] eqn:Ealloc. cbn [fst snd] in *.
    pose proof (rep_items_dom _ _ _ _ Hrep') as Hdom.
    exists h3, (VObj l'), ({[l']} ∪ fp').
    split; [|split; [by etrans|split]].
    + cbn -[alloc]. rewrite Hagree, Hl by set_solver. cbn -[alloc].
      rewrite Hcopy. cbn -[alloc]. by rewrite Ealloc.
    + apply rep_dict_obj with items'; [by rewrite Halloc, lookup_insert_eq| |].
      * eapply rep_items_frame; [done|]. by apply agree_subseteq.
      * set_solver.
    + apply subseteq_dom in Hsub. set_solver.
  - intros fuel h1 _ _. exists h1, [], ∅. cbn.
    split; [done|]. split; [done|]. split; [constructor|set_solver].
  - intros v vs j js f1 f2 Hrep1 IH1 Hrep2 IH2 Hdisj fuel h1 Hfuel Hagree.
    destruct (IH1 fuel h1) as (h2 & v' & f1' & Hcopy1 & Hsub1 & Hrep1' & Hnew1).
    { assert (size f1 ≤ size (f1 ∪ f2))%nat by (apply subseteq_size; set_solver).
      lia. }
    { eapply agree_mono; [done|set_solver]. }
    destruct (IH2 fuel h2) as (h3 & vs' & f2' & Hcopy2 & Hsub2 & Hrep2' & Hnew2).
    { assert (size f2 ≤ size (f1 ∪ f2))%nat by (apply subseteq_size; set_solver).
      lia. }
    { eapply agree_weaken; [|done|by eapply rep_list_dom].
      eapply agree_mono; [done|set_solver]. }
    pose proof (rep_dom _ _ _ _ Hrep1') as Hdom1.
    exists h3, (v' :: vs'), (f1' ∪ f2').
    split; [|split; [by etrans|split]].
    + cbn. rewrite Hcopy1. cbn. rewrite Hcopy2. done.
    + constructor; [|done|set_solver].
      eapply rep_frame; [done|]. by apply agree_subseteq.
    + apply subseteq_dom in Hsub1. set_solver.
  - intros fuel h1 _ _. exists h1, [], ∅. cbn.
    split; [done|]. split; [done|]. split; [constructor|set_solver].
  - intros k v items j jitems f1 f2 Hrep1 IH1 Hrep2 IH2 Hdisj fuel h1 Hfuel
      Hagree.
    destruct (IH1 fuel h1) as (h2 & v' & f1' & Hcopy1 & Hsub1 & Hrep1' & Hnew1).
    { assert (size f1 ≤ size (f1 ∪ f2))%nat by (apply subseteq_size; set_solver).
      lia. }
    { eapply agree_mono; [done|set_solver]. }
    destruct (IH2 fuel h2) as (h3 & items' & f2' & Hcopy2 & Hsub2 & Hrep2' & Hnew2).
    { assert (size f2 ≤ size (f1 ∪ f2))%nat by (apply subseteq_size; set_solver).
      lia. }
    { eapply agree_weaken; [|done|by eapply rep_items_dom].
      eapply agree_mono; [done|set_solver]. }
    pose proof (rep_dom _ _ _ _ Hrep1') as Hdom1.
    exists h3, ((k, v') :: items'), (f1' ∪ f2').
    split; [|split; [by etrans|split]].
    + cbn. rewrite Hcopy1. cbn. rewrite Hcopy2. done.
    + constructor; [|done|set_solver].
      eapply rep_frame; [done|]. by apply agree_subseteq.
    + apply subseteq_dom in Hsub1. set_solver.
Qed.

(** *** Dicts of a tree *)

Lemma dict_set_id {V : Type} (k : string) (v : V) items :
  dict_get k items = Some v → dict_set k v items = items.
Proof.
  induction items as [|[k' v'] items IH]; cbn; [done|].
  destruct (String.eqb k k') eqn:E.
  - apply String.eqb_eq in E as ->. by intros [= ->].
  - intros H. by rewrite IH.
Qed.

Lemma dict_get_set {V : Type} (k : string) (v : V) items :
  dict_get k (dict_set k v items) = Some v.
Proof.
  induction items as [|[k' v'] items IH]; cbn.
  - by rewrite String.eqb_refl.
  - destruct (String.eqb k k') eqn:E; cbn; [by rewrite String.eqb_refl|].
    by rewrite E.
Qed.

Lemma rep_items_eq h items jitems fp fp' :
  rep_items h items jitems fp → fp = fp' → rep_items h items jitems fp'.
Proof. by intros ? <-. Qed.

(** The item under a key and the other items: the value under the key can
    be replaced by another tree. *)
Lemma rep_items_focus h items jitems fp key :
  rep_items h items jitems fp →
  ∃ rest,
    rest ⊆ fp
    ∧ match dict_get key items with
      | Some v =>
          ∃ j f, dict_get key jitems = Some j ∧ rep h v j f ∧ f ## rest
                 ∧ f ⊆ fp
      | None => dict_get key jitems = None ∧ rest = fp
      end
    ∧ ∀ h' v' j' f',
        agree h h' rest → rep h' v' j' f' → f' ## rest →
        rep_items h' (dict_set key v' items) (dict_set key j' jitems) (f' ∪ rest).
Proof.
  induction 1 as [|k v items j jitems f1 f2 Hrep Hitems IH Hdisj].
  - exists ∅. split; [done|]. split; [done|].
    intros h' v' j' f' _ Hrep' _. cbn. constructor; [done|constructor|set_solver].
  - cbn. destruct (String.eqb key k) eqn:E.
    + exists f2. split; [set_solver|]. split.
      { exists j, f1. split; [done|]. split; [done|]. set_solver. }
      intros h' v' j' f' Hagree Hrep' Hdisj'.
      apply String.eqb_eq in E as ->.
      constructor; [done| |done]. by eapply rep_items_frame.
    + destruct IH as (rest & Hrest & Hget & Hset). exists (f1 ∪ rest).
      split; [set_solver|]. split.
      { destruct (dict_get key items) as [v0|].
        - destruct Hget as (j0 & f0 & Hj & Hrep0 & Hdisj0 & Hsub0).
          exists j0, f0. split; [done|]. split; [done|]. set_solver.
        - destruct Hget as [Hj ->]. done. }
      intros h' v' j' f' Hagree Hrep' Hdisj'.
      eapply rep_items_eq.
      { constructor; [|apply (Hset h' v' j' f')| ].
        - eapply rep_frame; [done|]. eapply agree_mono; [done|set_solver].
        - eapply agree_mono; [done|set_solver].
        - done.
        - set_solver.
        - set_solver. }
      set_solver.
Qed.

Lemma rep_as_dict h v j fp :
  rep h v j fp →
  match as_dict h v with
  | Some (l, items) =>
      ∃ jitems f0, v = VObj l ∧ j = JDict jitems ∧ h !! l = Some (Dict items)
                   ∧ rep_items h items jitems f0 ∧ (l ∉ f0) ∧ fp = {[l]} ∪ f0
  | None => ∀ jitems, j ≠ JDict jitems
  end.
Proof.
  destruct 1 as [| | | | |l vs js fp Hl Hrep Hfp|l items jitems fp Hl Hrep Hfp];
    cbn; try done.
  - by rewrite Hl.
  - rewrite Hl. by exists jitems, fp.
Qed.

Lemma rep_as_list h v j fp :
  rep h v j fp →
  match as_list h v with
  | Some (l, vs) =>
      ∃ js f0, v = VObj l ∧ j = JList js ∧ h !! l = Some (List vs)
               ∧ rep_list h vs js f0 ∧ (l ∉ f0) ∧ fp = {[l]} ∪ f0
  | None => ∀ js, j ≠ JList js
  end.
Proof.
  destruct 1 as [| | | | |l vs js fp Hl Hrep Hfp|l items jitems fp Hl Hrep Hfp];
    cbn; try done.
  - rewrite Hl. by exists js, fp.
  - by rewrite Hl.
Qed.

(** [d.get(key)] on the JSON value. *)
Definition jget (items : list (string * json)) (key : string) : json :=
  default JNull (dict_get key items).

Lemma rep_get h items jitems fp key :
  rep_items h items jitems fp →
  ∃ f, rep h (get items key) (jget jitems key) f ∧ f ⊆ fp.
Proof.
  intros Hrep. destruct (rep_items_focus _ _ _ _ key Hrep) as (rest & _ & Hget & _).
  unfold get, jget. destruct (dict_get key items) as [v|].
  - destruct Hget as (j & f & -> & Hv & _ & Hsub). by exists f.
  - destruct Hget as [-> _]. exists ∅. split; [constructor|set_solver].
Qed.

(** *** The writes of the loop body on a tree

    [inject_at path leaf] is the part that the branches of the loop body
    share: it goes down the keys of [path] with [setdefault] as long as it
    finds dicts, and merges the system prompt into the item [leaf]. *)

Section Refinement.
Context (system_prompt : string).

Fixpoint inject_at (path : list string) (leaf : string) (h : heap) (l : loc)
    (items : list (string * value)) : heap :=
  match path with
  | [] =>
      <[l := Dict (dict_set leaf
                     (VStr (merge_layered_prompt system_prompt (get items leaf)))
                     items)]> h
  | key :: path' =>
      let '(h, v) := setdefault h l items key in
      match as_dict h v with
      | Some (l', items') => inject_at path' leaf h l' items'
      | None => h
      end
  end.

Lemma inject_llm_at section h node items c :
  (inject_llm system_prompt section h node items c).1
  = inject_at [section] "prompt_template" h node items.
Proof.
  unfold inject_llm. cbn [inject_at].
  destruct (setdefault h node items section) as [h1 v].
  by destruct (as_dict h1 v) as [[l' items']|].
Qed.

Lemma inject_component_at section h node items c :
  (inject_component system_prompt section h node items c).1
  = inject_at [section; "config_overrides"] "system_prompt" h node items.
Proof.
  unfold inject_component. cbn [inject_at].
  destruct (setdefault h node items section) as [h1 v].
  destruct (as_dict h1 v) as [[l' items']|]; [|done].
  destruct (setdefault h1 l' items' "config_overrides") as [h2 v'].
  by destruct (as_dict h2 v') as [[l'' items'']|].
Qed.

(** The string that [merge_layered_prompt] reads from a JSON value. *)
Definition prompt_value (j : json) : value :=
  match j with
  | JStr s => VStr s
  | _ => VNone
  end.

(** The same on the JSON value. *)
Fixpoint inject_at_json (path : list string) (leaf : string)
    (jitems : list (string * json)) : list (string * json) :=
  match path with
  | [] =>
      dict_set leaf
        (JStr (merge_layered_prompt system_prompt
                 (prompt_value (jget jitems leaf))))
        jitems
  | key :: path' =>
      match default (JDict []) (dict_get key jitems) with
      | JDict sub => dict_set key (JDict (inject_at_json path' leaf sub)) jitems
      | _ => jitems
      end
  end.

Lemma rep_merge h v j fp :
  rep h v j fp →
  merge_layered_prompt system_prompt v
  = merge_layered_prompt system_prompt (prompt_value j).
Proof. by destruct 1. Qed.

(** What a step leaves of the store [h]: it changes objects of [fp] and
    adds objects. *)
Definition within (h h' : heap) (fp : gset loc) : Prop :=
  dom h ⊆ dom h' ∧ ∀ x, x ∈ dom h → x ∉ fp → h' !! x = h !! x.

Lemma within_refl h fp : within h h fp.
Proof. by split. Qed.

Lemma within_trans h1 h2 h3 fp :
  within h1 h2 fp → within h2 h3 (fp ∪ (dom h2 ∖ dom h1)) → within h1 h3 fp.
Proof.
  intros [Hd1 H1] [Hd2 H2]. split; [set_solver|].
  intros x Hx Hnot. rewrite H2, H1; [done..| |]; set_solver.
Qed.

Lemma within_agree h h' fp fp' :
  within h h' fp → fp' ⊆ dom h → fp' ## fp → agree h h' fp'.
Proof. intros [_ H] Hsub Hdisj x Hx. apply H; set_solver. Qed.

Lemma setdefault_rep h l items jitems fp0 key h1 v :
  h !! l = Some (Dict items) → rep_items h items jitems fp0 → l ∉ fp0 →
  setdefault h l items key = (h1, v) →
  ∃ items1 f rest,
    h1 !! l = Some (Dict items1)
    ∧ rep h1 v (default (JDict []) (dict_get key jitems)) f
    ∧ (is_Some (dict_get key jitems) ∨ ∃ l', v = VObj l' ∧ h1 !! l' = Some (Dict []))
    ∧ f ## rest ∧ (l ∉ f) ∧ (l ∉ rest) ∧ rest ⊆ dom h
    ∧ f ∪ rest ⊆ fp0 ∪ (dom h1 ∖ dom h)
    ∧ within h h1 {[l]}
    ∧ ∀ h' j' f',
        agree h1 h' rest → h' !! l = Some (Dict items1) → rep h' v j' f' →
        f' ## rest → l ∉ f' →
        rep h' (VObj l) (JDict (dict_set key j' jitems)) ({[l]} ∪ (f' ∪ rest)).
Proof.
  intros Hl Hrep Hfp. pose proof (rep_items_dom _ _ _ _ Hrep) as Hdom.
  destruct (rep_items_focus _ _ _ _ key Hrep) as (rest & Hrest & Hget & Hset).
  unfold setdefault. destruct (dict_get key items) as [v0|] eqn:Ev.
  - intros [= <- <-]. destruct Hget as (j & f & Hj & Hv & Hdisj & Hsub).
    exists items, f, rest. rewrite Hj. cbn.
    split; [done|]. split; [done|]. split; [by left|].
    split; [done|]. split; [set_solver|]. split; [set_solver|].
    split; [set_solver|]. split; [set_solver|]. split; [apply within_refl|].
    intros h' j' f' Hagree Hl' Hrep' Hdisj' Hnot.
    apply rep_dict_obj with items; [done| |set_solver].
    rewrite <- (dict_set_id key v0 items Ev) at 1. by apply Hset.
  - destruct Hget as [Hj ->]. rewrite Hj. cbn -[alloc].
    destruct (alloc_spec h (Dict [])) as (Hfresh & Hsub & Halloc).
    destruct (alloc h (Dict [])) as [h0 l'] eqn:Ealloc. cbn [fst snd] in *.
    intros [= <- <-]. subst h0.
    assert (l ≠ l') as Hne.
    { intros ->. by apply Hfresh, elem_of_dom. }
    exists (dict_set key (VObj l') items), ({[l']} ∪ ∅), fp0.
    split; [by rewrite lookup_insert_eq|]. split.
    { apply rep_dict_obj with []; [|constructor|set_solver].
      by rewrite lookup_insert_ne, lookup_insert_eq. }
    split.
    { right. exists l'. by rewrite lookup_insert_ne, lookup_insert_eq. }
    split; [set_solver|]. split; [set_solver|]. split; [done|].
    split; [done|]. split.
    { rewrite !dom_insert_L. set_solver. }
    split.
    { split; [rewrite !dom_insert_L; set_solver|].
      intros x Hx Hnot. rewrite !lookup_insert_ne; [done|set_solver..]. }
    intros h' j' f' Hagree Hl' Hrep' Hdisj' Hnot.
    apply rep_dict_obj with (dict_set key (VObj l') items); [done| |set_solver].
    apply Hset; [|done..].
    intros x Hx. rewrite Hagree by done.
    rewrite !lookup_insert_ne; [done|set_solver..].
Qed.

Lemma inject_at_rep path leaf h l items jitems fp0 :
  h !! l = Some (Dict items) → rep_items h items jitems fp0 → l ∉ fp0 →
  ∃ fp',
    rep (inject_at path leaf h l items) (VObj l)
      (JDict (inject_at_json path leaf jitems)) fp'
    ∧ fp' ⊆ ({[l]} ∪ fp0) ∪ (dom (inject_at path leaf h l items) ∖ dom h)
    ∧ within h (inject_at path leaf h l items) ({[l]} ∪ fp0).
Proof.
  revert h l items jitems fp0.
  induction path as [|key path IH]; intros h l items jitems fp0 Hl Hrep Hfp.
  - cbn [inject_at inject_at_json].
    destruct (rep_items_focus _ _ _ _ leaf Hrep) as (rest & Hrest & _ & Hset).
    destruct (rep_get _ _ _ _ leaf Hrep) as (f & Hget & _).
    rewrite (rep_merge _ _ _ _ Hget).
    set (m := merge_layered_prompt system_prompt (prompt_value (jget jitems leaf))).
    exists ({[l]} ∪ (∅ ∪ rest)). split; [|split].
    + apply rep_dict_obj with (dict_set leaf (VStr m) items);
        [by rewrite lookup_insert_eq| |set_solver].
      apply Hset; [|constructor|set_solver].
      intros x Hx. rewrite lookup_insert_ne; [done|set_solver].
    + set_solver.
    + split; [rewrite dom_insert_L; set_solver|].
      intros x Hx Hnot. rewrite lookup_insert_ne; [done|set_solver].
  - cbn [inject_at inject_at_json].
    destruct (setdefault h l items key) as [h1 v] eqn:Esd.
    destruct (setdefault_rep _ _ _ _ _ _ _ _ Hl Hrep Hfp Esd)
      as (items1 & f & rest & Hl1 & Hv & Hcase & Hdisj & Hlf & Hlrest & Hrest
          & Hsub & Hwithin & Hset).
    pose proof (elem_of_dom_2 _ _ _ Hl) as Hldom.
    pose proof (rep_as_dict _ _ _ _ Hv) as Hdict.
    destruct (as_dict h1 v) as [[lc citems]|] eqn:Edict.
    + destruct Hdict as (jc & f0 & -> & Hj & Hlc & Hrepc & Hlcf & ->).
      rewrite Hj.
      destruct (IH h1 lc citems jc f0 Hlc Hrepc Hlcf)
        as (fp'' & Hrep'' & Hsub'' & Hwithin'').
      set (h2 := inject_at path leaf h1 lc citems) in *. clearbody h2.
      destruct Hwithin as [Hd1 Hw1]. destruct Hwithin'' as [Hd2 Hw2].
      exists ({[l]} ∪ (fp'' ∪ rest)). split; [|split].
      * apply Hset; [| |done| |].
        -- intros x Hx. apply Hw2; clear -Hx Hrest Hd1 Hdisj; set_solver.
        -- rewrite Hw2; [done|clear -Hldom Hd1; set_solver|done].
        -- clear -Hsub'' Hdisj Hrest Hd1. set_solver.
        -- clear -Hsub'' Hlf Hldom Hd1. set_solver.
      * clear -Hsub'' Hsub Hd1 Hd2. set_solver.
      * split; [clear -Hd1 Hd2; set_solver|]. intros x Hx Hnot.
        rewrite Hw2, Hw1; [done|done|clear -Hnot; set_solver| |].
        -- clear -Hx Hd1. set_solver.
        -- clear -Hsub Hx Hnot. set_solver.
    + assert (dict_set key (default (JDict []) (dict_get key jitems)) jitems
              = jitems) as Hid.
      { destruct Hcase as [[j Hj]|(l' & -> & Hl')].
        - rewrite Hj. by apply dict_set_id.
        - cbn in Edict. by rewrite Hl' in Edict. }
      exists ({[l]} ∪ (f ∪ rest)). split; [|split; [set_solver|]].
      * specialize (Hset h1 _ f (λ _ _, eq_refl) Hl1 Hv Hdisj Hlf).
        rewrite Hid in Hset.
        destruct (default (JDict []) (dict_get key jitems)); try done.
        by destruct (Hdict items0).
      * destruct Hwithin as [Hd1 Hw1]. split; [done|].
        intros x Hx Hnot. apply Hw1; set_solver.
Qed.

(** The loop body on the JSON value. *)
Definition jis_str (j : json) (s : string) : bool :=
  match j with
  | JStr s' => String.eqb s' s
  | _ => false
  end.

Definition inject_node_json (node : json) : json :=
  match node with
  | JDict jitems =>
      if jis_str (jget jitems "type") "component" then
        JDict (inject_at_json ["component_config"; "config_overrides"]
                 "system_prompt" jitems)
      else if jis_str (jget jitems "type") "llm" then
        JDict (inject_at_json ["llm_config"] "prompt_template" jitems)
      else if jis_str (jget jitems "kind") "component" then
        JDict (inject_at_json ["config"; "config_overrides"] "system_prompt"
                 jitems)
      else if jis_str (jget jitems "kind") "llm" then
        JDict (inject_at_json ["config"] "prompt_template" jitems)
      else node
  | _ => node
  end.

Lemma rep_is_str h items jitems fp key s :
  rep_items h items jitems fp →
  is_str (get items key) s = jis_str (jget jitems key) s.
Proof.
  intros Hrep. destruct (rep_get _ _ _ _ key Hrep) as (f & Hget & _).
  by destruct Hget.
Qed.

Lemma inject_node_rep h c v j fp :
  rep h v j fp →
  ∃ fp',
    rep (inject_node system_prompt (h, c) v).1 v (inject_node_json j) fp'
    ∧ fp' ⊆ fp ∪ (dom (inject_node system_prompt (h, c) v).1 ∖ dom h)
    ∧ within h (inject_node system_prompt (h, c) v).1 fp.
Proof.
  intros Hrep. pose proof (rep_as_dict _ _ _ _ Hrep) as Hdict.
  unfold inject_node. destruct (as_dict h v) as [[l items]|].
  - destruct Hdict as (jitems & f0 & -> & -> & Hl & Hitems & Hlf & ->).
    cbn [inject_node_json].
    rewrite !(rep_is_str _ _ _ _ _ _ Hitems).
    destruct (jis_str (jget jitems "type") "component").
    { rewrite inject_component_at. by apply inject_at_rep. }
    destruct (jis_str (jget jitems "type") "llm").
    { rewrite inject_llm_at. by apply inject_at_rep. }
    destruct (jis_str (jget jitems "kind") "component").
    { rewrite inject_component_at. by apply inject_at_rep. }
    destruct (jis_str (jget jitems "kind") "llm").
    { rewrite inject_llm_at. by apply inject_at_rep. }
    exists ({[l]} ∪ f0). cbn [fst].
    split; [by apply rep_dict_obj with items|].
    split; [set_solver|apply within_refl].
  - exists fp. cbn [fst]. split; [|split; [set_solver|apply within_refl]].
    destruct j; try done. by destruct (Hdict items).
Qed.

Lemma rep_list_eq h vs js fp fp' :
  rep_list h vs js fp → fp = fp' → rep_list h vs js fp'.
Proof. by intros ? <-. Qed.

Lemma inject_nodes_rep vs h c js fp :
  rep_list h vs js fp →
  ∃ fp',
    rep_list (foldl (inject_node system_prompt) (h, c) vs).1 vs
      (map inject_node_json js) fp'
    ∧ fp' ⊆ fp ∪ (dom (foldl (inject_node system_prompt) (h, c) vs).1 ∖ dom h)
    ∧ within h (foldl (inject_node system_prompt) (h, c) vs).1 fp.
Proof.
  revert h c js fp. induction vs as [|v vs IH]; intros h c js fp Hrep.
  - inversion Hrep; subst. exists ∅. cbn.
    split; [constructor|]. split; [set_solver|apply within_refl].
  - inversion Hrep as [|? ? j js' f1 f2 Hv Hvs Hdisj]; subst. cbn [foldl map].
    destruct (inject_node_rep h c v j f1 Hv) as (f1' & Hv' & Hsub1 & Hw1).
    destruct (inject_node system_prompt (h, c) v) as [h1 c1]. cbn [fst] in *.
    pose proof (rep_list_dom _ _ _ _ Hvs) as Hdom2.
    pose proof (rep_dom _ _ _ _ Hv') as Hdom1.
    assert (rep_list h1 vs js' f2) as Hvs1.
    { eapply rep_list_frame; [done|]. eapply within_agree; [done..|].
      clear -Hdisj. set_solver. }
    destruct (IH h1 c1 js' f2 Hvs1) as (f2' & Hvs' & Hsub2 & Hw2).
    set (h2 := (foldl (inject_node system_prompt) (h1, c1) vs).1) in *.
    clearbody h2. destruct Hw1 as [Hd1 Hw1]. destruct Hw2 as [Hd2 Hw2].
    exists (f1' ∪ f2'). split; [|split].
    + constructor; [|done|].
      * eapply rep_frame; [done|]. intros x Hx. apply Hw2.
        -- clear -Hx Hdom1. set_solver.
        -- clear -Hx Hsub1 Hdisj Hdom2. set_solver.
      * clear -Hsub1 Hsub2 Hdisj Hdom1 Hdom2. set_solver.
    + clear -Hsub1 Hsub2 Hd1 Hd2. set_solver.
    + split; [clear -Hd1 Hd2; set_solver|]. intros x Hx Hnot.
      rewrite Hw2, Hw1; [done|done| | |]; clear -Hx Hnot Hd1; set_solver.
Qed.

Lemma rep_dict_focus h l items jitems fp0 key v :
  h !! l = Some (Dict items) → rep_items h items jitems fp0 → l ∉ fp0 →
  dict_get key items = Some v →
  ∃ j f rest,
    dict_get key jitems = Some j ∧ rep h v j f ∧ f ## rest ∧ (l ∉ f)
    ∧ (l ∉ rest) ∧ f ∪ rest ⊆ fp0
    ∧ ∀ h' j' f',
        agree h h' rest → h' !! l = Some (Dict items) → rep h' v j' f' →
        f' ## rest → l ∉ f' →
        rep h' (VObj l) (JDict (dict_set key j' jitems)) ({[l]} ∪ (f' ∪ rest)).
Proof.
  intros Hl Hrep Hfp Ev.
  destruct (rep_items_focus _ _ _ _ key Hrep) as (rest & Hrest & Hget & Hset).
  rewrite Ev in Hget. destruct Hget as (j & f & Hj & Hv & Hdisj & Hsub).
  exists j, f, rest. split; [done|]. split; [done|]. split; [done|].
  split; [set_solver|]. split; [set_solver|]. split; [set_solver|].
  intros h' j' f' Hagree Hl' Hrep' Hdisj' Hnot.
  apply rep_dict_obj with items; [done| |set_solver].
  rewrite <- (dict_set_id key v items Ev) at 1. by apply Hset.
Qed.

Lemma get_obj items key l :
  get items key = VObj l → dict_get key items = Some (VObj l).
Proof. unfold get. destruct (dict_get key items) as [v|]; cbn; congruence. Qed.

Lemma jget_Some jitems key j :
  jget jitems key = j → j ≠ JNull → dict_get key jitems = Some j.
Proof. unfold jget. destruct (dict_get key jitems); cbn; congruence. Qed.

(** The loop over a node list that is the item [nodes] of a dict. *)
Lemma inject_nodes_in_dict h l items jitems fp0 c js :
  h !! l = Some (Dict items) → rep_items h items jitems fp0 → l ∉ fp0 →
  jget jitems "nodes" = JList js →
  ∃ ln vs,
    get items "nodes" = VObj ln ∧ h !! ln = Some (List vs)
    ∧ ∃ fp',
        rep (foldl (inject_node system_prompt) (h, c) vs).1 (VObj l)
          (JDict (dict_set "nodes" (JList (map inject_node_json js)) jitems))
          fp'
        ∧ fp' ⊆ ({[l]} ∪ fp0)
                ∪ (dom (foldl (inject_node system_prompt) (h, c) vs).1 ∖ dom h)
        ∧ within h (foldl (inject_node system_prompt) (h, c) vs).1 fp0.
Proof.
  intros Hl Hrep Hfp Hnodes.
  pose proof (rep_items_dom _ _ _ _ Hrep) as Hdom.
  pose proof (elem_of_dom_2 _ _ _ Hl) as Hldom.
  destruct (rep_get _ _ _ _ "nodes" Hrep) as (f & Hget & _).
  rewrite Hnodes in Hget.
  inversion Hget as [| | | | |ln vs js' fl Hln Hvs Hlnf Ev Ej Ef|]; subst js'.
  symmetry in Ev. apply get_obj in Ev as Hv.
  destruct (rep_dict_focus _ _ _ _ _ _ _ Hl Hrep Hfp Hv)
    as (j & f' & rest & Hj & Hrepv & Hdisj & Hlf & Hlrest & Hsub & Hset).
  apply jget_Some in Hnodes as Hjn; [|done]. rewrite Hjn in Hj.
  injection Hj as <-.
  inversion Hrepv as [| | | | |? vs' ? fl' Hln' Hvs' Hlnf' | ]; subst.
  rewrite Hln in Hln'. injection Hln' as <-.
  exists ln, vs. split; [done|]. split; [done|].
  destruct (inject_nodes_rep vs h c js fl' Hvs') as (fl'' & Hvs'' & Hsub' & Hw).
  set (h' := (foldl (inject_node system_prompt) (h, c) vs).1) in *.
  clearbody h'. destruct Hw as [Hd Hw].
  pose proof (elem_of_dom_2 _ _ _ Hln) as Hlndom.
  exists ({[l]} ∪ (({[ln]} ∪ fl'') ∪ rest)). split; [|split].
  - apply Hset.
    + intros x Hx. apply Hw; clear -Hx Hsub Hdom Hdisj; set_solver.
    + rewrite Hw; [done|done|]. clear -Hlf. set_solver.
    + apply rep_list_obj with vs; [|done|].
      * rewrite Hw; [done|done|done].
      * clear -Hsub' Hlnf' Hlndom. set_solver.
    + clear -Hsub' Hdisj Hsub Hdom. set_solver.
    + clear -Hsub' Hlf Hldom. set_solver.
  - clear -Hsub' Hsub. set_solver.
  - split; [done|]. intros x Hx Hnot. apply Hw; [done|].
    clear -Hnot Hsub. set_solver.
Qed.

(** The node list that the function finds: the item [nodes], or the item
    [nodes] of the dict [graph]. *)
Definition as_jlist (j : json) : option (list json) :=
  match j with
  | JList js => Some js
  | _ => None
  end.

Definition as_jdict (j : json) : option (list (string * json)) :=
  match j with
  | JDict items => Some items
  | _ => None
  end.

Definition nodes_of (jitems : list (string * json)) : option (list json) :=
  match as_jlist (jget jitems "nodes") with
  | Some js => Some js
  | None =>
      graph ← as_jdict (jget jitems "graph");
      as_jlist (jget graph "nodes")
  end.

(** The config with another node list in that place. *)
Definition with_nodes (jitems : list (string * json)) (js : list json)
    : list (string * json) :=
  match as_jlist (jget jitems "nodes"), as_jdict (jget jitems "graph") with
  | Some _, _ => dict_set "nodes" (JList js) jitems
  | None, Some graph =>
      dict_set "graph" (JDict (dict_set "nodes" (JList js) graph)) jitems
  | None, None => jitems
  end.

Lemma as_jlist_Some j js : as_jlist j = Some js → j = JList js.
Proof. destruct j; cbn; congruence. Qed.

Lemma as_jdict_Some j items : as_jdict j = Some items → j = JDict items.
Proof. destruct j; cbn; congruence. Qed.

Lemma rep_as_list_None h v j fp :
  rep h v j fp → as_jlist j = None → as_list h v = None.
Proof.
  intros Hrep Hj. pose proof (rep_as_list _ _ _ _ Hrep) as Hlist.
  destruct (as_list h v) as [[l vs]|]; [|done].
  destruct Hlist as (js & f0 & _ & -> & _). done.
Qed.

Lemma inject_system_prompt_rep fuel h config_dict jitems fp js :
  rep h config_dict (JDict jitems) fp → (size fp < fuel)%nat →
  nodes_of jitems = Some js →
  ∃ h' config c fp',
    _inject_system_prompt system_prompt fuel h config_dict
    = Some (h', config, c)
    ∧ h ⊆ h'
    ∧ rep h' config (JDict (with_nodes jitems (map inject_node_json js))) fp'
    ∧ fp' ## dom h.
Proof.
  intros Hrep Hfuel Hnodes.
  destruct (proj1 (deepcopy_rep_all h) _ _ _ Hrep fuel h Hfuel)
    as (h0 & config & fpc & Hcopy & Hsub0 & Hrepc & Hnew); [done|].
  unfold _inject_system_prompt. rewrite Hcopy. cbn [mbind option_bind].
  inversion Hrepc as [| | | | | |r items ? f0 Hr Hitems Hrf]; subst.
  cbn [as_dict]. rewrite Hr. cbn [mbind option_bind].
  pose proof (rep_items_dom _ _ _ _ Hitems) as Hdom0.
  pose proof (elem_of_dom_2 _ _ _ Hr) as Hrdom.
  apply subseteq_dom in Hsub0 as Hd0.
  set (c0 := {| merged_llm_nodes := 0; merged_component_nodes := 0;
                llm_nodes_with_node_prompt := 0;
                component_nodes_with_node_prompt := 0 |}).
  unfold nodes_of in Hnodes. unfold with_nodes.
  destruct (as_jlist (jget jitems "nodes")) as [js0|] eqn:Ejs.
  - injection Hnodes as ->. apply as_jlist_Some in Ejs.
    destruct (inject_nodes_in_dict _ _ _ _ _ c0 _ Hr Hitems Hrf Ejs)
      as (ln & vs & Hget & Hln & fp' & Hrep' & Hsub' & Hw).
    rewrite Hget. cbn [as_list]. rewrite Hln.
    rewrite bool_decide_eq_true_2 by eauto.
    cbn [iterated]. rewrite Hln. cbn [mbind option_bind].
    destruct (foldl (inject_node system_prompt) (h0, c0) vs) as [h' c'].
    cbn [fst] in *. destruct Hw as [Hd Hw].
    exists h', (VObj r), c', fp'. split; [done|]. split; [|split; [done|]].
    + apply map_subseteq_spec. intros x o Hx.
      rewrite Hw; [by eapply lookup_weaken| |].
      * apply elem_of_dom_2 in Hx. clear -Hx Hd0. set_solver.
      * apply elem_of_dom_2 in Hx. clear -Hx Hnew. set_solver.
    + clear -Hsub' Hnew Hd0. set_solver.
  - destruct (as_jdict (jget jitems "graph")) as [graph|] eqn:Egraph; [|done].
    cbn in Hnodes. apply as_jlist_Some in Hnodes. apply as_jdict_Some in Egraph.
    destruct (rep_get _ _ _ _ "nodes" Hitems) as (fn & Hgetn & _).
    rewrite (rep_as_list_None _ _ _ _ Hgetn Ejs).
    rewrite bool_decide_eq_false_2 by (by intros [? ?]).
    destruct (rep_get _ _ _ _ "graph" Hitems) as (fg & Hgetg & _).
    rewrite Egraph in Hgetg.
    inversion Hgetg as [| | | | | |lg gitems ? fg0 Hlg Hgitems Hlgf Ev]; subst.
    symmetry in Ev. apply get_obj in Ev as Hv. rewrite ?Ev.
    cbn [as_dict]. rewrite Hlg.
    destruct (rep_dict_focus _ _ _ _ _ _ _ Hr Hitems Hrf Hv)
      as (j & f' & rest & Hj & Hrepv & Hdisj & Hlf & Hlrest & Hsub & Hset).
    apply jget_Some in Egraph as Hjg; [|done]. rewrite Hjg in Hj.
    injection Hj as <-.
    inversion Hrepv as [| | | | | |? gitems' ? fg0' Hlg' Hgitems' Hlgf']; subst.
    rewrite Hlg in Hlg'. injection Hlg' as <-.
    destruct (inject_nodes_in_dict _ _ _ _ _ c0 _ Hlg Hgitems' Hlgf' Hnodes)
      as (ln & vs & Hget & Hln & fp' & Hrep' & Hsub' & Hw).
    rewrite Hget. cbn [as_list]. rewrite Hln.
    rewrite bool_decide_eq_true_2 by eauto.
    cbn [iterated]. rewrite Hln. cbn [mbind option_bind].
    destruct (foldl (inject_node system_prompt) (h0, c0) vs) as [h' c'].
    cbn [fst] in *. destruct Hw as [Hd Hw].
    pose proof (elem_of_dom_2 _ _ _ Hlg) as Hlgdom.
    exists h', (VObj r), c', ({[r]} ∪ (fp' ∪ rest)).
    split; [done|]. split; [|split].
    + apply map_subseteq_spec. intros x o Hx.
      rewrite Hw; [by eapply lookup_weaken| |].
      * apply elem_of_dom_2 in Hx. clear -Hx Hd0. set_solver.
      * apply elem_of_dom_2 in Hx. clear -Hx Hnew Hsub. set_solver.
    + apply Hset; [| |done| |].
      * intros x Hx. apply Hw; clear -Hx Hsub Hdom0 Hdisj; set_solver.
      * rewrite Hw; [done|done|]. clear -Hlf. set_solver.
      * clear -Hsub' Hdisj Hsub Hdom0. set_solver.
      * clear -Hsub' Hlf Hrdom. set_solver.
    + clear -Hsub' Hsub Hnew Hd0. set_solver.
Qed.

End Refinement.

(** *** Every JSON value can be stored as a tree *)

Lemma json_nested_ind (P : json → Prop) :
  P JNull → (∀ b, P (JBool b)) → (∀ n, P (JInt n)) → (∀ x, P (JFloat x)) →
  (∀ s, P (JStr s)) →
  (∀ js, Forall P js → P (JList js)) →
  (∀ items, Forall (λ kv, P kv.2) items → P (JDict items)) →
  ∀ j, P j.
Proof.
  intros HN HB HI HF HS HL HD. fix IH 1. intros [|b|n|x|s|js|items].
  - exact HN.
  - apply HB.
  - apply HI.
  - apply HF.
  - apply HS.
  - apply HL. revert js. fix IHjs 1.
    intros [|j js]; constructor; [apply IH|apply IHjs].
  - apply HD. revert items. fix IHitems 1.
    intros [|[k j] items]; constructor; [apply IH|apply IHitems].
Qed.

Lemma rep_eq h v j fp fp' : rep h v j fp → fp = fp' → rep h v j fp'.
Proof. by intros ? <-. Qed.

Lemma store_rep j h :
  h ⊆ (store h j).1
  ∧ rep (store h j).1 (store h j).2 j (dom (store h j).1 ∖ dom h).
Proof.
  revert h. induction j as [|b|n|x|s|js IH|items IH] using json_nested_ind;
    intros h; cbn [store fst snd].
  1-5: split; [done|]; eapply rep_eq; [constructor|set_solver].
  - assert (∀ h, h ⊆ (store_list store h js).1
                 ∧ rep_list (store_list store h js).1 (store_list store h js).2
                     js (dom (store_list store h js).1 ∖ dom h)) as Hlist.
    { clear h. induction IH as [|j js Hj _ IHjs]; intros h; cbn [store_list].
      - split; [done|]. eapply rep_list_eq; [constructor|set_solver].
      - destruct (Hj h) as [Hsub1 Hrep1].
        destruct (store h j) as [h1 v]. cbn [fst snd] in *.
        destruct (IHjs h1) as [Hsub2 Hrep2].
        destruct (store_list store h1 js) as [h2 vs]. cbn [fst snd] in *.
        split; [by etrans|].
        pose proof (rep_dom _ _ _ _ Hrep1) as Hdom1.
        apply subseteq_dom in Hsub1 as Hd1. apply subseteq_dom in Hsub2 as Hd2.
        eapply rep_list_eq.
        + constructor; [|exact Hrep2|].
          * eapply rep_frame; [exact Hrep1|]. apply agree_subseteq; [done|].
            set_solver.
          * set_solver.
        + clear -Hd1 Hd2. apply set_eq. intros x.
          rewrite elem_of_union, !elem_of_difference.
          split; [intros [[? ?]|[? ?]]; split; set_solver|].
          intros [? ?]. destruct (decide (x ∈ dom h1)); set_solver. }
    destruct (Hlist h) as [Hsub Hrep].
    destruct (store_list store h js) as [h1 vs]. cbn [fst snd] in *.
    destruct (alloc_spec h1 (List vs)) as (Hfresh & Hsub' & Halloc).
    destruct (alloc h1 (List vs)) as [h2 l]. cbn [fst snd] in *. subst h2.
    split; [by etrans|].
    apply subseteq_dom in Hsub as Hd.
    pose proof (rep_list_dom _ _ _ _ Hrep) as Hdom.
    eapply rep_eq.
    + apply rep_list_obj with vs; [by rewrite lookup_insert_eq| |].
      * eapply rep_list_frame; [exact Hrep|]. by apply agree_subseteq.
      * set_solver.
    + rewrite dom_insert_L. clear -Hd Hfresh. apply set_eq. intros x.
      rewrite !elem_of_union, !elem_of_difference, elem_of_union,
        elem_of_singleton.
      split; [intros [->|[? ?]]; split; set_solver|].
      intros [[->|?] ?]; [by left|by right].
  - assert (∀ h, h ⊆ (store_items store h items).1
                 ∧ rep_items (store_items store h items).1
                     (store_items store h items).2 items
                     (dom (store_items store h items).1 ∖ dom h)) as Hitems.
    { clear h. induction IH as [|[k j] items Hj _ IHitems]; intros h;
        cbn [store_items].
      - split; [done|]. eapply rep_items_eq; [constructor|set_solver].
      - cbn [snd] in Hj. destruct (Hj h) as [Hsub1 Hrep1].
        destruct (store h j) as [h1 v]. cbn [fst snd] in *.
        destruct (IHitems h1) as [Hsub2 Hrep2].
        destruct (store_items store h1 items) as [h2 vs]. cbn [fst snd] in *.
        split; [by etrans|].
        pose proof (rep_dom _ _ _ _ Hrep1) as Hdom1.
        apply subseteq_dom in Hsub1 as Hd1. apply subseteq_dom in Hsub2 as Hd2.
        eapply rep_items_eq.
        + constructor; [|exact Hrep2|].
          * eapply rep_frame; [exact Hrep1|]. apply agree_subseteq; [done|].
            set_solver.
          * set_solver.
        + clear -Hd1 Hd2. apply set_eq. intros x.
          rewrite elem_of_union, !elem_of_difference.
          split; [intros [[? ?]|[? ?]]; split; set_solver|].
          intros [? ?]. destruct (decide (x ∈ dom h1)); set_solver. }
    destruct (Hitems h) as [Hsub Hrep].
    destruct (store_items store h items) as [h1 vs]. cbn [fst snd] in *.
    destruct (alloc_spec h1 (Dict vs)) as (Hfresh & Hsub' & Halloc).
    destruct (alloc h1 (Dict vs)) as [h2 l]. cbn [fst snd] in *. subst h2.
    split; [by etrans|].
    apply subseteq_dom in Hsub as Hd.
    pose proof (rep_items_dom _ _ _ _ Hrep) as Hdom.
    eapply rep_eq.
    + apply rep_dict_obj with vs; [by rewrite lookup_insert_eq| |].
      * eapply rep_items_frame; [exact Hrep|]. by apply agree_subseteq.
      * set_solver.
    + rewrite dom_insert_L. clear -Hd Hfresh. apply set_eq. intros x.
      rewrite !elem_of_union, !elem_of_difference, elem_of_union,
        elem_of_singleton.
      split; [intros [->|[? ?]]; split; set_solver|].
      intros [[->|?] ?]; [by left|by right].
Qed.

(** *** The merged prompt *)

Lemma startswith_app p s : Py.startswith p (p ++ s) = true.
Proof.
  induction p as [|a p IH]; [done|].
  change (String a p ++ s) with (String a (p ++ s)). cbn [Py.startswith].
  by rewrite Ascii.eqb_refl.
Qed.

Lemma contains_startswith p s : Py.startswith p s = true → Py.contains p s = true.
Proof. destruct s; cbn [Py.contains]; by intros ->. Qed.

Lemma contains_app_l p a s : Py.contains p s = true → Py.contains p (a ++ s) = true.
Proof.
  intros Hs. induction a as [|c a IH]; [done|].
  change (String c a ++ s) with (String c (a ++ s)). cbn [Py.contains].
  rewrite IH. by destruct (Py.startswith p _).
Qed.

Lemma merge_layered_prompt_both system_prompt p :
  Py.strip system_prompt ≠ "" → Py.strip p ≠ "" →
  merge_layered_prompt system_prompt (VStr p)
  = Py.strip system_prompt ++ newline ++ newline ++ "<NODE_PROMPT>" ++ newline
    ++ Py.strip p ++ newline ++ "</NODE_PROMPT>"
  ∧ Py.startswith (Py.strip system_prompt)
      (merge_layered_prompt system_prompt (VStr p)) = true
  ∧ Py.contains "<NODE_PROMPT>" (merge_layered_prompt system_prompt (VStr p))
    = true
  ∧ Py.contains (Py.strip p) (merge_layered_prompt system_prompt (VStr p))
    = true.
Proof.
  intros Hbase%String.eqb_neq Hnode%String.eqb_neq. unfold merge_layered_prompt.
  rewrite Hbase, Hnode. cbn [negb andb].
  split; [done|]. split; [apply startswith_app|]. split.
  - do 3 apply contains_app_l. apply contains_startswith, startswith_app.
  - do 5 apply contains_app_l. apply contains_startswith, startswith_app.
Qed.

Lemma merge_layered_prompt_base system_prompt existing :
  Py.strip system_prompt ≠ "" → has_prompt existing = false →
  merge_layered_prompt system_prompt existing = Py.strip system_prompt.
Proof.
  intros Hbase%String.eqb_neq Hnode. unfold merge_layered_prompt.
  rewrite Hbase. cbn [negb andb].
  destruct existing; cbn in Hnode |- *; try done.
  apply negb_false_iff in Hnode. by rewrite Hnode.
Qed.

(** *** The nodes of the result *)

(** The key of the config of a node that the loop body handles as an LLM
    node, and as a component node. *)
Definition llm_section (jitems : list (string * json)) : option string :=
  if jis_str (jget jitems "type") "component" then None
  else if jis_str (jget jitems "type") "llm" then Some "llm_config"
  else if jis_str (jget jitems "kind") "component" then None
  else if jis_str (jget jitems "kind") "llm" then Some "config"
  else None.

Definition component_section (jitems : list (string * json)) : option string :=
  if jis_str (jget jitems "type") "component" then Some "component_config"
  else if jis_str (jget jitems "type") "llm" then None
  else if jis_str (jget jitems "kind") "component" then Some "config"
  else None.

(** The dict under [key], where the item is absent or a dict. *)
Definition section_of (jitems : list (string * json)) (key : string)
    : option (list (string * json)) :=
  as_jdict (default (JDict []) (dict_get key jitems)).

Lemma inject_at_json_step system_prompt key path leaf jitems sub :
  section_of jitems key = Some sub →
  inject_at_json system_prompt (key :: path) leaf jitems
  = dict_set key (JDict (inject_at_json system_prompt path leaf sub)) jitems.
Proof.
  unfold section_of. intros Hsub%as_jdict_Some. cbn [inject_at_json].
  by rewrite Hsub.
Qed.

Lemma inject_node_json_llm system_prompt nitems section sub :
  llm_section nitems = Some section →
  section_of nitems section = Some sub →
  ∃ nitems',
    inject_node_json system_prompt (JDict nitems) = JDict nitems'
    ∧ dict_get section nitems'
      = Some (JDict (dict_set "prompt_template"
                       (JStr (merge_layered_prompt system_prompt
                                (prompt_value (jget sub "prompt_template"))))
                       sub)).
Proof.
  unfold llm_section. cbn [inject_node_json]. intros Hsection Hsub.
  destruct (jis_str (jget nitems "type") "component"); [done|].
  destruct (jis_str (jget nitems "type") "llm").
  { injection Hsection as <-. eexists. split; [done|].
    rewrite (inject_at_json_step _ _ _ _ _ _ Hsub). by rewrite dict_get_set. }
  destruct (jis_str (jget nitems "kind") "component"); [done|].
  destruct (jis_str (jget nitems "kind") "llm"); [|done].
  injection Hsection as <-. eexists. split; [done|].
  rewrite (inject_at_json_step _ _ _ _ _ _ Hsub). by rewrite dict_get_set.
Qed.

Lemma inject_node_json_component system_prompt nitems section comp overrides :
  component_section nitems = Some section →
  section_of nitems section = Some comp →
  section_of comp "config_overrides" = Some overrides →
  ∃ nitems',
    inject_node_json system_prompt (JDict nitems) = JDict nitems'
    ∧ dict_get section nitems'
      = Some (JDict (dict_set "config_overrides"
                       (JDict (dict_set "system_prompt"
                                 (JStr (merge_layered_prompt system_prompt
                                          (prompt_value
                                             (jget overrides "system_prompt"))))
                                 overrides))
                       comp)).
Proof.
  unfold component_section. cbn [inject_node_json].
  intros Hsection Hcomp Hoverrides.
  destruct (jis_str (jget nitems "type") "component").
  { injection Hsection as <-. eexists. split; [done|].
    rewrite (inject_at_json_step _ _ _ _ _ _ Hcomp).
    rewrite (inject_at_json_step _ _ _ _ _ _ Hoverrides).
    by rewrite dict_get_set. }
  destruct (jis_str (jget nitems "type") "llm"); [done|].
  destruct (jis_str (jget nitems "kind") "component"); [|done].
  injection Hsection as <-. eexists. split; [done|].
  rewrite (inject_at_json_step _ _ _ _ _ _ Hcomp).
  rewrite (inject_at_json_step _ _ _ _ _ _ Hoverrides).
  by rewrite dict_get_set.
Qed.

Lemma dict_get_set_ne {V : Type} (k k' : string) (v : V) items :
  k ≠ k' → dict_get k (dict_set k' v items) = dict_get k items.
Proof.
  intros Hne%String.eqb_neq.
  induction items as [|[k0 v0] items IH]; cbn; [by rewrite Hne|].
  destruct (String.eqb k' k0) eqn:E; cbn.
  - apply String.eqb_eq in E as ->. by rewrite Hne.
  - by rewrite IH.
Qed.

Lemma nodes_of_with_nodes jitems js js' :
  nodes_of jitems = Some js → nodes_of (with_nodes jitems js') = Some js'.
Proof.
  unfold nodes_of, with_nodes.
  destruct (as_jlist (jget jitems "nodes")) as [js0|] eqn:Ejs.
  - intros _. unfold jget. by rewrite dict_get_set.
  - destruct (as_jdict (jget jitems "graph")) as [graph|]; [|done]. intros _.
    unfold jget in *. rewrite dict_get_set_ne by done. rewrite Ejs.
    rewrite dict_get_set. cbn. by rewrite dict_get_set.
Qed.

(** The template of the first node of a v2 config. *)
Definition first_template (config : json) : option json :=
  items ← as_jdict config;
  nodes ← as_jlist (jget items "nodes");
  node ← head nodes;
  node_items ← as_jdict node;
  llm_config ← as_jdict (jget node_items "llm_config");
  dict_get "prompt_template" llm_config.

(** Over a node prompt of one blank, which is not empty, the system prompt
    [Policy] gives the template [Policy], without a [<NODE_PROMPT>] block; a
    system prompt with a blank before [Policy] gives, over the node prompt
    [Default], a template that starts with [Policy] and not with the blank. *)
Lemma inject_blank_prompts :
  (∃ before after,
     run (llm_config_v2 [" "]) "Policy" = Some (before, after)
     ∧ first_template before = Some (JStr " ")
     ∧ first_template after = Some (JStr "Policy")
     ∧ Py.contains "<NODE_PROMPT>" "Policy" = false)
  ∧ (∃ before after template,
       run (llm_config_v2 ["Default"]) " Policy" = Some (before, after)
       ∧ first_template before = Some (JStr "Default")
       ∧ first_template after = Some (JStr template)
       ∧ Py.startswith " Policy" template = false
       ∧ Py.startswith "Policy" template = true).
Proof.
  split.
  - eexists _, _. split; [vm_compute; reflexivity|]. by vm_compute.
  - eexists _, _, _. split; [vm_compute; reflexivity|].
    split; [by vm_compute|]. split; [vm_compute; reflexivity|]. by vm_compute.
Qed.

(** C7 (amended).  For a config that is a JSON dict with a node list, under
    [nodes] or under [graph.nodes], the function returns a copy made of new
    objects and leaves every object of the store as it was, so the input is
    the same value afterwards.  The copy has a node list of the same length.
    In it every LLM node whose config is absent or a dict has as its
    [prompt_template], and every component node whose config and
    [config_overrides] are absent or dicts has as its
    [config_overrides.system_prompt], the merge of the system prompt with the
    prompt that the node had.  The merge strips both prompts: when both are
    non-empty after that, it is the stripped system prompt, an empty line,
    and the stripped node prompt between the lines [<NODE_PROMPT>] and
    [</NODE_PROMPT>], so it starts with the stripped system prompt and
    contains [<NODE_PROMPT>] and the stripped node prompt; when the node has
    no prompt, or one that is no string or is empty after stripping, it is
    the stripped system prompt. *)
Theorem inject_system_prompt_layers (system_prompt : string) (fuel : nat)
    (h : heap) (config_dict : value) (jitems : list (string * json))
    (fp : gset loc) (js : list json) :
  rep h config_dict (JDict jitems) fp →
  (size fp < fuel)%nat →
  nodes_of jitems = Some js →
  ∃ h' config c jitems' fp' js',
    _inject_system_prompt system_prompt fuel h config_dict
    = Some (h', config, c)
    ∧ h ⊆ h'
    ∧ rep h' config_dict (JDict jitems) fp
    ∧ rep h' config (JDict jitems') fp'
    ∧ fp' ## dom h
    ∧ nodes_of jitems' = Some js'
    ∧ length js' = length js
    ∧ (∀ i nitems section llm_config,
         js !! i = Some (JDict nitems) →
         llm_section nitems = Some section →
         section_of nitems section = Some llm_config →
         ∃ nitems' llm_config',
           js' !! i = Some (JDict nitems')
           ∧ dict_get section nitems' = Some (JDict llm_config')
           ∧ dict_get "prompt_template" llm_config'
             = Some (JStr (merge_layered_prompt system_prompt
                             (prompt_value
                                (jget llm_config "prompt_template")))))
    ∧ (∀ i nitems section comp_config overrides,
         js !! i = Some (JDict nitems) →
         component_section nitems = Some section →
         section_of nitems section = Some comp_config →
         section_of comp_config "config_overrides" = Some overrides →
         ∃ nitems' comp_config' overrides',
           js' !! i = Some (JDict nitems')
           ∧ dict_get section nitems' = Some (JDict comp_config')
           ∧ dict_get "config_overrides" comp_config' = Some (JDict overrides')
           ∧ dict_get "system_prompt" overrides'
             = Some (JStr (merge_layered_prompt system_prompt
                             (prompt_value (jget overrides "system_prompt")))))
    ∧ (∀ p,
         Py.strip system_prompt ≠ "" → Py.strip p ≠ "" →
         merge_layered_prompt system_prompt (VStr p)
         = Py.strip system_prompt ++ newline ++ newline ++ "<NODE_PROMPT>"
           ++ newline ++ Py.strip p ++ newline ++ "</NODE_PROMPT>"
         ∧ Py.startswith (Py.strip system_prompt)
             (merge_layered_prompt system_prompt (VStr p)) = true
         ∧ Py.contains "<NODE_PROMPT>"
             (merge_layered_prompt system_prompt (VStr p)) = true
         ∧ Py.contains (Py.strip p)
             (merge_layered_prompt system_prompt (VStr p)) = true)
    ∧ (∀ existing,
         Py.strip system_prompt ≠ "" → has_prompt existing = false →
         merge_layered_prompt system_prompt existing = Py.strip system_prompt).
Proof.
  intros Hrep Hfuel Hnodes.
  destruct (inject_system_prompt_rep system_prompt fuel h config_dict jitems fp
              js Hrep Hfuel Hnodes)
    as (h' & config & c & fp' & Hrun & Hsub & Hrep' & Hnew).
  exists h', config, c,
    (with_nodes jitems (map (inject_node_json system_prompt) js)), fp',
    (map (inject_node_json system_prompt) js).
  split; [done|]. split; [done|]. split.
  { eapply rep_frame; [done|]. apply agree_subseteq; [done|].
    by eapply rep_dom. }
  split; [done|]. split; [done|].
  split; [by eapply nodes_of_with_nodes|]. split; [by rewrite length_map|].
  split; [|split; [|split]].
  - intros i nitems section llm_config Hi Hsection Hllm.
    destruct (inject_node_json_llm system_prompt _ _ _ Hsection Hllm)
      as (nitems' & Hnode & Hget).
    exists nitems'. eexists. split; [|split; [exact Hget|]].
    + change (map ?f js) with (f <$> js). by rewrite list_lookup_fmap, Hi, <- Hnode.
    + by rewrite dict_get_set.
  - intros i nitems section comp_config overrides Hi Hsection Hcomp Hoverrides.
    destruct (inject_node_json_component system_prompt _ _ _ _ Hsection Hcomp
                Hoverrides) as (nitems' & Hnode & Hget).
    exists nitems'. eexists _, _. split; [|split; [exact Hget|split]].
    + change (map ?f js) with (f <$> js). by rewrite list_lookup_fmap, Hi, <- Hnode.
    + by rewrite dict_get_set.
    + by rewrite dict_get_set.
  - intros p. apply merge_layered_prompt_both.
  - intros existing. apply merge_layered_prompt_base.
Qed.

Lemma inject_system_prompt_layers_witness :
  ∃ h' config c,
    _inject_system_prompt "Policy" 16 (store ∅ (llm_config_v2 ["Default"])).1
      (store ∅ (llm_config_v2 ["Default"])).2
    = Some (h', config, c)
    ∧ (store ∅ (llm_config_v2 ["Default"])).1 ⊆ h'.
Proof.
  destruct (inject_system_prompt_layers "Policy" 16
              (store ∅ (llm_config_v2 ["Default"])).1
              (store ∅ (llm_config_v2 ["Default"])).2
              [ ("version", JStr "2.0");
                ("nodes",
                 JList [ JDict [ ("id", JStr "agent1"); ("type", JStr "llm");
                                 ("llm_config",
                                  JDict [("prompt_template", JStr "Default")]) ] ]);
                ("edges", JList []) ]
              (dom (store ∅ (llm_config_v2 ["Default"])).1 ∖ dom (∅ : heap))
              [ JDict [ ("id", JStr "agent1"); ("type", JStr "llm");
                        ("llm_config",
                         JDict [("prompt_template", JStr "Default")]) ] ])
    as (h' & config & c & _ & _ & _ & Hrun & Hsub & _).
  - exact (proj2 (store_rep (llm_config_v2 ["Default"]) ∅)).
  - vm_compute. lia.
  - reflexivity.
  - by exists h', config, c.
Defined.

End Factory.

(** * What parsing guarantees *)

Module SchemaSpec.
Import Json Schema Fixtures.
Import Canonicalizer.

Ltac bind_inv H :=
  match type of H with
  | (?m ≫= _) = Some _ =>
      let E := fresh "E" in
      destruct m eqn:E; cbn [mbind option_bind] in H; [|discriminate H]
  end.

Section Sound.
Context (P : Pydantic).

Lemma required_sound {A : Type} (ok : A → Prop) items name
    (v : json → option A) a :
  (∀ j a, v j = Some a → ok a) → required items name v = Some a → ok a.
Proof.
  intros Hv. unfold required. destruct (dict_get name items); cbn; [|done].
  apply Hv.
Qed.

Lemma nullable_sound {A : Type} (ok : A → bool) (v : json → option A) j o :
  (∀ j a, v j = Some a → ok a = true) →
  nullable v j = Some o → from_option ok true o = true.
Proof.
  intros Hv. unfold nullable.
  destruct j; try (by intros [= <-]);
    (destruct (v _) as [a|] eqn:E; cbn; [|done]; intros [= <-]; cbn;
     by eapply Hv).
Qed.

Lemma ModelDependencyRef_validate_sound j m :
  ModelDependencyRef_validate P j = Some m → nonempty (mdr_key m) = true.
Proof.
  unfold ModelDependencyRef_validate. intros H. repeat bind_inv H.
  injection H as <-. cbn.
  match goal with
  | E : required _ "key" _ = Some _ |- _ =>
      by apply (required_sound (λ s, nonempty s = true)) in E;
        [|apply v_str1_sound]
  end.
Qed.

Lemma PromptDependencyRef_validate_sound j p :
  PromptDependencyRef_validate P j = Some p → nonempty (pdr_key p) = true.
Proof.
  unfold PromptDependencyRef_validate. intros H. repeat bind_inv H.
  injection H as <-. cbn.
  match goal with
  | E : required _ "key" _ = Some _ |- _ =>
      by apply (required_sound (λ s, nonempty s = true)) in E;
        [|apply v_str1_sound]
  end.
Qed.

Lemma ComponentDependencyRef_validate_sound j c :
  ComponentDependencyRef_validate P j = Some c → nonempty (cdr_key c) = true.
Proof.
  unfold ComponentDependencyRef_validate. intros H. repeat bind_inv H.
  injection H as <-. cbn.
  match goal with
  | E : required _ "key" _ = Some _ |- _ =>
      by apply (required_sound (λ s, nonempty s = true)) in E;
        [|apply v_str1_sound]
  end.
Qed.

Lemma GraphDeps_validate_sound j d :
  GraphDeps_validate P j = Some d → GraphDeps_ok d = true.
Proof.
  unfold GraphDeps_validate. intros H. repeat bind_inv H.
  injection H as <-. unfold GraphDeps_ok. cbn.
  repeat match goal with
  | E : defaulted _ "models" _ _ = Some _ |- _ =>
      apply (defaulted_sound (forallb (λ m, nonempty (mdr_key m)))) in E;
        [rewrite E; clear E|done|
         intros ? ?; apply list_of_sound; intros ? ?; apply ModelDependencyRef_validate_sound]
  | E : defaulted _ "prompts" _ _ = Some _ |- _ =>
      apply (defaulted_sound (forallb (λ m, nonempty (pdr_key m)))) in E;
        [rewrite E; clear E|done|
         intros ? ?; apply list_of_sound; intros ? ?; apply PromptDependencyRef_validate_sound]
  | E : defaulted _ "components" _ _ = Some _ |- _ =>
      apply (defaulted_sound (forallb (λ m, nonempty (cdr_key m)))) in E;
        [rewrite E; clear E|done|
         intros ? ?; apply list_of_sound; intros ? ?; apply ComponentDependencyRef_validate_sound]
  end.
  done.
Qed.

Lemma temperature_sound j o :
  nullable (λ j, f ← lax_float P j; check (float_in_0_2 f);; Some f) j = Some o →
  from_option float_in_0_2 true o = true.
Proof.
  apply nullable_sound. intros j' f Hf.
  destruct (lax_float P j') as [f'|]; cbn in Hf; [|done].
  unfold check in Hf. destruct (float_in_0_2 f') eqn:Ef; cbn in Hf; [|done].
  by injection Hf as <-.
Qed.

Lemma NodeConfig_validate_sound k j c :
  NodeConfig_validate P k j = Some c → NodeConfig_ok c = true.
Proof.
  destruct k; cbn [NodeConfig_validate].
  - destruct (LLMNodeConfig_validate P j) as [c'|] eqn:E; cbn; [|done].
    intros [= <-]. cbn. unfold LLMNodeConfig_validate in E.
    repeat bind_inv E. injection E as <-. cbn.
    repeat match goal with
    | E : defaulted _ "temperature_override" _ _ = Some _ |- _ =>
        apply (defaulted_sound (from_option float_in_0_2 true)) in E;
          [rewrite E; clear E|done|apply temperature_sound]
    | E : defaulted _ "max_iterations" _ _ = Some _ |- _ =>
        apply (defaulted_sound (λ n, 1 <=? n)) in E;
          [rewrite E; clear E|done|apply v_int_ge_sound]
    end.
    done.
  - destruct (ToolNodeConfig_validate P j) as [c'|] eqn:E; cbn; [|done].
    intros [= <-]. cbn. unfold ToolNodeConfig_validate in E.
    repeat bind_inv E. injection E as <-. cbn.
    match goal with
    | E : defaulted _ "timeout_seconds" _ _ = Some _ |- _ =>
        by apply (defaulted_sound (λ n, (1 <=? n) && (n <=? 600))) in E;
          [|done|apply v_int_range_sound]
    end.
  - destruct (TransformNodeConfig_validate P j) as [c'|]; cbn; [|done].
    by intros [= <-].
  - destruct (ComponentNodeConfig_validate P j) as [c'|] eqn:E; cbn; [|done].
    intros [= <-]. cbn. unfold ComponentNodeConfig_validate in E.
    repeat bind_inv E. injection E as <-. cbn.
    match goal with
    | E : required _ "component_ref" _ = Some _ |- _ =>
        apply (required_sound (λ r, nonempty (cr_key r) = true)) in E; [done|]
    end.
    intros j' r Hr. unfold ComponentReference_validate in Hr.
    repeat bind_inv Hr. injection Hr as <-. cbn.
    match goal with
    | E : required _ "key" _ = Some _ |- _ =>
        by apply (required_sound (λ s, nonempty s = true)) in E;
          [|apply v_str1_sound]
    end.
Qed.

Lemma GraphNodeConfig_validate_sound j n :
  GraphNodeConfig_validate P j = Some n → GraphNodeConfig_ok n = true.
Proof.
  unfold GraphNodeConfig_validate. intros H. repeat bind_inv H.
  injection H as <-. unfold GraphNodeConfig_ok. cbn.
  repeat match goal with
  | E : required _ "id" _ = Some _ |- _ =>
      apply (required_sound (λ s, nonempty s = true)) in E;
        [rewrite E; clear E|apply v_str1_sound]
  | E : required _ "name" _ = Some _ |- _ =>
      apply (required_sound (λ s, nonempty s = true)) in E;
        [rewrite E; clear E|apply v_str1_sound]
  | E : required _ "config" _ = Some _ |- _ =>
      apply (required_sound (λ c, NodeConfig_ok c = true)) in E;
        [rewrite E; clear E|apply NodeConfig_validate_sound]
  end.
  done.
Qed.

Lemma EdgeWhen_validate_sound j w :
  EdgeWhen_validate P j = Some w → EdgeWhen_ok w = true.
Proof.
  destruct j; cbn [EdgeWhen_validate]; try done.
  - by intros [= <-].
  - destruct (BuiltinEdgeCondition_validate _); cbn; [|done]. by intros [= <-].
  - destruct (EdgePredicate_validate P (JDict items)) as [p|] eqn:E; cbn;
      [|done].
    intros [= <-]. cbn. unfold EdgePredicate_validate in E.
    repeat bind_inv E. injection E as <-. cbn.
    match goal with
    | E : required _ "state_path" _ = Some _ |- _ =>
        by apply (required_sound (λ s, nonempty s = true)) in E;
          [|apply v_str1_sound]
    end.
Qed.

Lemma GraphEdgeConfig_validate_sound j e :
  GraphEdgeConfig_validate P j = Some e → GraphEdgeConfig_ok e = true.
Proof.
  unfold GraphEdgeConfig_validate. intros H. repeat bind_inv H.
  injection H as <-. unfold GraphEdgeConfig_ok. cbn.
  repeat match goal with
  | E : required _ "from_node" _ = Some _ |- _ =>
      apply (required_sound (λ s, nonempty s = true)) in E;
        [rewrite E; clear E|apply v_str1_sound]
  | E : required _ "to_node" _ = Some _ |- _ =>
      apply (required_sound (λ s, nonempty s = true)) in E;
        [rewrite E; clear E|apply v_str1_sound]
  | E : defaulted _ "when" _ _ = Some _ |- _ =>
      apply (defaulted_sound EdgeWhen_ok) in E;
        [rewrite E; clear E|done|apply EdgeWhen_validate_sound]
  end.
  done.
Qed.

Lemma size_list_to_set_cons (a : string) (l : list string) :
  size (list_to_set (a :: l) : gset string)
  = if decide (a ∈ l) then size (list_to_set l : gset string)
    else S (size (list_to_set l : gset string)).
Proof.
  cbn [list_to_set]. case_decide as Hin.
  - f_equal. apply set_eq. intros x.
    rewrite elem_of_union, elem_of_singleton, elem_of_list_to_set.
    split; [intros [->|?]; done|by right].
  - rewrite size_union, size_singleton; [done|].
    apply disjoint_singleton_l. by rewrite elem_of_list_to_set.
Qed.

Lemma size_list_to_set_le (l : list string) :
  (size (list_to_set l : gset string) ≤ length l)%nat.
Proof.
  induction l as [|a l IH]; [cbn; by rewrite size_empty|].
  rewrite size_list_to_set_cons. cbn [length]. case_decide; lia.
Qed.

Lemma size_list_to_set_NoDup (l : list string) :
  size (list_to_set l : gset string) = length l → NoDup l.
Proof.
  induction l as [|a l IH]; [constructor|].
  rewrite size_list_to_set_cons. cbn [length].
  pose proof (size_list_to_set_le l) as Hle.
  case_decide as Hin; [lia|]. intros Hsize.
  constructor; [done|]. apply IH. lia.
Qed.

Lemma GraphIR_validate_sound j g :
  GraphIR_validate P j = Some g → GraphIR_ok g = true.
Proof.
  unfold GraphIR_validate. intros H.
  destruct (model_fields _ j) as [items|]; cbn [mbind option_bind] in H; [|done].
  destruct (required items "nodes" _) as [n|] eqn:En;
    cbn [mbind option_bind] in H; [|done].
  destruct (required items "edges" _) as [e|] eqn:Ee;
    cbn [mbind option_bind] in H; [|done].
  destruct (required items "entrypoints" _) as [ep|] eqn:Eep;
    cbn [mbind option_bind] in H; [|done].
  injection H as <-. unfold GraphIR_ok. cbn [nodes edges entrypoints].
  apply (required_sound (λ l, forallb GraphNodeConfig_ok l = true)) in En.
  2: { intros ? ?. apply list_of_sound. intros ? ?.
       apply GraphNodeConfig_validate_sound. }
  apply (required_sound (λ l, forallb GraphEdgeConfig_ok l = true)) in Ee.
  2: { intros ? ?. apply list_of_sound. intros ? ?.
       apply GraphEdgeConfig_validate_sound. }
  unfold required in Eep.
  destruct (dict_get "entrypoints" items) as [jep|]; cbn [mbind option_bind] in Eep;
    [|done].
  assert ((1 <=? length ep)%nat = true ∧ NoDup ep) as [Hlen Hnd].
  { destruct (list_of (v_str P) jep) as [l'|] eqn:El;
      cbn [mbind option_bind] in Eep; [|done].
    unfold check in Eep.
    destruct (1 <=? length l')%nat eqn:E1; cbn [mbind option_bind] in Eep;
      [|done].
    unfold _validate_entrypoints_unique, check in Eep.
    destruct (bool_decide (size (list_to_set l' : gset string) = length l'))
      eqn:E2; cbn [mbind option_bind] in Eep; [|done].
    injection Eep as <-. split; [done|].
    apply size_list_to_set_NoDup. by eapply bool_decide_eq_true. }
  rewrite En, Ee, Hlen. by rewrite bool_decide_eq_true_2.
Qed.

Lemma schema_version_sound j s :
  match j with
  | JStr s => check (String.eqb s "3.0");; Some s
  | _ => None
  end = Some s →
  s = "3.0".
Proof.
  destruct j as [| | | |s'| |]; try done.
  unfold check. destruct (String.eqb s' "3.0") eqn:Es; cbn; [|done].
  intros [= <-]. by apply String.eqb_eq.
Qed.

Lemma prompt_config_sound j p :
  PydanticLaws P →
  nullable (PromptConfig_validate P) j = Some (Some p) →
  PromptConfig_validate P p = Some p.
Proof.
  intros HP. unfold nullable. intros H.
  assert (∃ j0, PromptConfig_validate P j0 = Some p) as [j0 Hj0].
  { destruct j; try done; cbn in H;
      match type of H with
      | Some <$> PromptConfig_validate P ?x = _ =>
          exists x; destruct (PromptConfig_validate P x); cbn in H; congruence
      end. }
  by eapply (PromptConfig_validate_dump P HP).
Qed.

Lemma GraphConfig_validate_sound j c :
  PydanticLaws P → GraphConfig_validate P j = Some c → GraphConfig_ok P c.
Proof.
  intros HP. unfold GraphConfig_validate. intros H.
  destruct (model_fields _ j) as [items|]; cbn [mbind option_bind] in H; [|done].
  destruct (defaulted items "schema_version" _ _) as [sv|] eqn:Esv;
    cbn [mbind option_bind] in H; [|done].
  destruct (required items "key" _) as [k|] eqn:Ek;
    cbn [mbind option_bind] in H; [|done].
  destruct (defaulted items "revision" _ _) as [r|] eqn:Er;
    cbn [mbind option_bind] in H; [|done].
  destruct (required items "graph" _) as [g|] eqn:Eg;
    cbn [mbind option_bind] in H; [|done].
  destruct (defaulted items "state" _ _) as [st|] eqn:Est;
    cbn [mbind option_bind] in H; [|done].
  destruct (defaulted items "deps" _ _) as [d|] eqn:Ed;
    cbn [mbind option_bind] in H; [|done].
  destruct (defaulted items "limits" _ _) as [l|] eqn:El;
    cbn [mbind option_bind] in H; [|done].
  destruct (defaulted items "prompt_config" _ _) as [pc|] eqn:Epc;
    cbn [mbind option_bind] in H; [|done].
  destruct (defaulted items "metadata" _ _) as [m|] eqn:Em;
    cbn [mbind option_bind] in H; [|done].
  destruct (defaulted items "ui" _ _) as [u|] eqn:Eu;
    cbn [mbind option_bind] in H; [|done].
  injection H as <-. unfold GraphConfig_ok.
  cbn [schema_version key revision graph deps limits prompt_config].
  split.
  { unfold defaulted in Esv. destruct (dict_get "schema_version" items);
      [by eapply schema_version_sound|by injection Esv as <-]. }
  split.
  { eapply (required_sound (λ s, nonempty s = true)); [|exact Ek].
    apply v_str1_sound. }
  split.
  { apply Z.leb_le.
    apply (defaulted_sound (λ n, 1 <=? n)) in Er; [done|done|].
    apply v_int_ge_sound. }
  split.
  { eapply (required_sound (λ g, GraphIR_ok g = true)); [|exact Eg].
    apply GraphIR_validate_sound. }
  split.
  { apply (defaulted_sound (from_option GraphDeps_ok true)) in Ed; [done|done|].
    intros ? ?. apply nullable_sound. apply GraphDeps_validate_sound. }
  split.
  { apply (defaulted_sound GraphExecutionLimits_ok) in El; [done|done|].
    apply GraphExecutionLimits_validate_sound. }
  intros p ->. unfold defaulted in Epc.
  destruct (dict_get "prompt_config" items); [|done].
  by eapply prompt_config_sound.
Qed.

End Sound.

(** X1.  A payload that [parse_graph_config] accepts gives a configuration
    that satisfies the constraints of the schema (non-empty keys, ids and
    names, the ranges of the limits and of the node settings, at least one
    entrypoint and no entrypoint twice), and whose dump is parsed to the
    same configuration again. *)
Theorem parse_dump_parse (P : Pydantic) (raw : json) (config : GraphConfig) :
  PydanticLaws P →
  parse_graph_config P raw = Some config →
  GraphConfig_ok P config
  ∧ parse_graph_config P (GraphConfig_dump config) = Some config.
Proof.
  intros HP Hparse. unfold parse_graph_config in *.
  pose proof (GraphConfig_validate_sound P raw config HP Hparse) as Hok.
  split; [done|]. by apply GraphConfig_round_trip.
Qed.

Lemma parse_dump_parse_witness :
  GraphConfig_ok strict ordering_test
  ∧ parse_graph_config strict (GraphConfig_dump Canonicalizer.ordering_test)
    = Some Canonicalizer.ordering_test.
Proof.
  apply (parse_dump_parse strict (GraphConfig_dump Canonicalizer.ordering_test)).
  - apply strict_laws.
  - vm_compute. reflexivity.
Defined.

(** The fields of [GraphConfig]. *)
Definition GraphConfig_fields : list string :=
  ["schema_version"; "key"; "revision"; "graph"; "state"; "deps"; "limits";
   "prompt_config"; "metadata"; "ui"].

(** X2.  [parse_graph_config] rejects a payload that is no dict, that has a
    key which is not a field of [GraphConfig], or that lacks [key] or
    [graph]. *)
Theorem parse_rejects_malformed (P : Pydantic) (raw : json) :
  (∀ items, raw = JDict items →
     (∃ k, k ∈ dict_keys items ∧ k ∉ GraphConfig_fields)
     ∨ dict_get "key" items = None
     ∨ dict_get "graph" items = None) →
  parse_graph_config P raw = None.
Proof.
  intros Hraw. unfold parse_graph_config, GraphConfig_validate.
  destruct raw as [| | | | | |items]; try done.
  unfold model_fields.
  destruct (forallb _ (dict_keys items)) eqn:Ekeys; [|done].
  cbn [check mbind option_bind].
  destruct (Hraw items eq_refl) as [(k & Hk & Hnot)|[Hkey|Hgraph]].
  - exfalso. apply Hnot.
    rewrite forallb_forall in Ekeys.
    apply list_elem_of_In, Ekeys in Hk. unfold str_in in Hk.
    apply existsb_exists in Hk as (f & Hf & ->%String.eqb_eq).
    by apply list_elem_of_In.
  - destruct (defaulted items "schema_version" _ _); [|done].
    cbn [mbind option_bind]. unfold required. by rewrite Hkey.
  - destruct (defaulted items "schema_version" _ _); [|done].
    cbn [mbind option_bind].
    destruct (required items "key" _); [|done]. cbn [mbind option_bind].
    destruct (defaulted items "revision" _ _); [|done].
    cbn [mbind option_bind]. unfold required. by rewrite Hgraph.
Qed.

Lemma parse_rejects_malformed_witness :
  parse_graph_config strict (JDict [("key", JStr "agent"); ("nodes", JList [])])
  = None.
Proof.
  apply parse_rejects_malformed. intros items [= <-].
  left. exists "nodes". split; by apply (bool_decide_unpack _).
Defined.

End SchemaSpec.

(** * What canonicalization guarantees *)

Module CanonicalizerSpec.
Import Json Schema Fixtures Canonicalizer.

(** ** Sorting lists that differ in their order only *)

Section SortedUnique.
Context {A K : Type} (cmp : K → K → comparison) (key : A → K).
Context `{!Py.CompareOrder cmp}.

Lemma key_le_antisym x y :
  Py.key_le cmp key x y → Py.key_le cmp key y x → cmp (key x) (key y) = Eq.
Proof.
  unfold Py.key_le, Py.cmp_le. rewrite (Py.cmp_opp (key x) (key y)).
  by destruct (cmp (key x) (key y)).
Qed.

Lemma StronglySorted_perm_eq l1 l2 :
  StronglySorted (Py.key_le cmp key) l1 →
  StronglySorted (Py.key_le cmp key) l2 →
  l1 ≡ₚ l2 →
  (∀ x y, x ∈ l1 → y ∈ l1 → cmp (key x) (key y) = Eq → x = y) →
  l1 = l2.
Proof.
  intros H1. revert l2.
  induction H1 as [|x l1 Hl1 IH Hx]; intros l2 H2 Hp Hinj.
  { by apply Permutation_nil_l in Hp. }
  destruct H2 as [|y l2 Hl2 Hy].
  { by apply Permutation_nil_r in Hp. }
  assert (x = y) as <-.
  { assert (x ∈ y :: l2) as Hxin by (rewrite <- Hp; left).
    assert (y ∈ x :: l1) as Hyin by (rewrite Hp; left).
    apply elem_of_cons in Hxin as [?|Hxin]; [done|].
    apply elem_of_cons in Hyin as [?|Hyin]; [done|].
    apply Hinj; [left|by right|].
    apply key_le_antisym.
    - rewrite Forall_forall in Hx. by apply Hx.
    - rewrite Forall_forall in Hy. by apply Hy. }
  f_equal. apply IH; [done|by eapply Permutation_cons_inv|].
  intros a b Ha Hb. apply Hinj; by right.
Qed.

(** Lists with the same elements, of which no two share a key, are sorted
    to the same list. *)
Lemma sorted_perm_eq l1 l2 :
  l1 ≡ₚ l2 →
  (∀ x y, x ∈ l1 → y ∈ l1 → cmp (key x) (key y) = Eq → x = y) →
  Py.sorted cmp key l1 = Py.sorted cmp key l2.
Proof.
  intros Hp Hinj. apply StronglySorted_perm_eq.
  - by apply Py.sorted_StronglySorted.
  - by apply Py.sorted_StronglySorted.
  - by rewrite !Py.sorted_perm.
  - intros x y Hx%Py.elem_of_sorted Hy%Py.elem_of_sorted. by apply Hinj.
Qed.

End SortedUnique.

Lemma NoDup_map_inj {A B : Type} (f : A → B) (l : list A) x y :
  NoDup (map f l) → x ∈ l → y ∈ l → f x = f y → x = y.
Proof.
  induction l as [|a l IH]; cbn [map]; [by intros _ ?%elem_of_nil|].
  intros [Ha Hl]%NoDup_cons [->|Hx]%elem_of_cons [->|Hy]%elem_of_cons Hf;
    [done| | |by apply IH].
  - exfalso. apply Ha. rewrite Hf. apply list_elem_of_fmap. by exists y.
  - exfalso. apply Ha. rewrite <- Hf. apply list_elem_of_fmap. by exists x.
Qed.

Lemma compare_pair_eq {A B : Type} (cmpA : A → A → comparison)
    (cmpB : B → B → comparison) :
  (∀ a1 a2, cmpA a1 a2 = Eq → a1 = a2) →
  (∀ b1 b2, cmpB b1 b2 = Eq → b1 = b2) →
  ∀ p q, Py.compare_pair cmpA cmpB p q = Eq → p = q.
Proof.
  intros HA HB [a1 b1] [a2 b2].
  unfold Py.compare_pair, Py.lex. cbn.
  destruct (cmpA a1 a2) eqn:E; try done. intros Hb.
  by rewrite (HA _ _ E), (HB _ _ Hb).
Qed.

Lemma string_compare_Eq s1 s2 : String.compare s1 s2 = Eq → s1 = s2.
Proof. apply Py.string_compare_eq. Qed.

Lemma compare_edge_keys_eq k1 k2 : compare_edge_keys k1 k2 = Eq → k1 = k2.
Proof.
  revert k1 k2. unfold compare_edge_keys.
  repeat (apply compare_pair_eq; [|apply string_compare_Eq]).
  apply compare_pair_eq; [apply string_compare_Eq|apply Z.compare_eq].
Qed.

(** X3.  Two configurations that have the same nodes, edges and entrypoints
    in another order, and agree in everything else, have the same canonical
    form, provided that the node ids are distinct and no two edges have the
    same sort key. *)
Theorem canonical_form_order_independent (float_repr : float → string)
    (config1 config2 : GraphConfig) :
  nodes (graph config1) ≡ₚ nodes (graph config2) →
  edges (graph config1) ≡ₚ edges (graph config2) →
  entrypoints (graph config1) ≡ₚ entrypoints (graph config2) →
  schema_version config1 = schema_version config2 →
  key config1 = key config2 →
  revision config1 = revision config2 →
  state config1 = state config2 →
  deps config1 = deps config2 →
  limits config1 = limits config2 →
  prompt_config config1 = prompt_config config2 →
  metadata config1 = metadata config2 →
  ui config1 = ui config2 →
  NoDup (map node_id (nodes (graph config1))) →
  NoDup (map (_edge_sort_key float_repr) (edges (graph config1))) →
  canonicalize_graph_config float_repr config1
  = canonicalize_graph_config float_repr config2.
Proof.
  intros Hn He Hep Hv Hk Hr Hs Hd Hl Hp Hm Hu Hids Hkeys.
  unfold canonicalize_graph_config.
  rewrite <- Hv, <- Hk, <- Hr, <- Hs, <- Hd, <- Hl, <- Hp, <- Hm, <- Hu.
  rewrite (sorted_perm_eq String.compare node_id _ _ Hn).
  2: { intros x y Hx Hy Hxy%Py.string_compare_eq.
       by eapply (NoDup_map_inj node_id). }
  rewrite (sorted_perm_eq compare_edge_keys (_edge_sort_key float_repr) _ _ He).
  2: { intros x y Hx Hy Hxy%compare_edge_keys_eq.
       by eapply (NoDup_map_inj (_edge_sort_key float_repr)). }
  rewrite (sorted_perm_eq String.compare (λ e, e) _ _ Hep).
  2: { by intros x y _ _ Hxy%Py.string_compare_eq. }
  done.
Qed.

(** The configuration of the ordering test with its nodes, edges and
    entrypoints in the opposite order. *)
Definition ordering_test_reversed : GraphConfig :=
  {| schema_version := schema_version ordering_test;
     key := key ordering_test;
     revision := revision ordering_test;
     graph := {| nodes := reverse (nodes (graph ordering_test));
                 edges := reverse (edges (graph ordering_test));
                 entrypoints := reverse (entrypoints (graph ordering_test)) |};
     state := state ordering_test;
     deps := deps ordering_test;
     limits := limits ordering_test;
     prompt_config := prompt_config ordering_test;
     metadata := metadata ordering_test;
     ui := ui ordering_test |}.

Lemma canonical_form_order_independent_witness :
  canonicalize_graph_config no_floats ordering_test
  = canonicalize_graph_config no_floats ordering_test_reversed.
Proof.
  apply canonical_form_order_independent; try reflexivity.
  - symmetry. apply reverse_Permutation.
  - symmetry. apply reverse_Permutation.
  - symmetry. apply reverse_Permutation.
  - apply (bool_decide_unpack _). vm_compute. reflexivity.
  - apply (bool_decide_unpack _). vm_compute. reflexivity.
Defined.

(** ** The canonical form is a fixed point *)

Lemma normalize_deps_fixed d n :
  normalize GraphDeps_dump (GraphDeps_validate strict) d = Some n →
  from_option GraphDeps_ok true n = true.
Proof.
  destruct d as [d|]; unfold normalize; [|by intros [= <-]].
  destruct (GraphDeps_validate strict (GraphDeps_dump d)) as [d'|] eqn:E;
    [|by intros [=]].
  intros [= <-]. by eapply SchemaSpec.GraphDeps_validate_sound.
Qed.

Lemma canonicalize_inv float_repr config canonical :
  canonicalize_graph_config float_repr config = Some canonical →
  ∃ n,
    normalize GraphDeps_dump (GraphDeps_validate strict) (deps config) = Some n
    ∧ canonical
      = {| schema_version := schema_version config;
           key := key config;
           revision := revision config;
           graph :=
             {| nodes := Py.sorted String.compare node_id (nodes (graph config));
                edges := Py.sorted compare_edge_keys (_edge_sort_key float_repr)
                           (edges (graph config));
                entrypoints := Py.sorted String.compare (λ e, e)
                                 (entrypoints (graph config)) |};
           state := state config;
           deps := n;
           limits := limits config;
           prompt_config := prompt_config config;
           metadata := metadata config;
           ui := ui config |}.
Proof.
  unfold canonicalize_graph_config. rewrite normalize_metadata.
  destruct (normalize GraphDeps_dump _ (deps config)) as [n|]; cbn; [|done].
  intros [= <-]. by exists n.
Qed.

Lemma canonicalize_fixed float_repr config canonical :
  canonicalize_graph_config float_repr config = Some canonical →
  canonicalize_graph_config float_repr canonical = Some canonical.
Proof.
  intros (n & Hn & ->)%canonicalize_inv.
  rewrite canonicalize_valid by (by eapply normalize_deps_fixed).
  cbn. by rewrite !Py.sorted_idempotent by apply _.
Qed.

Lemma forallb_perm {A : Type} (f : A → bool) (l1 l2 : list A) :
  l1 ≡ₚ l2 → forallb f l1 = true → forallb f l2 = true.
Proof.
  intros Hp. rewrite !forallb_forall. intros H x Hx. apply H.
  apply list_elem_of_In. rewrite Hp. by apply list_elem_of_In.
Qed.

Lemma canonicalize_ok float_repr P config canonical :
  GraphConfig_ok P config →
  canonicalize_graph_config float_repr config = Some canonical →
  GraphConfig_ok P canonical.
Proof.
  intros (Hv & Hk & Hr & Hg & Hd & Hl & Hp) (n & Hn & ->)%canonicalize_inv.
  unfold GraphConfig_ok.
  cbn [schema_version key revision graph deps limits prompt_config].
  do 3 (split; [done|]). split; [|split; [|done]].
  - unfold GraphIR_ok in *. cbn [nodes edges entrypoints].
    apply andb_true_iff in Hg as [[[Hns Hes]%andb_true_iff Hlen]%andb_true_iff Hnd].
    rewrite (forallb_perm _ _ _ (symmetry (Py.sorted_perm _ _ _)) Hns).
    rewrite (forallb_perm _ _ _ (symmetry (Py.sorted_perm _ _ _)) Hes).
    rewrite Py.sorted_length, Hlen. cbn [andb].
    apply bool_decide_eq_true. apply bool_decide_eq_true in Hnd.
    by rewrite Py.sorted_perm.
  - by eapply normalize_deps_fixed.
Qed.

(** X4.  A configuration that [parse_and_canonicalize_graph_config] returns
    satisfies the schema and is a fixed point: canonicalizing it, or dumping
    it and parsing and canonicalizing the dump, returns it again. *)
Theorem parse_and_canonicalize_fixed (float_repr : float → string)
    (P : Pydantic) (raw : json) (canonical : GraphConfig) :
  PydanticLaws P →
  parse_and_canonicalize_graph_config float_repr P raw = Some canonical →
  GraphConfig_ok P canonical
  ∧ canonicalize_graph_config float_repr canonical = Some canonical
  ∧ parse_and_canonicalize_graph_config float_repr P (GraphConfig_dump canonical)
    = Some canonical.
Proof.
  intros HP. unfold parse_and_canonicalize_graph_config.
  destruct (parse_graph_config P raw) as [parsed|] eqn:Eparse;
    cbn [mbind option_bind]; [|done].
  intros Hcanon.
  assert (GraphConfig_ok P canonical) as Hok.
  { eapply canonicalize_ok; [|done].
    by eapply SchemaSpec.GraphConfig_validate_sound. }
  pose proof (canonicalize_fixed _ _ _ Hcanon) as Hfix.
  split; [done|]. split; [done|].
  unfold parse_graph_config. by rewrite (GraphConfig_round_trip P HP).
Qed.

Lemma parse_and_canonicalize_fixed_witness :
  GraphConfig_ok strict ordering_test_canonical
  ∧ canonicalize_graph_config no_floats ordering_test_canonical
    = Some ordering_test_canonical
  ∧ parse_and_canonicalize_graph_config no_floats strict
      (GraphConfig_dump ordering_test_canonical)
    = Some ordering_test_canonical.
Proof.
  apply (parse_and_canonicalize_fixed no_floats strict
           (GraphConfig_dump ordering_test)).
  - apply strict_laws.
  - vm_compute. reflexivity.
Defined.

End CanonicalizerSpec.

(** * What the validator computes *)

Module ValidatorSpec.
Import Json Schema Fixtures Validator.

(** An edge between two of the node ids, as [_build_adjacency] keeps it. *)
Definition inner_edge (edges : list GraphEdgeConfig) (node_ids : gset string)
    (a b : string) : Prop :=
  a ∈ node_ids ∧ b ∈ node_ids ∧ edge_between edges a b.

Lemma rtc_inner_edge edges node_ids a b :
  rtc (edge_rel (_build_adjacency edges node_ids)) a b
  ↔ rtc (inner_edge edges node_ids) a b.
Proof.
  split; intros Hr.
  - eapply (rtc_congruence (λ x, x)); [|exact Hr]. intros x y Hxy.
    by apply elem_of_successors_build in Hxy.
  - eapply (rtc_congruence (λ x, x)); [|exact Hr]. intros x y Hxy.
    by apply elem_of_successors_build.
Qed.

Lemma tc_inner_edge edges node_ids a b :
  tc (edge_rel (_build_adjacency edges node_ids)) a b
  ↔ tc (inner_edge edges node_ids) a b.
Proof.
  split; intros Hr.
  - eapply (tc_congruence (λ x, x)); [|exact Hr]. intros x y Hxy.
    by apply elem_of_successors_build in Hxy.
  - eapply (tc_congruence (λ x, x)); [|exact Hr]. intros x y Hxy.
    by apply elem_of_successors_build.
Qed.

Lemma has_cycle_iff_cycle_aux edges node_ids :
  _has_cycle (_build_adjacency edges node_ids) = true
  ↔ ∃ n, tc (inner_edge edges node_ids) n n.
Proof.
  rewrite has_cycle_spec. unfold cyclic.
  split; intros [n Hn]; exists n; by apply tc_inner_edge.
Qed.

(** X5.  The depth-first search of [_has_cycle], on the adjacency that
    [_build_adjacency] makes of the edges, answers true exactly when some node
    comes back to itself along one or more edges between the node ids. *)
Theorem has_cycle_iff_cycle (edges : list GraphEdgeConfig)
    (node_ids : gset string) :
  _has_cycle (_build_adjacency edges node_ids) = true
  ↔ ∃ n, tc (inner_edge edges node_ids) n n.
Proof. apply has_cycle_iff_cycle_aux. Qed.

(** X6.  The breadth-first search of [_reachable_from_entrypoints] returns
    the entrypoints, whether they are node ids or not, and the nodes that an
    entrypoint reaches along edges between the node ids, and nothing else. *)
Theorem reachable_from_entrypoints_iff (entrypoints : list string)
    (edges : list GraphEdgeConfig) (node_ids : gset string) (n : string) :
  n ∈ _reachable_from_entrypoints entrypoints (_build_adjacency edges node_ids)
  ↔ ∃ e, e ∈ entrypoints ∧ rtc (inner_edge edges node_ids) e n.
Proof.
  rewrite elem_of_reachable. unfold reach_from.
  split; intros (e & He & Hr); exists e; (split; [done|]);
    by apply rtc_inner_edge.
Qed.

(** X7.  [_is_end_reachable] answers true exactly when some entrypoint
    reaches, along edges of any source and target, a node with an edge to
    END; it does not ask that the nodes on the way are node ids. *)
Theorem is_end_reachable_iff (entrypoints : list string)
    (edges : list GraphEdgeConfig) :
  _is_end_reachable entrypoints edges = true
  ↔ ∃ e n, e ∈ entrypoints ∧ rtc (edge_between edges) e n
           ∧ ∃ last, last ∈ edges ∧ from_node last = n ∧ to_node last = "END".
Proof. apply is_end_reachable_spec. Qed.

(** ** The configurations that the validator accepts *)

(** The conditions of the loop over the edges. *)
Definition edge_ok (node_ids state_paths : gset string) (e : GraphEdgeConfig)
    : Prop :=
  from_node e ≠ "START" ∧ from_node e ≠ "END" ∧ from_node e ∈ node_ids
  ∧ to_node e ≠ "START" ∧ (to_node e = "END" ∨ to_node e ∈ node_ids)
  ∧ ∀ p, when e = WhenPredicate p → state_path p ∈ state_paths.

(** The conditions of the determinism checks on the edges that leave one
    node. *)
Definition routing_ok (out : list GraphEdgeConfig) : Prop :=
  (length (filter (λ e, is_default e) out) ≤ 1)%nat
  ∧ (length (filter (λ e, is_builtin HAS_TOOL_CALLS e) out) ≤ 1)%nat
  ∧ (length (filter (λ e, is_builtin NO_TOOL_CALLS e) out) ≤ 1)%nat
  ∧ ((filter (λ e, is_builtin HAS_TOOL_CALLS e) out = []
      ∧ filter (λ e, is_builtin NO_TOOL_CALLS e) out = [])
     ∨ filter (λ e, is_predicate e) out = []).

Definition well_formed (config : GraphConfig) : Prop :=
  let node_ids : gset string := node_id_set config in
  let state_paths : gset string :=
    list_to_set (dict_keys (state_schema (state config)))
    ∪ _BUILTIN_STATE_PATHS in
  nodes (graph config) ≠ []
  ∧ NoDup (map node_id (nodes (graph config)))
  ∧ (∃ e, entrypoints (graph config) = [e] ∧ e ∈ node_ids)
  ∧ Forall (edge_ok node_ids state_paths) (edges (graph config))
  ∧ (∀ source,
       routing_ok (filter (λ e, from_node e = source) (edges (graph config))))
  ∧ (∀ n, n ∈ node_ids →
          ∃ e, e ∈ entrypoints (graph config)
               ∧ rtc (inner_edge (edges (graph config)) node_ids) e n)
  ∧ (∃ e n, e ∈ entrypoints (graph config)
            ∧ rtc (edge_between (edges (graph config))) e n
            ∧ edge_between (edges (graph config)) n "END")
  ∧ ((∃ n, tc (inner_edge (edges (graph config)) node_ids) n n) →
     0 < max_steps (limits config) ∨ 0 < max_time_s (limits config)).

Lemma filter_nil_iff {A : Type} (P : A → Prop) `{!∀ x, Decision (P x)}
    (l : list A) :
  filter P l = [] ↔ ∀ x, x ∈ l → ¬ P x.
Proof.
  split.
  - intros Hnil x Hx HP. by eapply filter_nil_not_elem_of.
  - intros Hnot. induction l as [|a l IH]; [done|].
    rewrite filter_cons_False by (apply Hnot; left).
    apply IH. intros x Hx. apply Hnot. by right.
Qed.

Lemma count_le_1_NoDup (l : list string) :
  (∀ x, x ∈ l → (length (filter (λ y, y = x) l) ≤ 1)%nat) ↔ NoDup l.
Proof.
  induction l as [|a l IH].
  - split; [constructor|]. by intros _ x ?%elem_of_nil.
  - rewrite NoDup_cons, <- IH. split.
    + intros H. split.
      * intros Ha. specialize (H a (list_elem_of_here _ _)).
        rewrite filter_cons_True in H by done. cbn in H.
        assert (a ∈ filter (λ y, y = a) l) as Hin by (by apply list_elem_of_filter).
        destruct (filter (λ y, y = a) l); [by apply elem_of_nil in Hin|].
        cbn in H. lia.
      * intros x Hx. specialize (H x (list_elem_of_further _ _ _ Hx)).
        rewrite filter_cons in H. destruct (decide (a = x)); cbn in H; lia.
    + intros [Ha H] x Hx. rewrite filter_cons.
      destruct (decide (a = x)) as [->|Hne].
      * cbn. assert (filter (λ y, y = x) l = []) as ->; [|done].
        apply filter_nil_iff. by intros y Hy ->.
      * apply H. by apply elem_of_cons in Hx as [->|Hx].
Qed.

Lemma duplicate_errors_nil node_ids :
  duplicate_errors node_ids = [] ↔ NoDup node_ids.
Proof.
  unfold duplicate_errors, duplicate_ids. rewrite <- count_le_1_NoDup.
  case_decide as Hd.
  - split; [intros _|done]. intros x Hx.
    destruct (decide (1 < length (filter (λ y, y = x) node_ids))%nat) as [Hc|Hc];
      [|lia].
    exfalso. assert (x ∈ (∅ : gset string)) as H; [|set_solver].
    rewrite <- Hd, elem_of_list_to_set. by apply list_elem_of_filter.
  - split; [done|]. intros H. exfalso. apply Hd. apply set_eq. intros x.
    rewrite elem_of_list_to_set, list_elem_of_filter.
    split; [|set_solver]. intros [Hc Hx]. specialize (H x Hx). lia.
Qed.

Lemma mjoin_imap_nil {A B : Type} (f : nat → A → list B) (l : list A) :
  mjoin (imap f l) = [] ↔ ∀ i x, l !! i = Some x → f i x = [].
Proof.
  rewrite join_nil, Forall_forall. split.
  - intros H i x Hi. apply H. apply elem_of_lookup_imap. by exists i, x.
  - intros H y (i & x & -> & Hi)%elem_of_lookup_imap. by eapply H.
Qed.

Lemma edge_errors_nil node_ids state_paths idx e :
  edge_errors node_ids state_paths idx e = [] ↔ edge_ok node_ids state_paths e.
Proof.
  unfold edge_errors, edge_ok. rewrite !app_nil.
  destruct (String.eqb (from_node e) "START") eqn:E1.
  { apply String.eqb_eq in E1. split; [by intros [[=] _]|by intros [? _]]. }
  destruct (String.eqb (from_node e) "END") eqn:E2.
  { apply String.eqb_eq in E2. split; [by intros [[=] _]|by intros (_ & ? & _)]. }
  apply String.eqb_neq in E1, E2.
  destruct (decide (from_node e ∈ node_ids)) as [Hf|Hf];
    [|split; [by intros [[=] _]|by intros (_ & _ & ? & _)]].
  destruct (String.eqb (to_node e) "START") eqn:E3.
  { apply String.eqb_eq in E3.
    split; [by intros (_ & [=] & _)|by intros (_ & _ & _ & ? & _)]. }
  apply String.eqb_neq in E3.
  destruct (String.eqb (to_node e) "END") eqn:E4; cbn [negb andb].
  - apply String.eqb_eq in E4.
    destruct (when e) as [|c|p] eqn:Ew.
    + split; [|done]. intros _. do 4 (split; [done|]). split; [by left|done].
    + split; [|done]. intros _. do 4 (split; [done|]). split; [by left|done].
    + destruct (decide (state_path p ∈ state_paths)) as [Hp|Hp].
      * split; [|done]. intros _. do 4 (split; [done|]). split; [by left|].
        by intros ? [= <-].
      * split; [by intros (_ & _ & [=])|]. intros (_ & _ & _ & _ & _ & H).
        exfalso. by apply Hp, H.
  - apply String.eqb_neq in E4.
    destruct (decide (to_node e ∈ node_ids)) as [Ht|Ht].
    + rewrite bool_decide_eq_false_2 by (by intros ?).
      destruct (when e) as [|c|p] eqn:Ew.
      * split; [|done]. intros _. do 4 (split; [done|]). split; [by right|done].
      * split; [|done]. intros _. do 4 (split; [done|]). split; [by right|done].
      * destruct (decide (state_path p ∈ state_paths)) as [Hp|Hp].
        -- split; [|done]. intros _. do 4 (split; [done|]). split; [by right|].
           by intros ? [= <-].
        -- split; [by intros (_ & _ & [=])|]. intros (_ & _ & _ & _ & _ & H).
           exfalso. by apply Hp, H.
    + rewrite bool_decide_eq_true_2 by done.
      split; [by intros (_ & [=] & _)|]. intros (_ & _ & _ & _ & [?|?] & _); done.
Qed.

Lemma if_singleton_nil {A : Type} (b : bool) (x : A) :
  (if b then [x] else []) = [] ↔ b = false.
Proof. by destruct b. Qed.

Lemma determinism_stripped_nil source out :
  determinism_stripped source out = [] ↔ routing_ok out.
Proof.
  unfold determinism_stripped, routing_ok.
  rewrite !app_nil, !if_singleton_nil, andb_false_iff, orb_false_iff,
    !Nat.ltb_ge, <- !length_zero_iff_nil.
  split; intros (Hd & Ht & Hn & Hmix); (do 3 (split; [done|])).
  - destruct Hmix as [[? ?]|?]; [left|right]; lia.
  - destruct Hmix as [[? ?]|?]; [left|right]; [split|]; lia.
Qed.

Lemma determinism_errors_nil edges :
  mjoin (map (λ se, determinism_errors se.1 se.2) (edges_by_source edges)) = []
  ↔ ∀ source, routing_ok (filter (λ e, from_node e = source) edges).
Proof.
  transitivity
    (stripped (mjoin (map (λ se, determinism_errors se.1 se.2)
                        (edges_by_source edges))) = []).
  { unfold stripped. split; [by intros ->|]. by intros ?%fmap_nil_inv. }
  rewrite stripped_determinism, join_nil, Forall_fmap, Forall_forall.
  split.
  - intros H source. destruct (decide (source ∈ sources edges)) as [Hs|Hs].
    + apply (determinism_stripped_nil source), H, Hs.
    + assert (filter (λ e, from_node e = source) edges = []) as ->.
      { apply filter_nil_iff. intros e He Hf. apply Hs, elem_of_sources.
        apply list_elem_of_fmap. by exists e. }
      by apply (determinism_stripped_nil source).
  - intros H source _. apply determinism_stripped_nil, H.
Qed.

Lemma entrypoints_nil (node_ids : gset string) entrypoints :
  entrypoint_count_errors entrypoints = []
  ∧ mjoin (imap (entrypoint_errors node_ids) entrypoints) = []
  ↔ ∃ e, entrypoints = [e] ∧ e ∈ node_ids.
Proof.
  unfold entrypoint_count_errors. rewrite mjoin_imap_nil. split.
  - intros [Hc He]. case_decide as Hlen; [|done].
    destruct entrypoints as [|e [|? ?]]; try done. exists e. split; [done|].
    specialize (He 0%nat e eq_refl). unfold entrypoint_errors in He.
    by case_decide.
  - intros (e & -> & He). split; [done|].
    intros [|i] x Hx; [|done]. injection Hx as <-.
    unfold entrypoint_errors. by rewrite decide_True.
Qed.

Lemma unreachable_errors_nil (node_ids reachable : gset string) :
  unreachable_errors node_ids reachable = [] ↔ node_ids ⊆ reachable.
Proof.
  unfold unreachable_errors. cbn zeta. case_decide as H.
  - split; [|done]. intros _ x Hx.
    destruct (decide (x ∈ reachable)); [done|]. set_solver.
  - split; [done|]. intros Hsub. exfalso. apply H. set_solver.
Qed.

Lemma cycle_errors_nil adjacency limits :
  cycle_errors adjacency limits = []
  ↔ (_has_cycle adjacency = true →
     0 < max_steps limits ∨ 0 < max_time_s limits).
Proof.
  unfold cycle_errors. destruct (_has_cycle adjacency); [|done].
  destruct (Z.leb_spec (max_steps limits) 0), (Z.leb_spec (max_time_s limits) 0);
    cbn [andb]; split; try done; intros Hyp; try (right; lia); try (left; lia).
  destruct Hyp; [done|lia|lia].
Qed.

(** X8.  The validator returns no error exactly for the configurations that
    have a node, distinct node ids, one entrypoint that is a node id, edges
    whose source is a node id other than START and END and whose target is
    END or a node id other than START, predicates on known state paths, at
    most one unconditional, one has_tool_calls and one no_tool_calls edge
    from each node and no node with both tool routing and predicates, every
    node reachable from the entrypoint, a path from the entrypoint to an edge
    into END, and a positive [max_steps] or [max_time_s] when the graph has a
    cycle. *)
Theorem validate_accepts_iff (config : GraphConfig) :
  validate_graph_config config = [] ↔ well_formed config.
Proof.
  unfold validate_graph_config, well_formed, node_id_set.
  destruct (nodes (graph config)) as [|node nodes'] eqn:Enodes.
  { split; [done|]. by intros [? _]. }
  set (ids := list_to_set (map node_id (node :: nodes')) : gset string).
  set (paths := (list_to_set (dict_keys (state_schema (state config)))
                 ∪ _BUILTIN_STATE_PATHS : gset string)).
  cbn zeta. rewrite !app_nil.
  rewrite duplicate_errors_nil, !mjoin_imap_nil, determinism_errors_nil,
    unreachable_errors_nil, cycle_errors_nil, has_cycle_iff_cycle_aux.
  unfold end_errors.
  pose proof (is_end_reachable_spec (edges (graph config))
                (entrypoints (graph config))) as Hend.
  pose proof (entrypoints_nil ids (entrypoints (graph config))) as Hentry.
  rewrite mjoin_imap_nil in Hentry.
  assert ((∀ i x, edges (graph config) !! i = Some x →
                  edge_errors ids paths i x = [])
          ↔ Forall (edge_ok ids paths) (edges (graph config))) as Hedges.
  { rewrite Forall_lookup. split; intros H i x Hi.
    - by eapply edge_errors_nil, H.
    - by eapply edge_errors_nil, H. }
  assert (ids ⊆ _reachable_from_entrypoints (entrypoints (graph config))
                  (_build_adjacency (edges (graph config)) ids)
          ↔ ∀ n, n ∈ ids →
                 ∃ e, e ∈ entrypoints (graph config)
                      ∧ rtc (inner_edge (edges (graph config)) ids) e n)
    as Hreach.
  { split; intros H n Hn.
    - apply H, elem_of_reachable in Hn as (e & He & Hr). exists e.
      split; [done|]. by apply rtc_inner_edge.
    - destruct (H n Hn) as (e & He & Hr). apply elem_of_reachable.
      exists e. split; [done|]. by apply rtc_inner_edge. }
  rewrite Hedges, Hreach. unfold end_reachable_from in Hend.
  split.
  - intros (Hdup & Hcount & Hep & Hed & Hdet & Hre & He & Hcyc).
    split; [done|]. split; [done|]. split; [by apply Hentry|].
    split; [done|]. split; [done|]. split; [done|]. split; [|done].
    apply Hend. by destruct (_is_end_reachable _ _).
  - intros (_ & Hdup & Hentry' & Hed & Hdet & Hre & He & Hcyc).
    apply Hentry in Hentry' as [Hcount Hep].
    split; [done|]. split; [done|]. split; [done|]. split; [done|].
    split; [done|]. split; [done|]. split; [|done].
    apply Hend in He. by rewrite He.
Qed.

End ValidatorSpec.

(** * What the upgrader guarantees *)

Module UpgraderSpec.
Import Json Schema Fixtures Upgrader.

Section CanonicalBranch.
Context (P : Pydantic) (float_repr : float → string).
Context (exception_text : list (string * json) → string).
Context (upgrade_legacy :
           string → list (string * json) → result GraphConfigMigrationResult).

Abbreviation upgrade :=
  (upgrade_graph_config P float_repr exception_text upgrade_legacy).

(** The three steps of the canonical branch. *)
Lemma upgrade_v3_inv raw_config :
  Py.startswith "3." (detect_graph_config_version float_repr raw_config) = true →
  match upgrade raw_config with
  | Ok r =>
      source_version r = detect_graph_config_version float_repr raw_config
      ∧ warnings r = []
      ∧ ∃ parsed,
          parse_graph_config P (JDict raw_config) = Some parsed
          ∧ Canonicalizer.canonicalize_graph_config float_repr parsed
            = Some (config r)
          ∧ Validator.validate_graph_config (config r) = []
  | Raise e => error_code e = "INVALID_V3_CONFIG" ∧ error_path e = "graph_config"
  end.
Proof.
  intros Hv. unfold upgrade_graph_config. rewrite Hv.
  destruct (parse_graph_config P (JDict raw_config)) as [parsed|] eqn:Hp;
    cbn [mbind option_bind]; [|done].
  destruct (Canonicalizer.canonicalize_graph_config float_repr parsed)
    as [canonical|] eqn:Hc; cbn [mbind option_bind]; [|done].
  unfold Validator.ensure_valid_graph_config.
  destruct (Validator.validate_graph_config canonical) eqn:Hvalid;
    cbn [mbind option_bind]; [|done].
  cbn [source_version warnings config].
  split; [done|]. split; [done|]. exists parsed. done.
Qed.

(** A configuration that satisfies the schema, is canonical and valid is
    returned as it is. *)
Lemma upgrade_items config :
  PydanticLaws P →
  GraphConfig_ok P config →
  Canonicalizer.canonicalize_graph_config float_repr config = Some config →
  Validator.validate_graph_config config = [] →
  upgrade (GraphConfig_items config)
  = Ok {| source_version := "3.0"; config := config; warnings := [] |}.
Proof.
  intros HP Hok Hcanon Hvalid.
  unfold upgrade_graph_config, detect_graph_config_version.
  pose proof Hok as (Hv & _).
  cbn [GraphConfig_items dict_get String.eqb Ascii.eqb Bool.eqb].
  rewrite Hv. cbn [truthy py_str String.eqb Ascii.eqb Bool.eqb negb Py.startswith].
  change (JDict (GraphConfig_items config)) with (GraphConfig_dump config).
  unfold parse_graph_config. rewrite (GraphConfig_round_trip P HP) by done.
  cbn [mbind option_bind]. rewrite Hcanon. cbn [mbind option_bind].
  unfold Validator.ensure_valid_graph_config. rewrite Hvalid.
  done.
Qed.

Lemma upgrade_v3_result raw_config r :
  PydanticLaws P →
  Py.startswith "3." (detect_graph_config_version float_repr raw_config) = true →
  upgrade raw_config = Ok r →
  GraphConfig_ok P (config r)
  ∧ Canonicalizer.canonicalize_graph_config float_repr (config r)
    = Some (config r)
  ∧ Validator.validate_graph_config (config r) = [].
Proof.
  intros HP Hv Hup. pose proof (upgrade_v3_inv raw_config Hv) as Hinv.
  rewrite Hup in Hinv. destruct Hinv as (_ & _ & parsed & Hp & Hc & Hvalid).
  split; [|split; [|done]].
  - eapply CanonicalizerSpec.canonicalize_ok; [|exact Hc].
    eapply SchemaSpec.GraphConfig_validate_sound; [exact HP|exact Hp].
  - by eapply CanonicalizerSpec.canonicalize_fixed.
Qed.

(** X9.  On a payload whose detected version starts with [3.],
    [upgrade_graph_config] either raises [INVALID_V3_CONFIG] at
    [graph_config], or returns the detected version, no warnings, and a
    configuration that satisfies the schema, is a fixed point of
    canonicalization and has no validation errors. *)
Theorem upgrade_v3_outcome (raw_config : list (string * json)) :
  PydanticLaws P →
  Py.startswith "3." (detect_graph_config_version float_repr raw_config) = true →
  match upgrade raw_config with
  | Ok r =>
      source_version r = detect_graph_config_version float_repr raw_config
      ∧ warnings r = []
      ∧ GraphConfig_ok P (config r)
      ∧ Canonicalizer.canonicalize_graph_config float_repr (config r)
        = Some (config r)
      ∧ Validator.validate_graph_config (config r) = []
  | Raise e => error_code e = "INVALID_V3_CONFIG" ∧ error_path e = "graph_config"
  end.
Proof.
  intros HP Hv. pose proof (upgrade_v3_inv raw_config Hv) as Hinv.
  destruct (upgrade raw_config) as [r|e] eqn:Hup; [|done].
  destruct Hinv as (Hs & Hw & _).
  split; [done|]. split; [done|]. by apply (upgrade_v3_result raw_config).
Qed.

(** X10.  Upgrading is idempotent on canonical payloads: when a payload of
    version [3.] upgrades to a configuration, the serialized form of that
    configuration upgrades to the same configuration, with no warnings. *)
Theorem upgrade_idempotent (raw_config : list (string * json))
    (r : GraphConfigMigrationResult) :
  PydanticLaws P →
  Py.startswith "3." (detect_graph_config_version float_repr raw_config) = true →
  upgrade raw_config = Ok r →
  upgrade (GraphConfig_items (config r))
  = Ok {| source_version := "3.0"; config := config r; warnings := [] |}.
Proof.
  intros HP Hv Hup.
  destruct (upgrade_v3_result raw_config r HP Hv Hup) as (Hok & Hc & Hvalid).
  by apply upgrade_items.
Qed.

End CanonicalBranch.

Lemma upgrade_v3_outcome_witness :
  match
    upgrade_graph_config strict no_floats (λ _, "") no_legacy
      (GraphConfig_items Canonicalizer.ordering_test)
  with
  | Ok r =>
      source_version r = "3.0"
      ∧ warnings r = []
      ∧ GraphConfig_ok strict (config r)
      ∧ Canonicalizer.canonicalize_graph_config no_floats (config r)
        = Some (config r)
      ∧ Validator.validate_graph_config (config r) = []
  | Raise e => error_code e = "INVALID_V3_CONFIG" ∧ error_path e = "graph_config"
  end.
Proof.
  apply (upgrade_v3_outcome strict no_floats (λ _, "") no_legacy
           (GraphConfig_items Canonicalizer.ordering_test)).
  - apply strict_laws.
  - reflexivity.
Defined.

Lemma upgrade_idempotent_witness :
  upgrade_graph_config strict no_floats (λ _, "") no_legacy
    (GraphConfig_items (Validator.two_node_loop 64 300))
  = Ok {| source_version := "3.0"; config := Validator.two_node_loop 64 300;
          warnings := [] |}.
Proof.
  apply (upgrade_idempotent strict no_floats (λ _, "") no_legacy
           (GraphConfig_items (Validator.two_node_loop 64 300))
           {| source_version := "3.0"; config := Validator.two_node_loop 64 300;
              warnings := [] |}).
  - apply strict_laws.
  - reflexivity.
  - vm_compute. reflexivity.
Defined.

(** *** The entrypoint among the collected node ids *)

Lemma collect_node_ids_mono index nodes node_ids warnings ids ws :
  collect_node_ids index nodes node_ids warnings = Ok (ids, ws) →
  node_ids ⊆ ids.
Proof.
  revert index node_ids warnings.
  induction nodes as [|node nodes IH]; intros index node_ids warnings; simpl.
  - by intros [= <- _].
  - case_decide as Hin; [done|]. intros Hc%IH. set_solver.
Qed.

(** X11.  When the id of the first legacy node is non-empty and has no
    surrounding white space, the entrypoint derived for the node ids that the
    migration has collected is one of these ids, whichever of the three rules
    selects it. *)
Theorem derived_entrypoint_is_node (config_v2 : LegacyGraphConfig)
    (ids : gset string) (ws warnings ws' : list GraphConfigMigrationWarning)
    (entrypoints : list string) :
  collect_node_ids 0 (legacy_nodes config_v2) ∅ [] = Ok (ids, ws) →
  (∀ node rest, legacy_nodes config_v2 = node :: rest →
     Py.strip (legacy_id node) = legacy_id node ∧ legacy_id node ≠ "") →
  _derive_entrypoints config_v2 ids warnings = Some (entrypoints, ws') →
  ∃ e, entrypoints = [e] ∧ e ∈ ids.
Proof.
  intros Hcollect Hfirst. rewrite derive_entrypoints_unfold.
  assert (∀ w, derive_fallback config_v2 ids w = Some (entrypoints, ws') →
               ∃ e, entrypoints = [e] ∧ e ∈ ids) as Hfall.
  { intros w Heq. pose proof (derive_fallback_spec config_v2 ids w) as Hspec.
    destruct (list_find _ _) as [[i edge]|] eqn:Hfind.
    - destruct Hspec as (multiple & Hd & _). rewrite Hd in Heq.
      injection Heq as <- _. exists (legacy_to_node edge). split; [done|].
      apply list_find_Some in Hfind as (_ & [_ Hin] & _). done.
    - destruct (legacy_nodes config_v2) as [|node rest] eqn:Hnodes.
      + by rewrite Hspec in Heq.
      + destruct Hspec as (w' & Hd & _). rewrite Hd in Heq.
        injection Heq as <- _. exists (legacy_id node). split; [done|].
        destruct (Hfirst node rest eq_refl) as [Hstrip Hne].
        simpl in Hcollect. rewrite Hstrip in Hcollect.
        apply String.eqb_neq in Hne. rewrite Hne in Hcollect.
        case_decide; [done|].
        apply collect_node_ids_mono in Hcollect. set_solver. }
  destruct (entry_point_set config_v2) as [ep|]; [|by apply Hfall].
  case_decide as Hin; [|by apply Hfall].
  intros [= <- _]. by exists ep.
Qed.

(** A legacy graph without [entry_point] and without edges from START. *)
Definition no_start_edges : LegacyGraphConfig :=
  {| legacy_nodes := [ {| legacy_id := "agent" |}; {| legacy_id := "tools" |} ];
     legacy_edges := [ {| legacy_from_node := "agent"; legacy_to_node := "END" |} ];
     entry_point := None |}.

Lemma derived_entrypoint_is_node_witness :
  ∃ e, ["agent"] = [e] ∧ e ∈ ({["agent"; "tools"]} : gset string).
Proof.
  apply (derived_entrypoint_is_node no_start_edges {["agent"; "tools"]} [] []
           [warning "MISSING_ENTRYPOINT_FALLBACK" "entry_point"
              "No entrypoint found; defaulted to first node 'agent'."]
           ["agent"]).
  - vm_compute. reflexivity.
  - intros node rest [= <- _]. split; [reflexivity|done].
  - reflexivity.
Defined.

(** *** What is derived from the metadata of a legacy graph

    [config_v2.metadata] is a [dict[str, Any]]; [_derive_key],
    [_derive_revision] and [_extract_metadata] read nothing else of the
    legacy configuration and take the dict itself. *)

(** [d.get(key)]. *)
Definition get (key : string) (d : list (string * json)) : json :=
  default JNull (dict_get key d).

(** The loop over [key_candidates]. *)
Fixpoint first_key (key_candidates : list json) : string :=
  match key_candidates with
  | [] => "migrated_graph"
  | JStr candidate :: rest =>
      if truthy (JStr (Py.strip candidate)) then Py.strip candidate
      else first_key rest
  | _ :: rest => first_key rest
  end.

Definition _derive_key (metadata : list (string * json)) : string :=
  first_key
    [ get "key" metadata; get "builtin_key" metadata;
      get "system_agent_key" metadata; get "display_name" metadata;
      get "pattern" metadata ].

(** [isinstance(value, int)] and the number it stands for: a [bool] is an
    [int] in Python, [True] is 1 and [False] is 0. *)
Definition int_of (j : json) : option Z :=
  match j with
  | JInt n => Some n
  | JBool b => Some (if b then 1 else 0)
  | _ => None
  end.

Definition _derive_revision (metadata : list (string * json)) : json :=
  let raw_revision := get "revision" metadata in
  match int_of raw_revision with
  | Some n => if 1 <=? n then raw_revision else JInt 1
  | None => JInt 1
  end.

Definition is_str (j : json) : bool :=
  match j with JStr _ => true | _ => false end.

Definition is_none (j : json) : bool :=
  match j with JNull => true | _ => false end.

Definition _extract_metadata (raw : list (string * json))
    : list (string * json) :=
  let tags_raw := default (JList []) (dict_get "tags" raw) in
  let tags :=
    match tags_raw with
    | JList l => filter (λ tag, is_str tag = true) l
    | _ => []
    end in
  let metadata :=
    [ ("display_name", get "display_name" raw);
      ("description", get "description" raw);
      ("tags", JList tags);
      ("agent_version",
       if truthy (get "agent_version" raw) then get "agent_version" raw
       else get "version" raw) ] in
  filter (λ kv, is_none kv.2 = false) metadata.

Lemma first_key_nonempty key_candidates : first_key key_candidates ≠ "".
Proof.
  induction key_candidates as [|candidate rest IH]; [done|].
  destruct candidate; try exact IH. cbn [first_key truthy].
  destruct (String.eqb (Py.strip s) "") eqn:E; [exact IH|].
  by apply String.eqb_neq.
Qed.

(** X12.  Whatever the metadata of the legacy graph holds, the derived key
    is not empty and the derived revision is an integer of at least 1: both
    meet the constraints of the fields [key] and [revision] of the canonical
    schema.  A revision is kept exactly when it is such an integer. *)
Theorem derived_key_and_revision (metadata : list (string * json)) :
  _derive_key metadata ≠ ""
  ∧ (∃ n, int_of (_derive_revision metadata) = Some n ∧ 1 ≤ n)
  ∧ (_derive_revision metadata = get "revision" metadata
     ↔ ∃ n, int_of (get "revision" metadata) = Some n ∧ 1 ≤ n).
Proof.
  split; [apply first_key_nonempty|].
  unfold _derive_revision.
  destruct (int_of (get "revision" metadata)) as [n|] eqn:Hint.
  - destruct (1 <=? n) eqn:Hn.
    + apply Z.leb_le in Hn. split; [by exists n|]. split; [by exists n|done].
    + apply Z.leb_gt in Hn. split; [by exists 1|]. split.
      * intros Heq. rewrite <- Heq in Hint. cbn in Hint. injection Hint as <-. lia.
      * intros (m & [= <-] & Hm). lia.
  - split; [by exists 1|]. split.
    + intros Heq. rewrite <- Heq in Hint. done.
    + by intros (m & [=] & _).
Qed.

Lemma filter_is_str l :
  Forall (λ tag, ∃ s, tag = JStr s) (filter (λ tag, is_str tag = true) l).
Proof.
  apply list.Forall_forall. intros tag [Hstr _]%list_elem_of_filter.
  destruct tag; try done. by eexists.
Qed.

(** X13.  The metadata extracted from a legacy graph always has the entry
    [tags], a list of strings (the string items of the legacy tags, in their
    order), so it is never empty; it has no entry whose value is [None], and
    no key outside the fields of [GraphMetadata]. *)
Theorem extract_metadata_shape (raw : list (string * json)) :
  (∃ tags,
     dict_get "tags" (_extract_metadata raw) = Some (JList tags)
     ∧ Forall (λ tag, ∃ s, tag = JStr s) tags
     ∧ ∀ l, dict_get "tags" raw = Some (JList l) →
            tags = filter (λ tag, is_str tag = true) l)
  ∧ truthy (JDict (_extract_metadata raw)) = true
  ∧ ∀ k v, (k, v) ∈ _extract_metadata raw →
           v ≠ JNull
           ∧ k ∈ ["display_name"; "description"; "tags"; "agent_version"].
Proof.
  unfold _extract_metadata.
  set (tags := match default (JList []) (dict_get "tags" raw) with
               | JList l => filter (λ tag, is_str tag = true) l
               | _ => []
               end).
  set (version := if truthy (get "agent_version" raw)
                  then get "agent_version" raw else get "version" raw).
  assert (Forall (λ tag, ∃ s, tag = JStr s) tags) as Htags.
  { unfold tags. destruct (default _ _); try (by constructor).
    apply filter_is_str. }
  assert (∀ l, dict_get "tags" raw = Some (JList l) →
               tags = filter (λ tag, is_str tag = true) l) as Hraw.
  { intros l Hl. unfold tags. by rewrite Hl. }
  split; [|split].
  - exists tags. split; [|done].
    destruct (get "display_name" raw), (get "description" raw); reflexivity.
  - destruct (get "display_name" raw), (get "description" raw); reflexivity.
  - intros k v [Hv Hin]%list_elem_of_filter. cbn [snd] in Hv. split.
    + intros ->. done.
    + apply list_elem_of_In in Hin. cbn [In] in Hin.
      destruct Hin as [[= <- _]|[[= <- _]|[[= <- _]|[[= <- _]|[]]]]];
        apply (bool_decide_unpack _); reflexivity.
Qed.

(** *** Which payloads take the canonical branch *)

(** [is_graph_config] of [app/schemas/graph_config.py]. *)
Definition is_graph_config (float_repr : float → string)
    (config : list (string * json)) : bool :=
  Py.startswith "3."
    (py_str float_repr (default (JStr "") (dict_get "schema_version" config))).

(** X14.  A payload that [is_graph_config] accepts is upgraded on the
    canonical branch: its detected version starts with [3.].  The converse
    fails: a payload with [version] 3.0 and no [schema_version] is upgraded
    on the canonical branch, and [is_graph_config] rejects it.  The text of
    a float that is zero is taken not to start with [3.]. *)
Theorem is_graph_config_detected (float_repr : float → string)
    (raw_config : list (string * json)) :
  ((∀ sign, Py.startswith "3." (float_repr (S754_zero sign)) = false) →
   is_graph_config float_repr raw_config = true →
   Py.startswith "3." (detect_graph_config_version float_repr raw_config) = true)
  ∧ Py.startswith "3."
      (detect_graph_config_version float_repr [("version", JStr "3.0")]) = true
  ∧ is_graph_config float_repr [("version", JStr "3.0")] = false.
Proof.
  split; [|done].
  intros Hzero. unfold is_graph_config, detect_graph_config_version.
  destruct (dict_get "schema_version" raw_config) as [schema_version|];
    [|done].
  cbn [default]. destruct (truthy schema_version) eqn:Htrue; [done|].
  intros Hstarts. exfalso.
  destruct schema_version as [|b|n|x|s|l|items];
    cbn [truthy py_str py_repr default] in Htrue, Hstarts.
  - done.
  - by subst b.
  - apply negb_false_iff, Z.eqb_eq in Htrue. by subst n.
  - destruct x as [sign| | |]; try done.
    change (Py.startswith "3." (float_repr (S754_zero sign)) = true) in Hstarts.
    by rewrite Hzero in Hstarts.
  - apply negb_false_iff, String.eqb_eq in Htrue. by subst s.
  - apply negb_false_iff, bool_decide_eq_true in Htrue. by subst l.
  - apply negb_false_iff, bool_decide_eq_true in Htrue. by subst items.
Qed.

Lemma is_graph_config_detected_witness :
  Py.startswith "3."
    (detect_graph_config_version no_floats
       [("schema_version", JStr "3.0"); ("key", JStr "agent")]) = true.
Proof.
  destruct (is_graph_config_detected no_floats
              [("schema_version", JStr "3.0"); ("key", JStr "agent")])
    as [Hdetected _].
  apply Hdetected.
  - reflexivity.
  - reflexivity.
Defined.

End UpgraderSpec.

(** * What the registry and its components guarantee *)

Module RegistrySpec.
Import Json Registry.

(** X15.  [register] refuses a component exactly when its key is taken and
    [override] is not set, whatever [validate] reports.  After a successful
    call, [get] and [resolve] with the constraint [*] return the component
    under its key, and the components under all other keys are as before. *)
Theorem register_then_get (K : Packaging) (_components : ComponentRegistry)
    (component : ExecutableComponent) (override : bool) :
  let k := key (metadata component) in
  match fst (register _components component override) with
  | Some registry =>
      (override = true ∨ get _components k = None)
      ∧ get registry k = Some component
      ∧ resolve K registry k "*" = (Some component, [])
      ∧ ∀ other, other ≠ k → get registry other = get _components other
  | None => override = false ∧ is_Some (get _components k)
  end.
Proof.
  intros k. unfold register, get. fold k.
  destruct (bool_decide (is_Some (_components !! k))) eqn:Htaken;
    destruct override; cbn [andb negb fst].
  - split; [by left|]. rewrite lookup_insert_eq. split; [done|].
    split; [|by intros other Hne; rewrite lookup_insert_ne].
    unfold resolve. by rewrite lookup_insert_eq.
  - split; [done|]. by apply bool_decide_eq_true in Htaken.
  - split; [by left|]. rewrite lookup_insert_eq. split; [done|].
    split; [|by intros other Hne; rewrite lookup_insert_ne].
    unfold resolve. by rewrite lookup_insert_eq.
  - apply bool_decide_eq_false in Htaken.
    split; [right; by apply eq_None_not_Some|].
    rewrite lookup_insert_eq. split; [done|].
    split; [|by intros other Hne; rewrite lookup_insert_ne].
    unfold resolve. by rewrite lookup_insert_eq.
Qed.

(** X16.  [resolve] returns only the component registered under the key.
    It returns [None] only when no component has the key, or when the
    constraint is not [*], [packaging] is importable, the version of the
    component and the constraint both parse, and the version is outside the
    constraint.  When [packaging] is missing, or the version or the
    constraint does not parse, the registered component is returned. *)
Theorem resolve_outcomes (K : Packaging) (_components : ComponentRegistry)
    (k version_constraint : string) :
  match fst (resolve K _components k version_constraint) with
  | Some component => _components !! k = Some component
  | None =>
      _components !! k = None
      ∨ ∃ component comp_version specifier,
          _components !! k = Some component
          ∧ version_constraint ≠ "*"
          ∧ importable K = true
          ∧ Version K (version (metadata component)) = Returned comp_version
          ∧ specifier_of K version_constraint = Returned specifier
          ∧ Specifier_contains K specifier comp_version = false
  end
  ∧ ∀ component,
      _components !! k = Some component →
      importable K = false
      ∨ (∃ e, Version K (version (metadata component)) = Raised e)
      ∨ (∃ e, specifier_of K version_constraint = Raised e) →
      fst (resolve K _components k version_constraint) = Some component.
Proof.
  unfold resolve.
  destruct (_components !! k) as [component|] eqn:Hget; cbn [fst].
  2:{ split; [by left|]. by intros. }
  destruct (String.eqb version_constraint "*") eqn:Hstar; cbn [fst].
  { split; [done|]. by intros ? [= ->]. }
  apply String.eqb_neq in Hstar.
  destruct (importable K) eqn:Himp; cbn [negb fst].
  2:{ split; [done|]. by intros ? [= ->]. }
  destruct (Version K (version (metadata component))) as [comp_version|e]
    eqn:Hversion; cbn [mbind attempt_bind].
  2:{ split; [done|]. by intros ? [= ->]. }
  destruct (specifier_of K version_constraint) as [specifier|e] eqn:Hspec;
    cbn [mbind attempt_bind].
  2:{ split; [done|]. by intros ? [= ->]. }
  destruct (Specifier_contains K specifier comp_version) eqn:Hin; cbn [fst].
  { split; [done|]. by intros ? [= ->]. }
  split.
  - right. exists component, comp_version, specifier. done.
  - intros ? [= <-] [?|[[e ?]|[e ?]]]; congruence.
Qed.

(** ** Components ([app/agents/components/component.py]) *)

(** [ExecutableComponent.export_config]. *)
Definition export_config (component : ExecutableComponent) : json :=
  JDict
    [ ("kind", JStr "component");
      ("config",
       JDict
         [ ("component_ref",
            JDict [ ("key", JStr (key (metadata component)));
                    ("version", JStr (version (metadata component))) ]);
           ("config_overrides", JDict []) ]);
      ("metadata",
       JDict
         [ ("name", JStr (name (metadata component)));
           ("description", JStr (description (metadata component)));
           ("required_capabilities",
            JList (JStr <$> required_capabilities (metadata component))) ]) ].

(** [type(value).__name__]. *)
Definition type_name (j : json) : string :=
  match j with
  | JNull => "NoneType"
  | JBool _ => "bool"
  | JInt _ => "int"
  | JFloat _ => "float"
  | JStr _ => "str"
  | JList _ => "list"
  | JDict _ => "dict"
  end.

Definition as_str (j : json) : option string :=
  match j with JStr s => Some s | _ => None end.

Section Overrides.

(** The [config_schema] property returns a pydantic model class or [None].
    The class is not in the sources of the components: the embedding takes
    its [model_validate] followed by [model_dump(exclude_none=True)], which
    raises with the text of the [ValidationError]. *)
Context (config_schema
           : option (list (string * json) → attempt (list (string * json)))).

Definition validate_config_overrides (component : ExecutableComponent)
    (config_overrides : json) : attempt (list (string * json)) :=
  let k := key (metadata component) in
  let raw := if truthy config_overrides then config_overrides else JDict [] in
  match raw with
  | JDict raw =>
      match config_schema with
      | Some schema_model =>
          match schema_model raw with
          | Returned validated => Returned validated
          | Raised exc =>
              Raised ("Invalid config_overrides for component '" ++ k ++ "': "
                      ++ exc)
          end
      | None =>
          match config_schema_json (metadata component) with
          | Some (JDict schema_json) =>
              let required_raw :=
                default (JList []) (dict_get "required" schema_json) in
              let required_keys :=
                match required_raw with
                | JList l => omap as_str l
                | _ => []
                end in
              let missing_required :=
                filter (λ r, r ∉ dict_keys raw) required_keys in
              if negb (bool_decide (missing_required = [])) then
                Raised ("Invalid config_overrides for component '" ++ k
                        ++ "': missing required keys "
                        ++ Py.str_of_list
                             (Py.sorted String.compare id missing_required)
                        ++ ".")
              else
                let properties :=
                  default (JDict []) (dict_get "properties" schema_json) in
                let allow_additional :=
                  truthy (default (JBool false)
                            (dict_get "additionalProperties" schema_json)) in
                match properties with
                | JDict properties =>
                    if allow_additional then Returned raw
                    else
                      let allowed := remove_dups (dict_keys properties) in
                      let unknown :=
                        Py.sorted String.compare id
                          (filter (λ r, r ∉ allowed) (dict_keys raw)) in
                      if negb (bool_decide (unknown = [])) then
                        Raised ("Invalid config_overrides for component '" ++ k
                                ++ "': unknown keys " ++ Py.str_of_list unknown
                                ++ ". Allowed keys: "
                                ++ Py.str_of_list
                                     (Py.sorted String.compare id allowed)
                                ++ ".")
                      else Returned raw
                | _ => Returned raw
                end
          | _ => Returned raw
          end
      end
  | _ =>
      Raised ("Component '" ++ k ++ "' config_overrides must be an object, got "
              ++ type_name raw ++ ".")
  end.

End Overrides.

(** What a JSON contract asks of the overrides: every string of [required]
    is a key, and, unless [additionalProperties] is true or [properties] is
    no dict, every key is one of [properties]. *)
Definition meets_contract (schema_json raw : list (string * json)) : Prop :=
  (∀ l r, dict_get "required" schema_json = Some (JList l) →
          JStr r ∈ l → r ∈ dict_keys raw)
  ∧ (∀ properties,
       default (JDict []) (dict_get "properties" schema_json)
       = JDict properties →
       truthy (default (JBool false)
                 (dict_get "additionalProperties" schema_json)) = false →
       ∀ r, r ∈ dict_keys raw → r ∈ dict_keys properties).

Lemma filter_nil_Forall {A} (Q : A → Prop) `{!∀ x, Decision (Q x)} (l : list A) :
  filter Q l = [] ↔ ∀ x, x ∈ l → ¬ Q x.
Proof.
  split.
  - intros Hnil x Hin HQ.
    assert (x ∈ filter Q l) as Hx by (by apply list_elem_of_filter).
    rewrite Hnil in Hx. by apply elem_of_nil in Hx.
  - intros Hall. destruct (filter Q l) as [|x rest] eqn:Hf; [done|].
    assert (x ∈ filter Q l) as [HQ Hin]%list_elem_of_filter
      by (rewrite Hf; left).
    by destruct (Hall x Hin).
Qed.

Lemma sorted_nil_iff (l : list string) :
  Py.sorted String.compare id l = [] ↔ l = [].
Proof.
  split; [|by intros ->].
  intros Hs. apply length_zero_iff_nil.
  rewrite <- (Py.sorted_length String.compare id l), Hs. done.
Qed.

Lemma missing_required_nil (required_raw : json) (raw : list (string * json)) :
  filter (λ r, r ∉ dict_keys raw)
    (match required_raw with JList l => omap as_str l | _ => [] end) = []
  ↔ ∀ l r, required_raw = JList l → JStr r ∈ l → r ∈ dict_keys raw.
Proof.
  rewrite filter_nil_Forall. split.
  - intros Hall l r -> Hin.
    destruct (decide (r ∈ dict_keys raw)) as [|Hnot]; [done|].
    destruct (Hall r); [|done].
    apply list_elem_of_omap. by exists (JStr r).
  - intros Hall r Hin Hnot. destruct required_raw; try by apply elem_of_nil in Hin.
    apply list_elem_of_omap in Hin as (j & Hj & Hs).
    destruct j; try done. injection Hs as ->. by apply Hnot, (Hall l).
Qed.

Lemma unknown_nil (properties raw : list (string * json)) :
  Py.sorted String.compare id
    (filter (λ r, r ∉ remove_dups (dict_keys properties)) (dict_keys raw)) = []
  ↔ ∀ r, r ∈ dict_keys raw → r ∈ dict_keys properties.
Proof.
  rewrite sorted_nil_iff, filter_nil_Forall. split.
  - intros Hall r Hin.
    destruct (decide (r ∈ dict_keys properties)) as [|Hnot]; [done|].
    destruct (Hall r Hin). by rewrite elem_of_remove_dups.
  - intros Hall r Hin Hnot. apply Hnot.
    rewrite elem_of_remove_dups. by apply Hall.
Qed.

(** X17.  For a component without a [config_schema] class,
    [validate_config_overrides] returns the overrides exactly as given, an
    empty dict for overrides that are [None] or empty, and it returns at all
    exactly when the overrides are a dict that meets the JSON contract of
    the component: every required key present and, for a closed contract, no
    key outside its properties.  Without a JSON contract every dict is
    returned. *)
Theorem config_overrides_contract (component : ExecutableComponent)
    (config_overrides : json) (raw : list (string * json)) :
  validate_config_overrides None component config_overrides = Returned raw
  ↔ (if truthy config_overrides then config_overrides else JDict []) = JDict raw
    ∧ match config_schema_json (metadata component) with
      | Some (JDict schema_json) => meets_contract schema_json raw
      | _ => True
      end.
Proof.
  unfold validate_config_overrides.
  destruct (if truthy config_overrides then config_overrides else JDict [])
    as [| | | | |l|given];
    try (split; [done|by intros [[=] _]]).
  destruct (config_schema_json (metadata component)) as [schema|];
    [|split; [by intros [= ->]|by intros [[= ->] _]]].
  destruct schema as [| | | | | |schema_json];
    try (split; [by intros [= ->]|by intros [[= ->] _]]).
  unfold meets_contract.
  pose proof (missing_required_nil
                (default (JList []) (dict_get "required" schema_json)) given)
    as Hmissing.
  destruct (bool_decide (filter _ _ = [])) eqn:Hreq; cbn [negb].
  2:{ apply bool_decide_eq_false in Hreq. split; [done|].
      intros [[= <-] [Hrequired _]]. destruct Hreq. apply Hmissing.
      intros l r Hl. destruct (dict_get "required" schema_json) as [j|] eqn:Hget.
      - cbn in Hl. subst j. by apply Hrequired.
      - cbn in Hl. injection Hl as <-. by intros ?%elem_of_nil. }
  apply bool_decide_eq_true in Hreq.
  assert (∀ l r, dict_get "required" schema_json = Some (JList l) →
                 JStr r ∈ l → r ∈ dict_keys given) as Hrequired.
  { intros l r Hl. apply (proj1 Hmissing Hreq). by rewrite Hl. }
  destruct (default (JDict []) (dict_get "properties" schema_json))
    as [| | | | | |properties] eqn:Hprops;
    try (split; [intros [= <-]|intros [[= <-] _]]; [|done];
         split; [done|]; split; [done|]; by intros ? [=]).
  destruct (truthy _) eqn:Hadd.
  { split; [intros [= <-]|intros [[= <-] _]]; [|done].
    split; [done|]. split; [done|]. by intros ? _ [=]. }
  pose proof (unknown_nil properties given) as Hunknown.
  destruct (bool_decide (Py.sorted _ _ _ = [])) eqn:Hun; cbn [negb].
  - apply bool_decide_eq_true in Hun.
    split; [intros [= <-]|intros [[= <-] _]]; [|done].
    split; [done|]. split; [done|]. intros ? [= <-] _. by apply Hunknown.
  - apply bool_decide_eq_false in Hun. split; [done|].
    intros [[= <-] [_ Hallowed]]. destruct Hun. apply Hunknown.
    by apply (Hallowed properties).
Qed.

(** X18.  The dict that [export_config] returns is not accepted as a node
    of the canonical schema, and stays rejected whatever entries (such as
    [id] and [name]) are added to it, because of its [metadata] entry, which
    the node classes forbid.  Its [config] entry is accepted as the
    configuration of a component node that refers to the key and version of
    the component, when the key is not empty. *)
Theorem export_config_not_a_node (P : Schema.Pydantic)
    (component : ExecutableComponent) :
  Schema.PydanticLaws P →
  (∀ items more,
     export_config component = JDict items →
     Schema.GraphNodeConfig_validate P (JDict (items ++ more)) = None)
  ∧ (key (metadata component) ≠ "" →
     ∃ items config,
       export_config component = JDict items
       ∧ dict_get "config" items = Some config
       ∧ Schema.ComponentNodeConfig_validate P config
         = Some {| Schema.component_ref :=
                     {| Schema.cr_key := key (metadata component);
                        Schema.cr_version := version (metadata component) |};
                   Schema.config_overrides := [] |}).
Proof.
  intros HP. split.
  - intros items more [= <-]. reflexivity.
  - intros Hkey. eexists _, _. split; [reflexivity|]. split; [reflexivity|].
    unfold Schema.ComponentNodeConfig_validate, Schema.ComponentReference_validate,
      Schema.required, Schema.defaulted, Schema.v_str1, Schema.v_str.
    cbn [Schema.model_fields dict_keys map fst forallb Schema.str_in existsb
         String.eqb Ascii.eqb Bool.eqb orb andb Schema.check mbind option_bind
         dict_get].
    rewrite !(Schema.lax_str_JStr P HP). cbn [mbind option_bind].
    apply String.eqb_neq in Hkey. unfold Schema.nonempty. rewrite Hkey.
    reflexivity.
Qed.

Lemma export_config_not_a_node_witness :
  Schema.GraphNodeConfig_validate Schema.strict
    (JDict
       ([ ("kind", JStr "component");
          ("config",
           JDict
             [ ("component_ref",
                JDict [ ("key", JStr "react"); ("version", JStr "1.0.0") ]);
               ("config_overrides", JDict []) ]);
          ("metadata",
           JDict
             [ ("name", JStr "react"); ("description", JStr "");
               ("required_capabilities", JList []) ]) ]
        ++ [ ("id", JStr "agent"); ("name", JStr "Agent") ])) = None.
Proof.
  destruct (export_config_not_a_node Schema.strict (component_of "react" "1.0.0")
              Schema.strict_laws) as [Hnode _].
  apply (Hnode _ [ ("id", JStr "agent"); ("name", JStr "Agent") ]).
  reflexivity.
Defined.

End RegistrySpec.

(** * What the injection of the system prompt leaves alone *)

Module FactorySpec.
Import Json Factory.

(** A node that no branch of the loop body handles: a value that is no
    dict, or a dict whose [type] and [kind] are neither [llm] nor
    [component]. *)
Definition untouched (node : json) : Prop :=
  match node with
  | JDict nitems => llm_section nitems = None ∧ component_section nitems = None
  | _ => True
  end.

Lemma inject_node_json_untouched system_prompt node :
  untouched node → inject_node_json system_prompt node = node.
Proof.
  destruct node as [| | | | | |nitems]; try done.
  unfold untouched, llm_section, component_section. cbn [inject_node_json].
  destruct (jis_str (jget nitems "type") "component"); [by intros [_ ?]|].
  destruct (jis_str (jget nitems "type") "llm"); [by intros [? _]|].
  destruct (jis_str (jget nitems "kind") "component"); [by intros [_ ?]|].
  destruct (jis_str (jget nitems "kind") "llm"); [by intros [? _]|].
  done.
Qed.

Lemma dict_keys_set {V : Type} (k : string) (v v' : V) items :
  dict_get k items = Some v → dict_keys (dict_set k v' items) = dict_keys items.
Proof.
  induction items as [|[k0 v0] items IH]; [done|]. cbn.
  destruct (String.eqb k k0) eqn:E; cbn.
  - apply String.eqb_eq in E as ->. done.
  - intros Hget. f_equal. by apply IH.
Qed.

(** Below its first key, [inject_at_json] writes nothing. *)
Lemma inject_at_json_other system_prompt key path leaf jitems k :
  k ≠ key →
  dict_get k (inject_at_json system_prompt (key :: path) leaf jitems)
  = dict_get k jitems.
Proof.
  intros Hne. cbn [inject_at_json].
  destruct (default (JDict []) (dict_get key jitems)); try done.
  by apply dict_get_set_ne.
Qed.

Lemma inject_node_json_other system_prompt nitems :
  ∃ nitems',
    inject_node_json system_prompt (JDict nitems) = JDict nitems'
    ∧ ∀ k, llm_section nitems ≠ Some k → component_section nitems ≠ Some k →
           dict_get k nitems' = dict_get k nitems.
Proof.
  unfold llm_section, component_section. cbn [inject_node_json].
  destruct (jis_str (jget nitems "type") "component").
  { eexists. split; [done|]. intros k _ Hk.
    apply inject_at_json_other. congruence. }
  destruct (jis_str (jget nitems "type") "llm").
  { eexists. split; [done|]. intros k Hk _.
    apply inject_at_json_other. congruence. }
  destruct (jis_str (jget nitems "kind") "component").
  { eexists. split; [done|]. intros k _ Hk.
    apply inject_at_json_other. congruence. }
  destruct (jis_str (jget nitems "kind") "llm").
  { eexists. split; [done|]. intros k Hk _.
    apply inject_at_json_other. congruence. }
  by eexists.
Qed.

Lemma with_nodes_other jitems js' k :
  k ≠ "nodes" → k ≠ "graph" →
  dict_get k (with_nodes jitems js') = dict_get k jitems.
Proof.
  intros Hn Hg. unfold with_nodes.
  destruct (as_jlist (jget jitems "nodes")); [by apply dict_get_set_ne|].
  destruct (as_jdict (jget jitems "graph")); [by apply dict_get_set_ne|done].
Qed.

Lemma with_nodes_keys jitems js js' :
  nodes_of jitems = Some js →
  dict_keys (with_nodes jitems js') = dict_keys jitems.
Proof.
  unfold nodes_of, with_nodes.
  destruct (as_jlist (jget jitems "nodes")) as [js0|] eqn:Ejs.
  - intros _. apply as_jlist_Some in Ejs.
    eapply dict_keys_set. by apply jget_Some in Ejs.
  - destruct (as_jdict (jget jitems "graph")) as [graph|] eqn:Egraph; [|done].
    intros _. apply as_jdict_Some in Egraph.
    eapply dict_keys_set. by apply jget_Some in Egraph.
Qed.

(** X19.  For a config that is a JSON dict with a node list, the copy that
    [_inject_system_prompt] returns has the keys of the config in their
    order and, under every key other than [nodes] and [graph], the value of
    the config.  A node that is no dict, or whose [type] and [kind] are
    neither [llm] nor [component], is in the copy as it was; in every other
    node, each entry other than the config of the node is as it was. *)
Theorem inject_system_prompt_frame (system_prompt : string) (fuel : nat)
    (h : heap) (config_dict : value) (jitems : list (string * json))
    (fp : gset loc) (js : list json) :
  rep h config_dict (JDict jitems) fp →
  (size fp < fuel)%nat →
  nodes_of jitems = Some js →
  ∃ h' config c jitems' fp' js',
    _inject_system_prompt system_prompt fuel h config_dict
    = Some (h', config, c)
    ∧ rep h' config (JDict jitems') fp'
    ∧ nodes_of jitems' = Some js'
    ∧ dict_keys jitems' = dict_keys jitems
    ∧ (∀ k, k ≠ "nodes" → k ≠ "graph" →
            dict_get k jitems' = dict_get k jitems)
    ∧ (∀ i node, js !! i = Some node → untouched node → js' !! i = Some node)
    ∧ (∀ i nitems,
         js !! i = Some (JDict nitems) →
         ∃ nitems',
           js' !! i = Some (JDict nitems')
           ∧ ∀ k, llm_section nitems ≠ Some k →
                  component_section nitems ≠ Some k →
                  dict_get k nitems' = dict_get k nitems).
Proof.
  intros Hrep Hfuel Hnodes.
  destruct (inject_system_prompt_rep system_prompt fuel h config_dict jitems fp
              js Hrep Hfuel Hnodes)
    as (h' & config & c & fp' & Hrun & _ & Hrep' & _).
  exists h', config, c,
    (with_nodes jitems (map (inject_node_json system_prompt) js)), fp',
    (map (inject_node_json system_prompt) js).
  split; [done|]. split; [done|].
  split; [by eapply nodes_of_with_nodes|].
  split; [by eapply with_nodes_keys|].
  split; [by intros; apply with_nodes_other|].
  change (map ?f js) with (f <$> js). split.
  - intros i node Hi Hun.
    rewrite list_lookup_fmap, Hi. cbn.
    by rewrite (inject_node_json_untouched system_prompt node).
  - intros i nitems Hi.
    destruct (inject_node_json_other system_prompt nitems)
      as (nitems' & Hnode & Hother).
    exists nitems'. split; [|done].
    by rewrite list_lookup_fmap, Hi, <- Hnode.
Qed.

(** A v2 config with an LLM node and a tool node. *)
Definition llm_and_tool : json :=
  JDict [ ("version", JStr "2.0");
          ("nodes",
           JList [ JDict [ ("id", JStr "agent"); ("type", JStr "llm");
                           ("llm_config",
                            JDict [("prompt_template", JStr "Default")]) ];
                   JDict [ ("id", JStr "tools"); ("type", JStr "tool") ] ]);
          ("edges", JList []) ].

Lemma inject_system_prompt_frame_witness :
  ∃ h' config c jitems' fp' js',
    _inject_system_prompt "Policy" 16 (store ∅ llm_and_tool).1
      (store ∅ llm_and_tool).2
    = Some (h', config, c)
    ∧ rep h' config (JDict jitems') fp'
    ∧ nodes_of jitems' = Some js'
    ∧ js' !! 1%nat = Some (JDict [ ("id", JStr "tools"); ("type", JStr "tool") ]).
Proof.
  destruct (inject_system_prompt_frame "Policy" 16
              (store ∅ llm_and_tool).1 (store ∅ llm_and_tool).2
              [ ("version", JStr "2.0");
                ("nodes",
                 JList [ JDict [ ("id", JStr "agent"); ("type", JStr "llm");
                                 ("llm_config",
                                  JDict [("prompt_template", JStr "Default")]) ];
                         JDict [ ("id", JStr "tools"); ("type", JStr "tool") ] ]);
                ("edges", JList []) ]
              (dom (store ∅ llm_and_tool).1 ∖ dom (∅ : heap))
              [ JDict [ ("id", JStr "agent"); ("type", JStr "llm");
                        ("llm_config",
                         JDict [("prompt_template", JStr "Default")]) ];
                JDict [ ("id", JStr "tools"); ("type", JStr "tool") ] ])
    as (h' & config & c & jitems' & fp' & js' & Hrun & Hrep & Hnodes & _ & _
        & Hun & _).
  - exact (proj2 (store_rep llm_and_tool ∅)).
  - vm_compute. lia.
  - reflexivity.
  - exists h', config, c, jitems', fp', js'.
    split; [done|]. split; [done|]. split; [done|].
    apply Hun; [reflexivity|]. split; reflexivity.
Defined.

(** *** A config without a node list *)

(** A value over which [for] cannot run and that is true: a number other
    than zero, or [True]. *)
Definition not_iterable (j : json) : bool :=
  match j with
  | JBool b => b
  | JInt n => negb (n =? 0)
  | JFloat x => truthy (JFloat x)
  | _ => false
  end.

Definition no_counts : Counters :=
  {| merged_llm_nodes := 0; merged_component_nodes := 0;
     llm_nodes_with_node_prompt := 0; component_nodes_with_node_prompt := 0 |}.

Lemma inject_strings system_prompt h c (strings : list string) :
  foldl (inject_node system_prompt) (h, c) (VStr <$> strings) = (h, c).
Proof. by induction strings as [|s strings IH]. Qed.

(** X20.  For a config that is a JSON dict with no list under [nodes] and
    none under [graph.nodes]: when [nodes] is a number other than zero or
    [True], the loop over it raises; otherwise the function returns a copy
    made of new objects that is the same JSON value as the config, and has
    merged nothing. *)
Theorem inject_system_prompt_no_nodes (system_prompt : string) (fuel : nat)
    (h : heap) (config_dict : value) (jitems : list (string * json))
    (fp : gset loc) :
  rep h config_dict (JDict jitems) fp →
  (size fp < fuel)%nat →
  nodes_of jitems = None →
  if not_iterable (jget jitems "nodes") then
    _inject_system_prompt system_prompt fuel h config_dict = None
  else
    ∃ h' config fp',
      _inject_system_prompt system_prompt fuel h config_dict
      = Some (h', config, no_counts)
      ∧ h ⊆ h'
      ∧ rep h' config (JDict jitems) fp'
      ∧ fp' ## dom h.
Proof.
  intros Hrep Hfuel Hnodes.
  destruct (proj1 (deepcopy_rep_all h) _ _ _ Hrep fuel h Hfuel)
    as (h0 & config & fpc & Hcopy & Hsub0 & Hrepc & Hnew); [done|].
  unfold _inject_system_prompt. rewrite Hcopy. cbn [mbind option_bind].
  pose proof Hrepc as Hrepc'.
  inversion Hrepc' as [| | | | | |r items ? f0 Hr Hitems Hrf]; subst.
  cbn [as_dict]. rewrite Hr. cbn [mbind option_bind].
  unfold nodes_of in Hnodes.
  destruct (as_jlist (jget jitems "nodes")) as [js0|] eqn:Ejs; [done|].
  destruct (rep_get _ _ _ _ "nodes" Hitems) as (fn & Hgetn & _).
  rewrite (rep_as_list_None _ _ _ _ Hgetn Ejs).
  rewrite bool_decide_eq_false_2 by (by intros [? ?]).
  assert (match as_dict h0 (get items "graph") with
          | Some (_, graph) =>
              if bool_decide (is_Some (as_list h0 (get graph "nodes")))
              then get graph "nodes" else get items "nodes"
          | None => get items "nodes"
          end = get items "nodes") as ->.
  { destruct (rep_get _ _ _ _ "graph" Hitems) as (fg & Hgetg & _).
    pose proof (rep_as_dict _ _ _ _ Hgetg) as Hd.
    destruct (as_dict h0 (get items "graph")) as [[lg gitems]|]; [|done].
    destruct Hd as (gj & f1 & _ & Hj & _ & Hgi & _).
    rewrite Hj in Hnodes. cbn in Hnodes.
    destruct (rep_get _ _ _ _ "nodes" Hgi) as (fgn & Hgn & _).
    rewrite (rep_as_list_None _ _ _ _ Hgn Hnodes).
    by rewrite bool_decide_eq_false_2 by (by intros [? ?]). }
  assert (∀ strings,
            iterated h0 (get items "nodes") = Some (VStr <$> strings) →
            ∃ h' config0 fp',
              (nodes ← iterated h0 (get items "nodes");
               let '(h1, c) :=
                 foldl (inject_node system_prompt)
                   (h0, {| merged_llm_nodes := 0; merged_component_nodes := 0;
                           llm_nodes_with_node_prompt := 0;
                           component_nodes_with_node_prompt := 0 |}) nodes in
               Some (h1, VObj r, c)) = Some (h', config0, no_counts)
              ∧ h ⊆ h' ∧ rep h' config0 (JDict jitems) fp' ∧ fp' ## dom h)
    as Hcopied.
  { intros strings ->. cbn [mbind option_bind]. rewrite inject_strings.
    by exists h0, (VObj r), ({[r]} ∪ f0). }
  set (node_list := get items "nodes") in *. clearbody node_list.
  inversion Hgetn as [Ev Ej|b Ev Ej|n Ev Ej|x Ev Ej|s Ev Ej
                      |l vs js fl Hl Hvs Hlf Ev Ej
                      |l ditems djitems fl Hl Hditems Hlf Ev Ej];
    subst node_list; cbn [not_iterable].
  - by apply (Hcopied []).
  - destruct b; [done|]. by apply (Hcopied []).
  - cbn [iterated] in *. destruct (n =? 0) eqn:Hn; cbn [negb]; [|done].
    by apply (Hcopied []).
  - cbn [iterated] in *. destruct (truthy (JFloat x)) eqn:Hx; [done|].
    by apply (Hcopied []).
  - apply (Hcopied ((λ c, String c "") <$> list_ascii_of_string s)).
    cbn [iterated]. f_equal.
    change (map ?f ?l) with (f <$> l). by rewrite <- list_fmap_compose.
  - rewrite <- Ej in Ejs. done.
  - apply (Hcopied (fst <$> ditems)).
    cbn [iterated]. rewrite Hl. f_equal.
    change (map ?f ?l) with (f <$> l). by rewrite <- list_fmap_compose.
Qed.

(** A config whose [nodes] entry is a number. *)
Definition numbered_nodes : json :=
  JDict [ ("version", JStr "2.0"); ("nodes", JInt 3) ].

Lemma inject_system_prompt_no_nodes_witness :
  _inject_system_prompt "Policy" 16 (store ∅ numbered_nodes).1
    (store ∅ numbered_nodes).2 = None.
Proof.
  apply (inject_system_prompt_no_nodes "Policy" 16
           (store ∅ numbered_nodes).1 (store ∅ numbered_nodes).2
           [ ("version", JStr "2.0"); ("nodes", JInt 3) ]
           (dom (store ∅ numbered_nodes).1 ∖ dom (∅ : heap))).
  - exact (proj2 (store_rep numbered_nodes ∅)).
  - vm_compute. lia.
  - reflexivity.
Defined.

End FactorySpec.
